(** * dashboard-ibge: the data pipeline of [app.py]

    A shallow embedding of the table pipeline of the dashboard script:
    column discovery, the filter stage, the shaping done for each chart, the
    geo cleaning of the maps, and the way the script creates and changes
    its tables.

    Conventions.
    - A cell of a table is a number or a text.  Numbers are float64 values
      read as exact rationals extended with the two infinities and NaN;
      rounding and the sign of zero are not modelled.  A missing cell is NaN,
      as in pandas.
    - A table has an ordered list of column names and a list of rows, each
      with its index label; a row maps column names to cells.
    - The text-to-number conversion used by [pd.to_numeric] belongs to
      pandas: it is a parameter of the development (the class
      [NumberParser]), and every result holds for every conversion.
    - The widgets, the figures and the CSV text are Streamlit's, plotly's
      and pandas': a run takes the widget values as given, and records which
      figures it hands over.

    Layout: the model first (numbers, tables, column discovery, the table
    transforms, the script with its heap of tables, example tables), then
    the properties. *)

From Stdlib Require Import QArith Qcanon ZArith Lqa Ascii String List Sorted Permutation.
From stdpp Require Import base decidable option numbers list strings gmap.

#[local] Set Warnings "-clear-no-such-hyp".

Local Open Scope string_scope.
Local Open Scope list_scope.
Local Open Scope Z_scope.

(** ** Numbers *)

Inductive float : Type :=
  | NaN
  | NInf
  | Fin (q : Qc)
  | PInf.

Global Instance float_eq_dec : EqDecision float.
Proof. solve_decision. Defined.

Definition of_Z (z : Z) : float := Fin (Qc_of_Z z).

Definition isna (x : float) : bool :=
  match x with NaN => true | _ => false end.

(** IEEE [x <= y]: false as soon as one side is NaN. *)
Definition fle (x y : float) : bool :=
  match x, y with
  | NaN, _ | _, NaN => false
  | NInf, _ => true
  | _, PInf => true
  | Fin a, Fin b => bool_decide (a ≤ b)%Qc
  | _, _ => false
  end.

(** IEEE [x < y]. *)
Definition flt (x y : float) : bool :=
  match x, y with
  | NaN, _ | _, NaN => false
  | NInf, NInf => false
  | NInf, _ => true
  | PInf, _ => false
  | Fin a, Fin b => bool_decide (a < b)%Qc
  | Fin _, PInf => true
  | Fin _, NInf => false
  end.

Definition fge (x y : float) : bool := fle y x.

(** A figure of moderate size: missing, or from 0 up to 2^53, the range in
    which a 64-bit floating-point number holds every whole number. *)
Definition moderate (x : float) : bool :=
  isna x || (fle (of_Z 0) x && fle x (of_Z (2 ^ 53))).

(** A number of magnitude at most 2^53. *)
Definition bounded (x : float) : bool :=
  fle (of_Z (- 2 ^ 53)) x && fle x (of_Z (2 ^ 53)).

(** [Series.fillna(v)]. *)
Definition fillna (v : float) (x : float) : float :=
  match x with NaN => v | _ => x end.

(** Sign of a finite rational, for the division below. *)
Definition Qc_sgn (q : Qc) : comparison := (q ?= 0)%Qc.

(** IEEE division (zero is unsigned and counts as +0). *)
Definition fdiv (x y : float) : float :=
  match x, y with
  | NaN, _ | _, NaN => NaN
  | Fin a, Fin b =>
      if decide (b = 0%Qc) then
        match Qc_sgn a with Eq => NaN | Lt => NInf | Gt => PInf end
      else Fin (a / b)%Qc
  | Fin _, (PInf | NInf) => Fin 0%Qc
  | PInf, Fin b => match Qc_sgn b with Lt => NInf | _ => PInf end
  | NInf, Fin b => match Qc_sgn b with Lt => PInf | _ => NInf end
  | (PInf | NInf), (PInf | NInf) => NaN
  end.

(** IEEE multiplication. *)
Definition fmul (x y : float) : float :=
  match x, y with
  | NaN, _ | _, NaN => NaN
  | Fin a, Fin b => Fin (a * b)%Qc
  | Fin a, PInf | PInf, Fin a =>
      match Qc_sgn a with Eq => NaN | Lt => NInf | Gt => PInf end
  | Fin a, NInf | NInf, Fin a =>
      match Qc_sgn a with Eq => NaN | Lt => PInf | Gt => NInf end
  | PInf, PInf | NInf, NInf => PInf
  | PInf, NInf | NInf, PInf => NInf
  end.

(** ** Cells, rows and tables *)

Inductive Cell : Type :=
  | Num (x : float)
  | Text (s : string).

Global Instance Cell_eq_dec : EqDecision Cell.
Proof. solve_decision. Defined.

Abbreviation Row := (gmap string Cell).

Record DataFrame : Type := mkDF {
  columns : list string;
  rows : list (nat * Row)
}.

(** The cell of a row under a column; a column the row lacks reads as
    missing. *)
Definition cell (r : Row) (c : string) : Cell :=
  default (Num NaN) (r !! c).

(** [c in df.columns]. *)
Definition has_col (c : string) (d : DataFrame) : bool :=
  bool_decide (c ∈ columns d).

(** The index labels of a table. *)
Definition index (d : DataFrame) : list nat := (rows d).*1.

(** [len(df)]. *)
Definition len (d : DataFrame) : nat := length (rows d).

(** [df[mask]]: boolean indexing keeps the rows whose mask is true, with
    their labels, and all columns. *)
Definition select (p : Row → bool) (d : DataFrame) : DataFrame :=
  mkDF (columns d) (filter (λ ir : nat * Row, p ir.2 = true) (rows d)).

(** [df[c] = f(row)]: an existing column is overwritten in place, a new one
    is appended as the last column. *)
Definition assign (c : string) (f : Row → Cell) (d : DataFrame) : DataFrame :=
  mkDF (if has_col c d then columns d else columns d ++ [c])
       ((λ ir : nat * Row, (ir.1, <[c := f ir.2]> ir.2)) <$> rows d).

(** ** Stable sorting, as [sorted], [nlargest] and [nsmallest] use it *)

Section stable_sort.
Context {A : Type} (le : A → A → bool).

Fixpoint insert_by (x : A) (l : list A) : list A :=
  match l with
  | [] => [x]
  | y :: l' => if le x y then x :: l else y :: insert_by x l'
  end.

(** Insertion from the right: an element goes before the first one it is
    [le] to, so equal keys keep their order. *)
Definition sort_by (l : list A) : list A := foldr insert_by [] l.
End stable_sort.

(** ** Column discovery (lines 67-80) *)

Definition underscore : ascii := "_"%char.

(** [c.startswith(p)]. *)
Fixpoint startswith (c p : string) : bool :=
  match p, c with
  | EmptyString, _ => true
  | String a p', String b c' => if decide (a = b) then startswith c' p' else false
  | String _ _, EmptyString => false
  end.

Fixpoint has_underscore (s : string) : bool :=
  match s with
  | EmptyString => false
  | String a s' => if decide (a = underscore) then true else has_underscore s'
  end.

(** [c.rsplit("_", 1)[-1]]: the text after the last underscore, the whole
    text when there is none. *)
Fixpoint rsplit_last (s : string) : string :=
  match s with
  | EmptyString => EmptyString
  | String a s' =>
      if has_underscore s' then rsplit_last s'
      else if decide (a = underscore) then s' else s
  end.

(** The characters [int] strips on both ends. *)
Definition is_space (a : ascii) : bool :=
  let n := nat_of_ascii a in
  ((9 <=? n)%nat && (n <=? 13)%nat) || ((28 <=? n)%nat && (n <=? 32)%nat).

Definition digit_of (a : ascii) : option Z :=
  let n := Z.of_nat (nat_of_ascii a) in
  if (48 <=? n) && (n <=? 57) then Some (n - 48) else None.

(** Decimal digits, single underscores allowed between two digits.
    [prev] tells whether the previous character was a digit. *)
Fixpoint digits_val (acc : Z) (prev : bool) (s : list ascii) : option Z :=
  match s with
  | [] => if prev then Some acc else None
  | a :: s' =>
      match digit_of a with
      | Some d => digits_val (10 * acc + d) true s'
      | None =>
          if decide (a = underscore) then
            if prev then digits_val acc false s' else None
          else None
      end
  end.

Fixpoint lstrip (s : list ascii) : list ascii :=
  match s with
  | a :: s' => if is_space a then lstrip s' else s
  | [] => []
  end.

Definition strip (s : list ascii) : list ascii :=
  rev (lstrip (rev (lstrip s))).

(** Python's [int(s)] on an ASCII text, [None] where it raises. *)
Definition py_int (s : string) : option Z :=
  match strip (list_ascii_of_string s) with
  | "+"%char :: ds => digits_val 0 false ds
  | "-"%char :: ds => Z.opp <$> digits_val 0 false ds
  | ds => digits_val 0 false ds
  end.


(** [year_of] of [available_year_cols]. *)
Definition year_of (c : string) : Z :=
  match py_int (rsplit_last c) with
  | Some y => y
  | None => 0
  end.

Definition year_le (a b : string) : bool := year_of a <=? year_of b.

Definition available_year_cols (cols : list string) (prefix : string) : list string :=
  sort_by year_le (filter (λ c, startswith c (prefix +:+ "_") = true) cols).

Definition pop_cols (cols : list string) : list string :=
  available_year_cols cols "populacao_estimada".
Definition pib_cols (cols : list string) : list string :=
  available_year_cols cols "pib_per_capita".
Definition idh_cols (cols : list string) : list string :=
  filter (λ c, startswith c "idh_" = true) cols.
Definition bioma_cols (cols : list string) : list string :=
  filter (λ c, startswith c "bioma_" = true) cols.

(** ** Table transforms used by the filter stage and the charts *)

Definition isna_cell (c : Cell) : bool :=
  match c with Num NaN => true | _ => false end.

(** [df.dropna(subset=cols)]: a row stays when none of the listed cells is
    missing. *)
Definition dropna (cols : list string) (d : DataFrame) : DataFrame :=
  select (λ r, forallb (λ c, negb (isna_cell (cell r c))) cols) d.

(** [df[[c1; ...; cn]]]: the listed columns, in the listed order. *)
Definition project (cols : list string) (d : DataFrame) : DataFrame :=
  mkDF cols
       ((λ ir : nat * Row,
           (ir.1, filter (λ kv : string * Cell, kv.1 ∈ cols) ir.2)) <$> rows d).

(** [pd.concat([a, b])]: the rows of [a], then those of [b], labels kept. *)
Definition concat (a b : DataFrame) : DataFrame :=
  mkDF (columns a ++ filter (λ c, c ∉ columns a) (columns b))
       (rows a ++ rows b).

(** Order of [nlargest]: larger first, missing values last. *)
Definition desc_le (x y : float) : bool :=
  match x, y with
  | _, NaN => true
  | NaN, _ => false
  | _, _ => fle y x
  end.

(** Order of [nsmallest]: smaller first, missing values last. *)
Definition asc_le (x y : float) : bool :=
  match x, y with
  | _, NaN => true
  | NaN, _ => false
  | _, _ => fle x y
  end.

(** NaN-skipping maximum, as [Series.max()]. *)
Definition fmax (x y : float) : float :=
  match x, y with
  | NaN, _ => y
  | _, NaN => x
  | _, _ => if fle x y then y else x
  end.

Definition series_max (l : list float) : float := foldr fmax NaN l.

(** [pd.cut(x, bins, labels)] with its defaults [right=True] and
    [include_lowest=False]: the label of the first interval
    (bins[i], bins[i+1]] holding [x], none when no interval does. *)
Fixpoint pd_cut {L : Type} (bins : list float) (labels : list L) (x : float)
  : option L :=
  match bins, labels with
  | lo :: (hi :: _) as rest, lab :: labels' =>
      if flt lo x && fle x hi then Some lab else pd_cut rest labels' x
  | _, _ => None
  end.

Inductive Porte : Type := Pequeno | Medio | Grande | Metropole.

Global Instance Porte_eq_dec : EqDecision Porte.
Proof. solve_decision. Defined.

(** The bins of lines 300, 374 and 452. *)
Definition porte_bins : list float :=
  [of_Z 0; of_Z 20000; of_Z 100000; of_Z 500000; PInf].

Definition porte (x : float) : option Porte :=
  pd_cut porte_bins [Pequeno; Medio; Grande; Metropole] x.

(** The labels of charts 4 and 8 (lines 301 and 453). *)
Definition porte_label (p : Porte) : string :=
  match p with
  | Pequeno => "Pequeno"
  | Medio => "Médio"
  | Grande => "Grande"
  | Metropole => "Metrópole"
  end.

Definition newline : string := String (ascii_of_nat 10) EmptyString.

(** The labels of chart 6 (line 375). *)
Definition porte_label_6 (p : Porte) : string :=
  match p with
  | Pequeno => "Pequeno" +:+ newline +:+ "(<20k)"
  | Medio => "Médio" +:+ newline +:+ "(20-100k)"
  | Grande => "Grande" +:+ newline +:+ "(100-500k)"
  | Metropole => "Metrópole" +:+ newline +:+ "(>500k)"
  end.

(** The category cell: the label, or missing when [pd.cut] finds no bin. *)
Definition porte_cell (labels : Porte → string) (x : float) : Cell :=
  match porte x with
  | Some p => Text (labels p)
  | None => Num NaN
  end.

(** Python truth value of a selected column name ([None] or a text). *)
Definition truthy (c : option string) : bool :=
  match c with
  | Some s => negb (bool_decide (s = ""))
  | None => false
  end.

(** The conversion of a text to a number by [pd.to_numeric]; NaN when the
    text does not parse ([errors="coerce"]). *)
Class NumberParser : Type := parse_number : string → float.

Section pipeline.
Context {parser : NumberParser}.

Definition to_numeric (c : Cell) : float :=
  match c with
  | Num x => x
  | Text s => parse_number s
  end.

(** The coerced value of a row under a column. *)
Definition num (r : Row) (c : string) : float := to_numeric (cell r c).

(** [df[c] = pd.to_numeric(df[c], errors="coerce")]. *)
Definition coerce (c : string) (d : DataFrame) : DataFrame :=
  assign c (λ r, Num (num r c)) d.

(** [df[c] = pd.to_numeric(df[c], errors="coerce").fillna(0)]. *)
Definition coerce_fill (c : string) (d : DataFrame) : DataFrame :=
  assign c (λ r, Num (fillna (of_Z 0) (num r c))) d.

(** [df.nlargest(n, c)] and [df.nsmallest(n, c)], with [keep="first"]. *)
Definition nlargest (n : nat) (c : string) (d : DataFrame) : DataFrame :=
  mkDF (columns d)
       (take n (sort_by (λ a b : nat * Row, desc_le (num a.2 c) (num b.2 c))
                        (rows d))).

Definition nsmallest (n : nat) (c : string) (d : DataFrame) : DataFrame :=
  mkDF (columns d)
       (take n (sort_by (λ a b : nat * Row, asc_le (num a.2 c) (num b.2 c))
                        (rows d))).

(** The rows [nlargest] leaves out, in sorted order (used to state what
    the selection dominates). *)
Definition nlargest_rest (n : nat) (c : string) (d : DataFrame)
  : list (nat * Row) :=
  drop n (sort_by (λ a b : nat * Row, desc_le (num a.2 c) (num b.2 c)) (rows d)).

(** *** Filter stage (lines 120-125) *)

(** [series.isin(values)]. *)
Definition isin (values : list Cell) (c : Cell) : bool :=
  bool_decide (c ∈ values).

(** Lines 121-122. *)
Definition state_filter (estado_sel : list Cell) (d : DataFrame) : DataFrame :=
  if negb (bool_decide (estado_sel = [])) && has_col "estado" d
  then select (λ r, isin estado_sel (cell r "estado")) d
  else d.

(** The population of a row as the filter compares it. *)
Definition pop0 (c : string) (r : Row) : float :=
  fillna (of_Z 0) (num r c).

(** Lines 123-125. *)
Definition pop_filter (pop_col : option string) (min_pop : Z) (d : DataFrame)
  : DataFrame :=
  match pop_col with
  | Some c =>
      if truthy pop_col
      then select (λ r, fge (pop0 c r) (of_Z min_pop)) (coerce c d)
      else d
  | None => d
  end.

Definition df_filtered (estado_sel : list Cell) (pop_col : option string)
    (min_pop : Z) (df : DataFrame) : DataFrame :=
  pop_filter pop_col min_pop (state_filter estado_sel df).

(** *** Chart 1: top municipalities (lines 191-193) *)

Definition df_top (pop_col : string) (top_n : nat) (view : DataFrame)
  : DataFrame :=
  nlargest top_n pop_col (coerce_fill pop_col view).

(** *** Charts 4, 6 and 8: size category (lines 292-302, 367-376, 445-454) *)

(** The three charts coerce two columns, drop the rows missing either,
    and bin the population column. *)
Definition with_porte (labels : Porte → string) (first second pop_col : string)
    (view : DataFrame) : DataFrame :=
  let d := coerce second (coerce first view) in
  let d := dropna [first; second] d in
  assign "porte" (λ r, porte_cell labels (num r pop_col)) d.

Definition df_scatter (pop_col pib_col : string) : DataFrame → DataFrame :=
  with_porte porte_label pop_col pib_col pop_col.

Definition df_porte (pop_col pib_col : string) : DataFrame → DataFrame :=
  with_porte porte_label_6 pop_col pib_col pop_col.

Definition df_idh_pop (idh_col pop_col : string) : DataFrame → DataFrame :=
  with_porte porte_label idh_col pop_col pop_col.

(** *** Chart 9: best and worst (lines 482-492) *)

Definition df_idh_ranking (idh_col : string) (view : DataFrame) : DataFrame :=
  dropna [idh_col] (coerce idh_col view).

Definition top_10 (idh_col : string) (view : DataFrame) : DataFrame :=
  assign "categoria" (λ _, Text "Top 10 Melhores")
    (project ["municipio"; "estado"; idh_col]
       (nlargest 10 idh_col (df_idh_ranking idh_col view))).

Definition bottom_10 (idh_col : string) (view : DataFrame) : DataFrame :=
  assign "categoria" (λ _, Text "Top 10 Piores")
    (project ["municipio"; "estado"; idh_col]
       (nsmallest 10 idh_col (df_idh_ranking idh_col view))).

Definition df_comparison (idh_col : string) (view : DataFrame) : DataFrame :=
  concat (top_10 idh_col view) (bottom_10 idh_col view).

(** *** Maps: geo cleaning and elevation (lines 522-530, 566) *)

Definition fill_if_present (c : option string) (d : DataFrame) : DataFrame :=
  match c with
  | Some c' => if has_col c' d then coerce_fill c' d else d
  | None => d
  end.

Definition df_map (pop_col idh_col : option string) (view : DataFrame)
  : DataFrame :=
  let d := coerce "longitude" (coerce "latitude" view) in
  let d := dropna ["latitude"; "longitude"] d in
  fill_if_present idh_col (fill_if_present pop_col d).

(** A row has coordinates when both parse. *)
Definition has_coords (r : Row) : bool :=
  negb (isna (num r "latitude")) && negb (isna (num r "longitude")).

(** [df_map[c].max()]. *)
Definition col_max (c : string) (d : DataFrame) : float :=
  series_max ((λ ir : nat * Row, num ir.2 c) <$> rows d).

(** Line 566. *)
Definition with_pop_norm (pop_col : string) (d : DataFrame) : DataFrame :=
  let m := col_max pop_col d in
  assign "pop_norm"
         (λ r, Num (fmul (fdiv (num r pop_col) m) (of_Z 500000))) d.

(** *** Text columns of the charts *)

(** [df['municipio'] + ' - ' + df['estado']] on one row; a missing
    operand gives a missing label.  The type errors pandas raises when a
    column holds numbers are not modelled. *)
Definition label_cell (r : Row) : Cell :=
  match cell r "municipio", cell r "estado" with
  | Text m, Text e => Text (m +:+ " - " +:+ e)
  | _, _ => Num NaN
  end.

(** [df[c].fillna("Sem informação")] on one row. *)
Definition fill_text (c : string) (r : Row) : Cell :=
  if isna_cell (cell r c) then Text "Sem informação" else cell r c.

End pipeline.

(** ** The script: tables as objects

    Python variables hold references.  The heap lists the tables the run
    has created, a reference is a position in it; [df.copy()], boolean
    indexing, [dropna], [nlargest], [nsmallest], column selection and
    [pd.concat] create a table, an assignment [df[c] = ...] changes the
    table it is applied to.  An exception ends the run.

    The exceptions are those of a column that is looked up and is not in
    the table.  What the values of a column can raise is outside the
    model: the [TypeError] of the label concatenation of charts 1 and 9 on
    a label column that holds numbers, plotly's [ValueError] for a negative
    marker size in chart 4, the [OverflowError] of [int] on an infinite
    total. *)

Inductive Exn : Type :=
  | KeyError (c : string)      (* pandas: the column is not in the table *)
  | ValueError (c : string)    (* plotly: the named column is not in the table *)
  | Unbound.                   (* a reference outside the heap *)

Inductive result (A : Type) : Type :=
  | Ok (a : A)
  | Raise (e : Exn).
Arguments Ok {A} a.
Arguments Raise {A} e.

Inductive Chart : Type :=
  | Chart1 | Chart2 | Chart3 | Chart4 | Chart5 | Chart6 | Chart7 | Chart8
  | Chart9 | Map2D | Map3D | Download.

Abbreviation loc := nat (only parsing).

Record State : Type := mkState {
  heap : list DataFrame;
  shown : list Chart
}.

Definition M (A : Type) : Type := State → result A * State.

Definition ret {A} (a : A) : M A := λ σ, (Ok a, σ).

Definition raise {A} (e : Exn) : M A := λ σ, (Raise e, σ).

Definition bind {A B} (m : M A) (k : A → M B) : M B :=
  λ σ, match m σ with
       | (Ok a, σ') => k a σ'
       | (Raise e, σ') => (Raise e, σ')
       end.

Declare Scope script_scope.
Delimit Scope script_scope with script.
Notation "x <- m ;; k" := (bind m (λ x, k))
  (at level 100, m at next level, right associativity) : script_scope.
Notation "m ;; k" := (bind m (λ _, k))
  (at level 100, right associativity) : script_scope.
Local Open Scope script_scope.

(** The table a reference points to. *)
Definition deref (l : loc) : M DataFrame :=
  λ σ, match heap σ !! l with
       | Some d => (Ok d, σ)
       | None => (Raise Unbound, σ)
       end.

(** A new table, at a fresh position. *)
Definition alloc (d : DataFrame) : M loc :=
  λ σ, (Ok (length (heap σ)), mkState (heap σ ++ [d]) (shown σ)).

(** Overwrite the table at a position. *)
Definition put (l : loc) (d : DataFrame) : M unit :=
  λ σ, (Ok (), mkState (<[l := d]> (heap σ)) (shown σ)).

(** [df.copy()]. *)
Definition copy (l : loc) : M loc :=
  d <- deref l ;; alloc d.

(** A method that returns a new table. *)
Definition derive (f : DataFrame → DataFrame) (l : loc) : M loc :=
  d <- deref l ;; alloc (f d).

(** An assignment into the table ([df[c] = ...]). *)
Definition update (f : DataFrame → DataFrame) (l : loc) : M unit :=
  d <- deref l ;; put l (f d).

(** [df[c]]: reading a column the table lacks raises [KeyError]. *)
Definition getitem (l : loc) (c : string) : M unit :=
  d <- deref l ;; if has_col c d then ret () else raise (KeyError c).

(** A column named to a plotly figure ([color=], [hover_name=], a key of
    [hover_data]): plotly raises [ValueError] when the table lacks it. *)
Definition px_col (l : loc) (c : string) : M unit :=
  d <- deref l ;; if has_col c d then ret () else raise (ValueError c).

(** The figure is handed to the page. *)
Definition show (ch : Chart) : M unit :=
  λ σ, (Ok (), mkState (heap σ) (shown σ ++ [ch])).

(** The widget values of one run (lines 86-117, 135). *)
Record Inputs : Type := mkInputs {
  estado_sel : list Cell;
  pop_col : option string;
  pib_col : option string;
  idh_col : option string;
  min_pop : Z;
  top_n : nat;
  export : bool
}.

(** A selector as an [if] tests it: the column when it is truthy. *)
Definition chosen (c : option string) : option string :=
  if truthy c then c else None.

Section script.
Context {parser : NumberParser}.

(** [df[c] = pd.to_numeric(df[c], errors="coerce")]. *)
Definition coerce_at (l : loc) (c : string) : M unit :=
  getitem l c ;; update (coerce c) l.

(** [df[c] = pd.to_numeric(df[c], errors="coerce").fillna(0)]. *)
Definition coerce_fill_at (l : loc) (c : string) : M unit :=
  getitem l c ;; update (coerce_fill c) l.

(** Reading several columns, in order. *)
Fixpoint getitems (l : loc) (cols : list string) : M unit :=
  match cols with
  | [] => ret ()
  | c :: cols' => getitem l c ;; getitems l cols'
  end.

(** [df.dropna(subset=cols)]: every listed column must exist. *)
Definition dropna_at (l : loc) (cols : list string) : M loc :=
  getitems l cols ;; derive (dropna cols) l.

(** Lines 120-125. *)
Definition filter_stage (inp : Inputs) (df : loc) : M loc :=
  f <- copy df ;;
  d <- deref f ;;
  f <- (if negb (bool_decide (estado_sel inp = [])) && has_col "estado" d
        then derive (select (λ r, isin (estado_sel inp) (cell r "estado"))) f
        else ret f) ;;
  match chosen (pop_col inp) with
  | Some pc =>
      coerce_at f pc ;;
      derive (select (λ r, fge (pop0 pc r) (of_Z (min_pop inp)))) f
  | None => ret f
  end.

(** Lines 135-144: the export serialises the filtered table itself. *)
Definition export_csv (inp : Inputs) (f : loc) : M unit :=
  if export inp then (deref f ;; show Download) else ret ().

(** Chart 1, lines 190-221. *)
Definition chart1 (inp : Inputs) (f : loc) : M unit :=
  v <- deref f ;;
  match chosen (pop_col inp) with
  | Some pc =>
      if has_col "municipio" v then
        t <- copy f ;;
        coerce_fill_at t pc ;;
        t <- derive (nlargest (top_n inp) pc) t ;;
        getitem t "municipio" ;;
        getitem t "estado" ;;
        update (assign "label" label_cell) t ;;
        show Chart1
      else ret ()
  | None => ret ()
  end.

(** Chart 2, lines 229-252: group by state, sum; the table is only read. *)
Definition chart2 (inp : Inputs) (f : loc) : M unit :=
  v <- deref f ;;
  match chosen (pop_col inp) with
  | Some pc =>
      if has_col "estado" v then
        getitem f "estado" ;; getitem f pc ;; show Chart2
      else ret ()
  | None => ret ()
  end.

(** Chart 3, lines 258-282; [bioma_cols] comes from the loaded table. *)
Definition chart3 (inp : Inputs) (df f : loc) : M unit :=
  d <- deref df ;;
  match chosen (last (bioma_cols (columns d))), chosen (pop_col inp) with
  | Some bc, Some pc =>
      b <- copy f ;;
      getitem b bc ;;
      update (assign bc (fill_text bc)) b ;;
      getitem b bc ;; getitem b pc ;;
      show Chart3
  | _, _ => ret ()
  end.

(** The shaping shared by charts 4, 6 and 8. *)
Definition with_porte_at (labels : Porte → string)
    (first second pc : string) (f : loc) : M loc :=
  s <- copy f ;;
  coerce_at s first ;;
  coerce_at s second ;;
  s <- dropna_at s [first; second] ;;
  getitem s pc ;;
  update (assign "porte" (λ r, porte_cell labels (num r pc))) s ;;
  ret s.

(** Chart 4, lines 291-326.  The marker size is the GDP column: plotly
    refuses a negative size with a [ValueError], which is not modelled. *)
Definition chart4 (inp : Inputs) (f : loc) : M unit :=
  v <- deref f ;;
  match chosen (pop_col inp), chosen (pib_col inp) with
  | Some pc, Some gc =>
      if has_col "municipio" v then
        s <- with_porte_at porte_label pc gc pc f ;;
        px_col s pc ;; px_col s gc ;; px_col s "estado" ;;
        px_col s "municipio" ;; px_col s "porte" ;;
        show Chart4
      else ret ()
  | _, _ => ret ()
  end.

(** Chart 5, lines 334-360: group by state, mean. *)
Definition chart5 (inp : Inputs) (f : loc) : M unit :=
  v <- deref f ;;
  match chosen (pib_col inp) with
  | Some gc =>
      if has_col "estado" v then
        p <- copy f ;;
        coerce_at p gc ;;
        getitem p "estado" ;; getitem p gc ;;
        show Chart5
      else ret ()
  | None => ret ()
  end.

(** Chart 6, lines 366-397. *)
Definition chart6 (inp : Inputs) (f : loc) : M unit :=
  match chosen (pop_col inp), chosen (pib_col inp) with
  | Some pc, Some gc =>
      s <- with_porte_at porte_label_6 pc gc pc f ;;
      px_col s "porte" ;; px_col s gc ;;
      show Chart6
  | _, _ => ret ()
  end.

(** Chart 7, lines 409-438. *)
Definition chart7 (inp : Inputs) (f : loc) : M unit :=
  v <- deref f ;;
  match chosen (idh_col inp) with
  | Some ic =>
      if has_col "estado" v then
        s <- copy f ;;
        coerce_at s ic ;;
        s <- dropna_at s [ic] ;;
        getitem s "estado" ;; getitem s ic ;;
        px_col s "estado" ;; px_col s ic ;;
        show Chart7
      else ret ()
  | None => ret ()
  end.

(** Chart 8, lines 444-476. *)
Definition chart8 (inp : Inputs) (f : loc) : M unit :=
  match chosen (idh_col inp), chosen (pop_col inp) with
  | Some ic, Some pc =>
      s <- with_porte_at porte_label ic pc pc f ;;
      px_col s "porte" ;; px_col s ic ;;
      show Chart8
  | _, _ => ret ()
  end.

(** One half of chart 9: the ten extreme rows, three columns, a tag. *)
Definition ranked_at (pick : DataFrame → DataFrame) (tag ic : string)
    (r : loc) : M loc :=
  t <- derive pick r ;;
  getitems t ["municipio"; "estado"; ic] ;;
  t <- derive (project ["municipio"; "estado"; ic]) t ;;
  t <- copy t ;;
  update (assign "categoria" (λ _, Text tag)) t ;;
  ret t.

(** Chart 9, lines 481-514. *)
Definition chart9 (inp : Inputs) (f : loc) : M unit :=
  v <- deref f ;;
  match chosen (idh_col inp) with
  | Some ic =>
      if has_col "municipio" v then
        r <- copy f ;;
        coerce_at r ic ;;
        r <- dropna_at r [ic] ;;
        t <- ranked_at (nlargest 10 ic) "Top 10 Melhores" ic r ;;
        b <- ranked_at (nsmallest 10 ic) "Top 10 Piores" ic r ;;
        dt <- deref t ;;
        c <- derive (concat dt) b ;;
        getitem c "municipio" ;;
        getitem c "estado" ;;
        update (assign "label" label_cell) c ;;
        px_col c ic ;; px_col c "label" ;; px_col c "categoria" ;;
        show Chart9
      else ret ()
  | None => ret ()
  end.

(** A key of [hover_data]: a selector that is [None] names no column. *)
Definition px_opt (l : loc) (c : option string) : M unit :=
  match c with
  | Some c' => px_col l c'
  | None => ret ()
  end.

Definition fill_if_present_at (l : loc) (c : option string) : M unit :=
  d <- deref l ;;
  match c with
  | Some c' => if has_col c' d then coerce_fill_at l c' else ret ()
  | None => ret ()
  end.

(** The maps, lines 521-598. *)
Definition maps (inp : Inputs) (f : loc) : M unit :=
  v <- deref f ;;
  if has_col "latitude" v && has_col "longitude" v then
    m <- copy f ;;
    coerce_at m "latitude" ;;
    coerce_at m "longitude" ;;
    m <- dropna_at m ["latitude"; "longitude"] ;;
    fill_if_present_at m (pop_col inp) ;;
    fill_if_present_at m (idh_col inp) ;;
    px_col m "municipio" ;;
    px_col m "estado" ;;
    px_opt m (pop_col inp) ;;
    px_opt m (idh_col inp) ;;
    show Map2D ;;
    d <- deref m ;;
    match pop_col inp with
    | Some pc =>
        if has_col pc d then
          getitem m pc ;;
          update (with_pop_norm pc) m ;;
          show Map3D
        else ret ()
    | None => ret ()
    end
  else ret ().

(** One run of the script on the cached table. *)
Definition script (inp : Inputs) (df : loc) : M unit :=
  f <- filter_stage inp df ;;
  export_csv inp f ;;
  chart1 inp f ;;
  chart2 inp f ;;
  chart3 inp df f ;;
  chart4 inp f ;;
  chart5 inp f ;;
  chart6 inp f ;;
  chart7 inp f ;;
  chart8 inp f ;;
  chart9 inp f ;;
  maps inp f.

(** A session: one run per interaction, all on the same cached table. *)
Definition session (inps : list Inputs) (df : loc) (σ : State) : State :=
  foldl (λ σ inp, (script inp df σ).2) σ inps.

End script.

(** ** Frame condition

    A computation preserves the first [n] tables of the heap when running
    it leaves them as they were; [Q] is what holds of its result. *)
Definition preserves {A} (n : nat) (m : M A) (Q : A → Prop) : Prop :=
  ∀ σ, (n ≤ length (heap σ))%nat →
    take n (heap (m σ).2) = take n (heap σ)
    ∧ (n ≤ length (heap (m σ).2))%nat
    ∧ ∀ a, (m σ).1 = Ok a → Q a.

(** ** What a run computes

    [wp m Q σ]: from the state [σ] the computation [m] ends without an
    exception, in a result and a state that satisfy [Q]. *)
Definition wp {A} (m : M A) (Q : A → State → Prop) (σ : State) : Prop :=
  match m σ with
  | (Ok a, σ') => Q a σ'
  | (Raise _, _) => False
  end.

(** [σ'] keeps the tables of [σ]: they are still there, unchanged. *)
Definition keeps (σ σ' : State) : Prop :=
  ∀ k x, heap σ !! k = Some x → heap σ' !! k = Some x.

(** [σ'] extends [σ]: it keeps its tables, and nothing more has been
    shown. *)
Definition extends (σ σ' : State) : Prop :=
  keeps σ σ' ∧ shown σ' = shown σ.

(** The sections whose guards cover every column they read, in the order
    of the script. *)
Definition guarded_charts {parser : NumberParser}
    (inp : Inputs) (df f : loc) : M unit :=
  (chart2 inp f ;; chart3 inp df f ;; chart5 inp f ;; chart6 inp f ;;
   chart7 inp f ;; chart8 inp f)%script.

(** The year columns a run has selected. *)
Definition selectors (inp : Inputs) : list (option string) :=
  [pop_col inp; pib_col inp; idh_col inp].

(** ** A concrete conversion, for worked examples

    Integer literals only, read as [int] reads them; any other text is
    missing.  The properties below hold for every conversion; this one is
    used to run the pipeline on small tables. *)

Definition int_parser : NumberParser :=
  λ s, match py_int s with
       | Some z => of_Z z
       | None => NaN
       end.

(** A row from its cells. *)
Definition row_of (cells : list (string * Cell)) : Row := list_to_map cells.

(** Three municipalities: population exactly 20000, population 0, and no
    population at all. *)
Definition boundary_view : DataFrame :=
  mkDF ["municipio"; "estado"; "populacao_estimada_2021"; "pib_per_capita_2021"]
       [(0%nat, row_of [("municipio", Text "A"); ("estado", Text "SP");
                        ("populacao_estimada_2021", Num (of_Z 20000));
                        ("pib_per_capita_2021", Num (of_Z 10))]);
        (1%nat, row_of [("municipio", Text "B"); ("estado", Text "SP");
                        ("populacao_estimada_2021", Num (of_Z 0));
                        ("pib_per_capita_2021", Num (of_Z 10))]);
        (2%nat, row_of [("municipio", Text "C"); ("estado", Text "RJ");
                        ("populacao_estimada_2021", Num NaN);
                        ("pib_per_capita_2021", Num (of_Z 10))])].

(** The category column of a table, with the row labels. *)
Definition porte_column (d : DataFrame) : list (nat * Cell) :=
  (λ ir : nat * Row, (ir.1, cell ir.2 "porte")) <$> rows d.

(** The scenario of the specification: two states, São Paulo and Rio de
    Janeiro, with populations 12000000 and 6000000. *)
Definition sp_row : Row :=
  row_of [("municipio", Text "São Paulo"); ("estado", Text "SP");
          ("populacao_estimada_2021", Num (of_Z 12000000));
          ("pib_per_capita_2021", Num (of_Z 60000));
          ("idh_2010", Num (Fin (Q2Qc (805 # 1000))));
          ("latitude", Num (of_Z (-23))); ("longitude", Num (of_Z (-46)))].

Definition rj_row : Row :=
  row_of [("municipio", Text "Rio de Janeiro"); ("estado", Text "RJ");
          ("populacao_estimada_2021", Num (of_Z 6000000));
          ("pib_per_capita_2021", Num (of_Z 50000));
          ("idh_2010", Num (Fin (Q2Qc (799 # 1000))));
          ("latitude", Num (of_Z (-22))); ("longitude", Num (of_Z (-43)))].

Definition two_city_columns : list string :=
  ["municipio"; "estado"; "populacao_estimada_2021"; "pib_per_capita_2021";
   "idh_2010"; "latitude"; "longitude"].

Definition two_city_view : DataFrame :=
  mkDF two_city_columns [(0%nat, sp_row); (1%nat, rj_row)].

(** A table where one state has no figures: São Paulo is complete, the
    municipality of Rio de Janeiro has coordinates but neither population
    nor HDI.  Selecting RJ alone, with the threshold at 0, gives a view of
    that one row. *)
Definition sparse_table : DataFrame :=
  mkDF two_city_columns
       [(0%nat, sp_row);
        (1%nat, row_of [("municipio", Text "Rio de Janeiro");
                        ("estado", Text "RJ");
                        ("populacao_estimada_2021", Num NaN);
                        ("pib_per_capita_2021", Num NaN);
                        ("idh_2010", Num NaN);
                        ("latitude", Num (of_Z (-22)));
                        ("longitude", Num (of_Z (-43)))])].

(** A table with the three year columns and nothing else, every selector
    set. *)
Definition bare_table : DataFrame :=
  mkDF ["populacao_estimada_2021"; "pib_per_capita_2021"; "idh_2010"]
       [(0%nat, row_of [("populacao_estimada_2021", Num (of_Z 1000));
                        ("pib_per_capita_2021", Num (of_Z 10));
                        ("idh_2010", Num (Fin (Q2Qc (7 # 10))))])].

Definition bare_inputs : Inputs :=
  mkInputs [] (Some "populacao_estimada_2021") (Some "pib_per_capita_2021")
           (Some "idh_2010") 0 15 false.

(** A table without the state column, and the default widget values on
    it. *)
Definition no_state_table : DataFrame :=
  mkDF ["municipio"; "populacao_estimada_2021"]
       [(0%nat, row_of [("municipio", Text "A");
                        ("populacao_estimada_2021", Num (of_Z 1000))])].

Definition no_state_inputs : Inputs :=
  mkInputs [] (Some "populacao_estimada_2021") None None 0 15 false.

(** Two runs on the two-city table: every selector set, an export; then a
    narrower selection. *)
Definition full_inputs : Inputs :=
  mkInputs [Text "SP"; Text "RJ"] (Some "populacao_estimada_2021")
           (Some "pib_per_capita_2021") (Some "idh_2010") 0 15 true.

Definition narrow_inputs : Inputs :=
  mkInputs [Text "SP"] (Some "populacao_estimada_2021")
           (Some "pib_per_capita_2021") (Some "idh_2010") 7000000 5 false.

Definition two_city_session : list Inputs := [full_inputs; narrow_inputs].

Section ranking_defs.
Context {parser : NumberParser}.

(** The rows [nsmallest] leaves out, in sorted order. *)
Definition nsmallest_rest (n : nat) (c : string) (d : DataFrame)
  : list (nat * Row) :=
  drop n (sort_by (λ a b : nat * Row, asc_le (num a.2 c) (num b.2 c)) (rows d)).

End ranking_defs.

(** What [[['municipio', 'estado', idh_col]]] and the tag of lines 486-490
    make of one row. *)
Definition tagged (tag ic : string) (r : Row) : Row :=
  <["categoria" := Text tag]>
    (filter (λ kv : string * Cell, kv.1 ∈ ["municipio"; "estado"; ic]) r).

(** ** The sidebar (lines 86-117) *)

(** [st.selectbox(label, options, index=len(options)-1) if options else
    None]: the option a year selector starts on (lines 99-101). *)
Definition default_col (options : list string) : option string :=
  if bool_decide (options = []) then None
  else options !! (length options - 1)%nat.

(** [s.split("_")]: the pieces between the underscores, at least one. *)
Fixpoint split_underscore (s : string) : list string :=
  match s with
  | EmptyString => [EmptyString]
  | String a s' =>
      if decide (a = underscore) then EmptyString :: split_underscore s'
      else match split_underscore s' with
           | p :: ps => String a p :: ps
           | [] => [String a EmptyString]
           end
  end.

(** [c.split("_")[-1]], the year the titles of charts 1 and 7 print
    (lines 204, 215, 222, 422, 430); [None] would be an [IndexError]. *)
Definition title_year (c : string) : option string :=
  last (split_underscore c).

(** [df[c]] as a sequence of cells. *)
Definition column (c : string) (d : DataFrame) : list Cell :=
  (λ ir : nat * Row, cell ir.2 c) <$> rows d.

(** [Series.dropna()]. *)
Definition dropna_cells (l : list Cell) : list Cell :=
  filter (λ x, isna_cell x = false) l.

(** [Series.unique()]: the distinct values, in order of first appearance. *)
Fixpoint unique_from (seen : list Cell) (l : list Cell) : list Cell :=
  match l with
  | [] => []
  | x :: l' =>
      if bool_decide (x ∈ seen) then unique_from seen l'
      else x :: unique_from (x :: seen) l'
  end.

Definition unique (l : list Cell) : list Cell := unique_from [] l.

Definition is_text (c : Cell) : bool :=
  match c with Text _ => true | Num _ => false end.

(** Python's order on two values of one type: texts by code point
    (which is the byte order of their UTF-8 encoding), numbers by value. *)
Definition cell_le (a b : Cell) : bool :=
  match a, b with
  | Text s, Text t => String.leb s t
  | Num x, Num y => fle x y
  | _, _ => false
  end.

(** [sorted(values)]: comparing a text with a number raises [TypeError],
    so a list that mixes them has no sorted form ([None]). *)
Definition py_sorted (l : list Cell) : option (list Cell) :=
  if forallb is_text l || forallb (λ c, negb (is_text c)) l
  then Some (sort_by cell_le l)
  else None.

(** Line 87. *)
Definition estados (d : DataFrame) : option (list Cell) :=
  py_sorted (unique (dropna_cells (column "estado" d))).

(** Line 91: the states selected when the page opens. *)
Definition default_states (options : list Cell) : list Cell :=
  if (5 <? length options)%nat then take 5 options else options.

(** What the computation of the slider bound can raise. *)
Inductive SidebarExn : Type :=
  | EmptyReduction   (* ValueError: [np.nanmax] of an empty array *)
  | IntOfInfinity    (* OverflowError: [int] of an infinity *)
  | IntOfNaN.        (* ValueError: [int] of NaN *)

(** Truncation towards zero. *)
Definition trunc (q : Qc) : Z := Z.quot (Qnum q) (Zpos (Qden q)).

(** [int(x)] on a float. *)
Definition int_of_float (x : float) : SidebarExn + Z :=
  match x with
  | Fin q => inr (trunc q)
  | NaN => inl IntOfNaN
  | PInf | NInf => inl IntOfInfinity
  end.

(** [np.nanmax(a)]. *)
Definition nanmax (l : list float) : SidebarExn + float :=
  match l with
  | [] => inl EmptyReduction
  | _ => inr (series_max l)
  end.

Section sidebar.
Context {parser : NumberParser}.

(** Lines 105-106: [int(np.nanmax(pd.to_numeric(df[c],
    errors="coerce").fillna(0)))], the upper end of the slider. *)
Definition max_pop (c : string) (d : DataFrame) : SidebarExn + Z :=
  match nanmax ((λ ir : nat * Row, pop0 c ir.2) <$> rows d) with
  | inr m => int_of_float m
  | inl e => inl e
  end.

End sidebar.

(** ** How a run can end

    [wpx m Q E σ]: from the state [σ] the computation [m] ends in a result
    and a state that satisfy [Q], or in an exception that satisfies [E]. *)
Definition wpx {A} (m : M A) (Q : A → State → Prop) (E : Exn → Prop)
    (σ : State) : Prop :=
  match m σ with
  | (Ok a, σ') => Q a σ'
  | (Raise e, _) => E e
  end.

(** The exception of a section that reads or names the state or the
    municipality column of a table that lacks it. *)
Definition label_column_missing (cols : list string) (e : Exn) : Prop :=
  (("estado" ∉ cols) ∧ (e = KeyError "estado" ∨ e = ValueError "estado"))
  ∨ (("municipio" ∉ cols) ∧ e = ValueError "municipio").

(** ** Aggregation: totals and group-by (lines 131, 230, 262, 337, 415,
    569-570) *)

(** IEEE addition. *)
Definition fadd (x y : float) : float :=
  match x, y with
  | NaN, _ | _, NaN => NaN
  | Fin a, Fin b => Fin (a + b)%Qc
  | PInf, NInf | NInf, PInf => NaN
  | PInf, _ | _, PInf => PInf
  | NInf, _ | _, NInf => NInf
  end.

Definition fsum (l : list float) : float := foldr fadd (of_Z 0) l.

(** The values that are not missing. *)
Definition notna (l : list float) : list float :=
  filter (λ x, isna x = false) l.

(** [Series.sum()]: missing values are skipped, the sum of no value is 0.
    The sum is exact here; the program's is a 64-bit sum, which is the
    same number when the values are whole and add up to at most 2^53. *)
Definition nansum (l : list float) : float := fsum (notna l).

(** [Series.mean()]: the mean of the values that are not missing, NaN when
    there is none.  The sum and the quotient are exact here, where the
    program rounds them: a rounded mean need not lie between the values,
    and the properties of means are those that rounding keeps. *)
Definition nanmean (l : list float) : float :=
  match notna l with
  | [] => NaN
  | vs => fdiv (fsum vs) (of_Z (Z.of_nat (length vs)))
  end.

(** The sum of a list of rationals. *)
Definition Qcsum (qs : list Qc) : Qc := foldr Qcplus (Qc_of_Z 0) qs.

(** The order pandas gives the group keys: numbers before texts, numbers
    by value, texts by code point. *)
Definition key_le (a b : Cell) : bool :=
  match a, b with
  | Num x, Num y => fle x y
  | Num _, Text _ => true
  | Text _, Num _ => false
  | Text s, Text t => String.leb s t
  end.

(** The keys of [df.groupby(k)]: the distinct cells of the column that
    are not missing, sorted. *)
Definition group_keys (k : string) (d : DataFrame) : list Cell :=
  sort_by key_le (unique (dropna_cells (column k d))).

Section aggregation.
Context {parser : NumberParser}.

(** The values of column [c] in the rows of the group [key]. *)
Definition group_values (k c : string) (d : DataFrame) (key : Cell)
  : list float :=
  (λ ir : nat * Row, num ir.2 c)
    <$> filter (λ ir : nat * Row, cell ir.2 k = key) (rows d).

(** [df.groupby(k)[c].sum()] and [df.groupby(k)[c].mean()]: a series with
    one value per key.  The script groups columns it has made numeric
    (lines 124, 336, 411). *)
Definition groupby_sum (k c : string) (d : DataFrame) : list (Cell * float) :=
  (λ key, (key, nansum (group_values k c d key))) <$> group_keys k d.

Definition groupby_mean (k c : string) (d : DataFrame) : list (Cell * float) :=
  (λ key, (key, nanmean (group_values k c d key))) <$> group_keys k d.

(** Line 131: [int(df_filtered[c].sum(min_count=1) if
    df_filtered[c].notna().any() else 0)]; the sum is exact, as in
    [nansum]. *)
Definition total_pop (c : string) (view : DataFrame) : SidebarExn + Z :=
  let col := (λ ir : nat * Row, num ir.2 c) <$> rows view in
  int_of_float
    (if bool_decide (notna col = []) then of_Z 0 else nansum col).

(** Chart 3, lines 260-262: the biome column filled, then the population
    summed by biome. *)
Definition df_bioma_grouped (bioma_col pop_col : string) (view : DataFrame)
  : list (Cell * float) :=
  groupby_sum bioma_col pop_col (assign bioma_col (fill_text bioma_col) view).

(** Lines 569-570: the centre of the 3D view. *)
Definition view_centre (d : DataFrame) : float * float :=
  (nanmean ((λ ir : nat * Row, num ir.2 "latitude") <$> rows d),
   nanmean ((λ ir : nat * Row, num ir.2 "longitude") <$> rows d)).

End aggregation.

(** ** More example tables *)

(** The second row of the sparse table: Rio de Janeiro, with coordinates
    and no figures. *)
Definition rj_bare_row : Row :=
  row_of [("municipio", Text "Rio de Janeiro"); ("estado", Text "RJ");
          ("populacao_estimada_2021", Num NaN);
          ("pib_per_capita_2021", Num NaN); ("idh_2010", Num NaN);
          ("latitude", Num (of_Z (-22))); ("longitude", Num (of_Z (-43)))].

(** A table whose largest population belongs to a row without a state. *)
Definition stateless_table : DataFrame :=
  mkDF ["municipio"; "estado"; "populacao_estimada_2021"]
       [(0%nat, row_of [("municipio", Text "A"); ("estado", Text "SP");
                        ("populacao_estimada_2021", Num (of_Z 100))]);
        (1%nat, row_of [("municipio", Text "B"); ("estado", Num NaN);
                        ("populacao_estimada_2021", Num (of_Z 500))])].

(** The columns of a table with two census years, out of year order, and
    a population column whose suffix is not a year. *)
Definition census_columns : list string :=
  ["municipio"; "populacao_estimada_2021"; "idh_2010";
   "populacao_estimada_x"; "populacao_estimada_2010"; "pib_per_capita_2021";
   "idh_2000"; "bioma_2019"; "pib_per_capita_2010"].

(** Twenty municipalities of one state, with HDI 0.50, 0.51, ... 0.69. *)
Definition twenty_rows : DataFrame :=
  mkDF ["municipio"; "estado"; "idh_2010"]
       ((λ i : nat,
           (i, row_of [("municipio", Text "M"); ("estado", Text "SP");
                       ("idh_2010",
                        Num (Fin (Q2Qc (Z.of_nat (50 + i) # 100))))]))
          <$> seq 0 20).

(** Two municipalities with the same HDI. *)
Definition level_view : DataFrame :=
  mkDF ["municipio"; "estado"; "idh_2010"]
       [(0%nat, row_of [("municipio", Text "A"); ("estado", Text "SP");
                        ("idh_2010", Num (Fin (Q2Qc (7 # 10))))]);
        (1%nat, row_of [("municipio", Text "B"); ("estado", Text "RJ");
                        ("idh_2010", Num (Fin (Q2Qc (7 # 10))))])].

(** Three municipalities, one of them without a biome. *)
Definition biome_table : DataFrame :=
  mkDF ["municipio"; "estado"; "populacao_estimada_2021"; "bioma_2019"]
       [(0%nat, row_of [("municipio", Text "A"); ("estado", Text "AM");
                        ("populacao_estimada_2021", Num (of_Z 300));
                        ("bioma_2019", Text "Amazônia")]);
        (1%nat, row_of [("municipio", Text "B"); ("estado", Text "GO");
                        ("populacao_estimada_2021", Num (of_Z 200));
                        ("bioma_2019", Num NaN)]);
        (2%nat, row_of [("municipio", Text "C"); ("estado", Text "AM");
                        ("populacao_estimada_2021", Num (of_Z 100));
                        ("bioma_2019", Text "Amazônia")])].

(** * Properties *)

(** ** Stable sorting *)

Section stable_sort_facts.
Context {A : Type} (le : A → A → bool).

Lemma insert_by_perm x l : insert_by le x l ≡ₚ x :: l.
Proof.
  induction l as [|y l IH]; simpl; [done|].
  destruct (le x y); [done|].
  rewrite IH. apply perm_swap.
Qed.

Lemma sort_by_perm l : sort_by le l ≡ₚ l.
Proof.
  induction l as [|x l IH]; simpl; [done|].
  rewrite insert_by_perm. by rewrite IH.
Qed.

Lemma sort_by_length l : length (sort_by le l) = length l.
Proof. by rewrite sort_by_perm. Qed.

Hypothesis le_total : ∀ a b, le a b = true ∨ le b a = true.
Hypothesis le_trans : ∀ a b c, le a b = true → le b c = true → le a c = true.

Let R (a b : A) : Prop := le a b = true.

Lemma insert_by_sorted x l :
  StronglySorted R l → StronglySorted R (insert_by le x l).
Proof.
  induction 1 as [|y l Hl IH Hy]; simpl.
  - repeat constructor.
  - destruct (le x y) eqn:Hxy.
    + constructor; [by constructor|].
      constructor; [done|].
      eapply Forall_impl; [exact Hy|].
      intros z Hz. by eapply le_trans.
    + constructor; [done|].
      rewrite insert_by_perm. constructor; [|done].
      destruct (le_total x y); [congruence|done].
Qed.

Lemma sort_by_sorted l : StronglySorted R (sort_by le l).
Proof.
  induction l as [|x l IH]; simpl; [constructor|].
  by apply insert_by_sorted.
Qed.
End stable_sort_facts.


Lemma StronglySorted_take {A} (R : A → A → Prop) n l :
  StronglySorted R l → StronglySorted R (take n l).
Proof.
  intros H. revert n. induction H as [|x l Hl IH Hx]; intros [|n]; simpl;
    try constructor; [apply IH|].
  rewrite Forall_forall in Hx |- *. intros y Hy.
  apply Hx. by eapply subseteq_take.
Qed.


(** ** Rows and labels *)

Lemma elem_of_index d i : i ∈ index d ↔ ∃ r, (i, r) ∈ rows d.
Proof.
  unfold index. rewrite list_elem_of_fmap. split.
  - intros [[j r] [-> H]]. by exists r.
  - intros [r H]. by exists (i, r).
Qed.

Lemma index_unique d i r1 r2 :
  NoDup (index d) → (i, r1) ∈ rows d → (i, r2) ∈ rows d → r1 = r2.
Proof.
  unfold index. induction (rows d) as [|[j r] l IH]; simpl.
  - by intros _ ?%elem_of_nil.
  - rewrite NoDup_cons, !elem_of_cons. intros [Hj Hl] [H1|H1] [H2|H2].
    + congruence.
    + injection H1 as -> ->. destruct Hj.
      apply list_elem_of_fmap. by exists (j, r2).
    + injection H2 as -> ->. destruct Hj.
      apply list_elem_of_fmap. by exists (j, r1).
    + by apply IH.
Qed.

Lemma elem_of_rows_select p d i r :
  (i, r) ∈ rows (select p d) ↔ (i, r) ∈ rows d ∧ p r = true.
Proof. unfold select; simpl. rewrite list_elem_of_filter. naive_solver. Qed.

Lemma elem_of_rows_assign c f d i r' :
  (i, r') ∈ rows (assign c f d) ↔ ∃ r, (i, r) ∈ rows d ∧ r' = <[c := f r]> r.
Proof.
  unfold assign; simpl. rewrite list_elem_of_fmap. split.
  - intros [[j r] [[= -> ->] H]]. by exists r.
  - intros [r [H ->]]. by exists (i, r).
Qed.

Lemma index_assign c f d : index (assign c f d) = index d.
Proof.
  unfold index, assign; simpl. rewrite <-list_fmap_compose.
  by apply list_fmap_ext.
Qed.

Lemma len_assign c f d : len (assign c f d) = len d.
Proof. unfold len, assign; simpl. by rewrite length_fmap. Qed.

Lemma columns_select p d : columns (select p d) = columns d.
Proof. done. Qed.

Lemma columns_assign_present c f d :
  c ∈ columns d → columns (assign c f d) = columns d.
Proof. intros H. unfold assign, has_col; simpl. by rewrite bool_decide_eq_true_2. Qed.

Lemma elem_of_columns_assign c f d x :
  x ∈ columns d → x ∈ columns (assign c f d).
Proof.
  intros Hx. unfold assign; simpl. case_match; [done|].
  apply elem_of_app. by left.
Qed.

Lemma cell_insert_eq c v (r : Row) : cell (<[c := v]> r) c = v.
Proof. unfold cell. by rewrite lookup_insert_eq. Qed.

Lemma cell_insert_ne c c' v (r : Row) : c ≠ c' → cell (<[c := v]> r) c' = cell r c'.
Proof. intros H. unfold cell. by rewrite lookup_insert_ne. Qed.

(** ** Column discovery *)




Lemma elem_of_available_year_cols cols prefix c :
  c ∈ available_year_cols cols prefix
  ↔ c ∈ cols ∧ startswith c (prefix +:+ "_") = true.
Proof.
  unfold available_year_cols. rewrite sort_by_perm, list_elem_of_filter.
  naive_solver.
Qed.

(** A suffix that [int] rejects counts as year 0; the column is kept. *)
Lemma year_of_unparsed c : py_int (rsplit_last c) = None → year_of c = 0.
Proof. unfold year_of. by intros ->. Qed.



Lemma pop_cols_spec cols c :
  c ∈ pop_cols cols → c ∈ cols ∧ c ≠ "estado" ∧ c ≠ "".
Proof.
  unfold pop_cols. rewrite elem_of_available_year_cols. intros [Hc Hp].
  split; [done|]. split; intros ->; discriminate Hp.
Qed.

(** ** Numbers *)

Lemma fle_of_Z a b : fle (of_Z a) (of_Z b) = true ↔ a ≤ b.
Proof. unfold fle, of_Z. by rewrite bool_decide_eq_true, <-Z2Qc_inj_le. Qed.

Lemma flt_of_Z a b : flt (of_Z a) (of_Z b) = true ↔ a < b.
Proof. unfold flt, of_Z. by rewrite bool_decide_eq_true, <-Z2Qc_inj_lt. Qed.

Lemma fillna_not_nan v x : v ≠ NaN → fillna v x ≠ NaN.
Proof. by destruct x. Qed.

(** ** Filter stage *)

Section filter_facts.
Context {parser : NumberParser}.

Lemma num_insert_eq c x (r : Row) : num (<[c := Num x]> r) c = x.
Proof. unfold num. by rewrite cell_insert_eq. Qed.

Lemma num_insert_ne c c' v (r : Row) : c ≠ c' → num (<[c := v]> r) c' = num r c'.
Proof. intros H. unfold num. by rewrite cell_insert_ne. Qed.

Lemma pop0_coerced c (r : Row) : pop0 c (<[c := Num (num r c)]> r) = pop0 c r.
Proof. unfold pop0. by rewrite num_insert_eq. Qed.

Lemma state_filter_empty d : state_filter [] d = d.
Proof. done. Qed.

Lemma columns_state_filter S d : columns (state_filter S d) = columns d.
Proof. unfold state_filter. by case_match. Qed.

Lemma elem_of_rows_state_filter S d i r :
  (i, r) ∈ rows (state_filter S d)
  ↔ (i, r) ∈ rows d ∧ (S = [] ∨ "estado" ∉ columns d ∨ cell r "estado" ∈ S).
Proof.
  unfold state_filter, has_col, isin.
  destruct (decide (S = [])) as [->|HS]; simpl; [naive_solver|].
  rewrite (bool_decide_eq_false_2 _ HS); simpl.
  case_bool_decide as Hc; simpl.
  - rewrite list_elem_of_filter, bool_decide_eq_true. naive_solver.
  - naive_solver.
Qed.

Lemma pop_filter_none t d : pop_filter None t d = d.
Proof. done. Qed.

Lemma elem_of_rows_pop_filter c t d i r' :
  c ≠ "" →
  (i, r') ∈ rows (pop_filter (Some c) t d)
  ↔ ∃ r, (i, r) ∈ rows d ∧ r' = <[c := Num (num r c)]> r
         ∧ fge (pop0 c r) (of_Z t) = true.
Proof.
  intros Hc. unfold pop_filter, truthy.
  rewrite (bool_decide_eq_false_2 _ Hc); cbn [negb].
  rewrite elem_of_rows_select. unfold coerce.
  rewrite elem_of_rows_assign. split.
  - intros [[r [Hr ->]] Hp]. exists r. by rewrite pop0_coerced in Hp.
  - intros [r [Hr [-> Hp]]]. rewrite pop0_coerced. eauto.
Qed.

Lemma columns_df_filtered S pc t df :
  (∀ c, pc = Some c → c ∈ columns df) →
  columns (df_filtered S pc t df) = columns df.
Proof.
  intros Hpc. unfold df_filtered, pop_filter.
  destruct pc as [c|]; [|apply columns_state_filter].
  case_match; [|apply columns_state_filter].
  rewrite columns_select. unfold coerce.
  rewrite columns_assign_present; rewrite columns_state_filter; auto.
Qed.

(** C1.  With a population column [c] selected, a row of the loaded table
    whose population reads as a number is in the filtered view exactly when
    it passes the state filter and that number is at least the threshold
    [t]; a row whose population is missing or does not parse is compared as
    0: it is in the view exactly when it passes the state filter and
    [t ≤ 0], so it is out as soon as [t > 0]. *)
Theorem population_filter_iff
    (S : list Cell) (c : string) (t : Z) (df : DataFrame) (i : nat) (r : Row) :
  c ∈ pop_cols (columns df) →
  NoDup (index df) →
  (i, r) ∈ rows df →
  (num r c ≠ NaN →
     (i ∈ index (df_filtered S (Some c) t df)
        ↔ i ∈ index (state_filter S df) ∧ fle (of_Z t) (num r c) = true))
  ∧ (num r c = NaN →
     (i ∈ index (df_filtered S (Some c) t df)
        ↔ i ∈ index (state_filter S df) ∧ t ≤ 0)
     ∧ (0 < t → i ∉ index (df_filtered S (Some c) t df))).
Proof.
  intros Hc Hnd Hr.
  destruct (pop_cols_spec _ _ Hc) as (_ & _ & Hne).
  assert (Hiff : i ∈ index (df_filtered S (Some c) t df)
     ↔ i ∈ index (state_filter S df) ∧ fge (pop0 c r) (of_Z t) = true).
  { rewrite !elem_of_index. unfold df_filtered. split.
    - intros [r' Hr']. apply elem_of_rows_pop_filter in Hr'; [|done].
      destruct Hr' as (r0 & Hr0 & -> & Hp).
      assert (r0 = r) as ->.
      { apply elem_of_rows_state_filter in Hr0 as [Hr0 _].
        by eapply index_unique. }
      eauto.
    - intros [[r0 Hr0] Hp].
      assert (r0 = r) as ->.
      { pose proof Hr0 as Hr0'.
        apply elem_of_rows_state_filter in Hr0' as [Hr0' _].
        by eapply index_unique. }
      exists (<[c := Num (num r c)]> r).
      apply elem_of_rows_pop_filter; [done|]. eauto. }
  split.
  - intros Hnum. rewrite Hiff. unfold fge, pop0.
    by destruct (num r c).
  - intros Hnan.
    assert (Hzero : fge (pop0 c r) (of_Z t) = true ↔ t ≤ 0).
    { unfold fge, pop0. rewrite Hnan. simpl fillna. apply fle_of_Z. }
    split.
    + by rewrite Hiff, Hzero.
    + intros Ht. rewrite Hiff, Hzero. lia.
Qed.

(** C4.  With no state selected the state filter returns its table
    unchanged; with a non-empty selection [S] on a table that has the
    state column, every row of the filtered view carries, in that column,
    a cell that is an element of [S]: the raw cell, compared by equality. *)
Theorem state_filter_membership
    (S : list Cell) (pc : option string) (t : Z) (df : DataFrame) :
  (∀ c, pc = Some c → c ∈ pop_cols (columns df)) →
  state_filter [] df = df
  ∧ (S ≠ [] → "estado" ∈ columns df →
     ∀ i r, (i, r) ∈ rows (df_filtered S pc t df) → cell r "estado" ∈ S).
Proof.
  intros Hpc. split; [done|]. intros HS He i r Hr.
  assert (Hst : ∀ r0, (i, r0) ∈ rows (state_filter S df) → cell r0 "estado" ∈ S).
  { intros r0 [_ H]%elem_of_rows_state_filter. by destruct H as [?|[?|?]]. }
  unfold df_filtered in Hr. destruct pc as [c|]; [|by apply Hst].
  destruct (pop_cols_spec _ _ (Hpc c eq_refl)) as (_ & Hce & Hne).
  apply elem_of_rows_pop_filter in Hr; [|done].
  destruct Hr as (r0 & Hr0 & -> & _).
  rewrite cell_insert_ne by done. by apply Hst.
Qed.

Lemma index_select_sublist p d : index (select p d) `sublist_of` index d.
Proof. unfold index, select; simpl. apply fmap_sublist, sublist_filter. Qed.

Lemma index_state_filter_sublist S d :
  index (state_filter S d) `sublist_of` index d.
Proof. unfold state_filter. case_match; [apply index_select_sublist|done]. Qed.

(** The filtered view, which is the table the export writes, has the
    columns of the loaded table, same names in the same order, and its rows
    are rows of the loaded table, in their order. *)
Theorem filtered_view_keeps_columns
    (S : list Cell) (pc : option string) (t : Z) (df : DataFrame) :
  (∀ c, pc = Some c → c ∈ pop_cols (columns df)) →
  columns (df_filtered S pc t df) = columns df
  ∧ index (df_filtered S pc t df) `sublist_of` index df.
Proof.
  intros Hpc. split.
  - apply columns_df_filtered. intros c Hc. by apply pop_cols_spec, Hpc.
  - unfold df_filtered, pop_filter. destruct pc as [c|];
      [|apply index_state_filter_sublist].
    case_match; [|apply index_state_filter_sublist].
    etrans; [apply index_select_sublist|].
    unfold coerce. rewrite index_assign. apply index_state_filter_sublist.
Qed.

End filter_facts.

(** ** Order on numbers *)

Lemma fle_trans x y z : fle x y = true → fle y z = true → fle x z = true.
Proof.
  destruct x, y, z; simpl; try done.
  rewrite !bool_decide_eq_true. apply Qcle_trans.
Qed.

Lemma fle_total x y : x ≠ NaN → y ≠ NaN → fle x y = true ∨ fle y x = true.
Proof.
  destruct x as [| |a|], y as [| |b|]; simpl; try done; try by auto.
  intros _ _. rewrite !bool_decide_eq_true.
  destruct (Qclt_le_dec a b); auto using Qclt_le_weak.
Qed.

Lemma fle_refl x : x ≠ NaN → fle x x = true.
Proof. intros Hx. by destruct (fle_total x x Hx Hx). Qed.

Lemma desc_le_total x y : desc_le x y = true ∨ desc_le y x = true.
Proof.
  destruct x as [| |a|], y as [| |b|]; simpl; auto.
  rewrite !bool_decide_eq_true.
  destruct (Qclt_le_dec a b); auto using Qclt_le_weak.
Qed.

Lemma desc_le_trans x y z :
  desc_le x y = true → desc_le y z = true → desc_le x z = true.
Proof.
  destruct x, y, z; simpl; try done.
  rewrite !bool_decide_eq_true. eauto using Qcle_trans.
Qed.

Lemma asc_le_total x y : asc_le x y = true ∨ asc_le y x = true.
Proof.
  destruct x as [| |a|], y as [| |b|]; simpl; auto.
  rewrite !bool_decide_eq_true.
  destruct (Qclt_le_dec a b); auto using Qclt_le_weak.
Qed.

Lemma asc_le_trans x y z :
  asc_le x y = true → asc_le y z = true → asc_le x z = true.
Proof.
  destruct x, y, z; simpl; try done.
  rewrite !bool_decide_eq_true. eauto using Qcle_trans.
Qed.

Lemma desc_le_fle x y : x ≠ NaN → y ≠ NaN → desc_le x y = fle y x.
Proof. by destruct x, y. Qed.

Lemma asc_le_fle x y : x ≠ NaN → y ≠ NaN → asc_le x y = fle x y.
Proof. by destruct x, y. Qed.

(** ** Sorted lists *)

Lemma StronglySorted_mono_in {A} (P : A → Prop) (R1 R2 : A → A → Prop) l :
  (∀ a b, P a → P b → R1 a b → R2 a b) →
  Forall P l → StronglySorted R1 l → StronglySorted R2 l.
Proof.
  intros HR HP. induction 1 as [|x l Hl IH Hx]; constructor.
  - apply IH. by eapply Forall_inv_tail.
  - apply Forall_cons in HP as [Px Pl].
    rewrite Forall_forall in Hx, Pl |- *. eauto.
Qed.

Lemma StronglySorted_app_between {A} (R : A → A → Prop) l1 l2 a b :
  StronglySorted R (l1 ++ l2) → a ∈ l1 → b ∈ l2 → R a b.
Proof.
  induction l1 as [|x l1 IH]; simpl; [by intros _ ?%elem_of_nil|].
  intros Hs [->|Ha]%elem_of_cons Hb.
  - apply StronglySorted_inv in Hs as [_ Hx].
    rewrite Forall_forall in Hx. apply Hx, elem_of_app. by right.
  - apply StronglySorted_inv in Hs as [Hs _]. by apply IH.
Qed.

(** ** Top-N *)

Section top_n_facts.
Context {parser : NumberParser}.

Lemma elem_of_rows_coerce_fill c d i r' :
  (i, r') ∈ rows (coerce_fill c d)
  ↔ ∃ r, (i, r) ∈ rows d ∧ r' = <[c := Num (pop0 c r)]> r.
Proof. unfold coerce_fill. by rewrite elem_of_rows_assign. Qed.

Lemma coerce_fill_not_nan c d :
  Forall (λ ir : nat * Row, num ir.2 c ≠ NaN) (rows (coerce_fill c d)).
Proof.
  rewrite Forall_forall. intros [i r'] (r & _ & ->)%elem_of_rows_coerce_fill.
  simpl. rewrite num_insert_eq. by apply fillna_not_nan.
Qed.

Lemma nlargest_rows n c d :
  rows (nlargest n c d)
  = take n (sort_by (λ a b : nat * Row, desc_le (num a.2 c) (num b.2 c)) (rows d)).
Proof. done. Qed.

Lemma nlargest_len n c d : len (nlargest n c d) = Nat.min n (len d).
Proof. unfold len. by rewrite nlargest_rows, length_take, sort_by_length. Qed.

Lemma nlargest_sorted n c d :
  StronglySorted (λ a b : nat * Row, desc_le (num a.2 c) (num b.2 c) = true)
                 (rows (nlargest n c d)).
Proof.
  rewrite nlargest_rows. apply StronglySorted_take.
  apply (sort_by_sorted (λ a b : nat * Row, desc_le (num a.2 c) (num b.2 c))).
  - intros a b. apply desc_le_total.
  - intros a b e. apply desc_le_trans.
Qed.

Lemma nlargest_split n c d :
  rows (nlargest n c d) ++ nlargest_rest n c d ≡ₚ rows d.
Proof.
  rewrite nlargest_rows. unfold nlargest_rest.
  by rewrite take_drop, sort_by_perm.
Qed.

Lemma nlargest_dominates n c d a b :
  a ∈ rows (nlargest n c d) → b ∈ nlargest_rest n c d →
  desc_le (num a.2 c) (num b.2 c) = true.
Proof.
  intros Ha Hb.
  eapply (StronglySorted_app_between
            (λ a b : nat * Row, desc_le (num a.2 c) (num b.2 c) = true)); [|done..].
  rewrite nlargest_rows. unfold nlargest_rest. rewrite take_drop.
  apply (sort_by_sorted (λ a b : nat * Row, desc_le (num a.2 c) (num b.2 c))).
  - intros x y. apply desc_le_total.
  - intros x y z. apply desc_le_trans.
Qed.

(** C5.  The Top-N table of chart 1 has [min N (rows of the view)] rows;
    they are rows of the view (population coerced, missing read as 0), in
    descending order of the population, and every row left out has a
    population no larger than any row kept. *)
Theorem top_n_selection (c : string) (n : nat) (view : DataFrame) :
  len (df_top c n view) = Nat.min n (len view)
  ∧ StronglySorted (λ a b : nat * Row, fle (num b.2 c) (num a.2 c) = true)
                   (rows (df_top c n view))
  ∧ (∀ i r', (i, r') ∈ rows (df_top c n view) →
       ∃ r, (i, r) ∈ rows view ∧ r' = <[c := Num (pop0 c r)]> r)
  ∧ ∃ rest,
      rows (df_top c n view) ++ rest ≡ₚ rows (coerce_fill c view)
      ∧ ∀ a b, a ∈ rows (df_top c n view) → b ∈ rest →
               fle (num b.2 c) (num a.2 c) = true.
Proof.
  unfold df_top.
  pose proof (coerce_fill_not_nan c view) as Hnn.
  pose proof (nlargest_split n c (coerce_fill c view)) as Hsplit.
  assert (Hall : ∀ x, x ∈ rows (nlargest n c (coerce_fill c view))
                      ∨ x ∈ nlargest_rest n c (coerce_fill c view) →
                      num x.2 c ≠ NaN).
  { intros x Hx. rewrite Forall_forall in Hnn. apply Hnn.
    rewrite <-Hsplit. by apply elem_of_app. }
  split; [|split; [|split]].
  - rewrite nlargest_len. unfold coerce_fill. by rewrite len_assign.
  - eapply (StronglySorted_mono_in
              (λ x : nat * Row, num x.2 c ≠ NaN)
              (λ a b : nat * Row, desc_le (num a.2 c) (num b.2 c) = true));
      [| |apply nlargest_sorted].
    + intros a b Ha Hb. by rewrite desc_le_fle.
    + rewrite Forall_forall. auto.
  - intros i r' Hr'. apply elem_of_rows_coerce_fill.
    rewrite <-Hsplit. apply elem_of_app. by left.
  - exists (nlargest_rest n c (coerce_fill c view)). split; [done|].
    intros a b Ha Hb. rewrite <-desc_le_fle by auto.
    by eapply nlargest_dominates.
Qed.

End top_n_facts.

(** ** Size category *)

Lemma porte_cases (x : float) :
  porte x =
    if flt (of_Z 0) x && fle x (of_Z 20000) then Some Pequeno
    else if flt (of_Z 20000) x && fle x (of_Z 100000) then Some Medio
    else if flt (of_Z 100000) x && fle x (of_Z 500000) then Some Grande
    else if flt (of_Z 500000) x && fle x PInf then Some Metropole
    else None.
Proof. done. Qed.

Ltac qc_order :=
  unfold Qclt, Qcle in *; simpl in *; unfold inject_Z in *; lra.

Lemma porte_intervals (x : float) :
  (porte x = Some Pequeno
     ↔ flt (of_Z 0) x = true ∧ fle x (of_Z 20000) = true)
  ∧ (porte x = Some Medio
     ↔ flt (of_Z 20000) x = true ∧ fle x (of_Z 100000) = true)
  ∧ (porte x = Some Grande
     ↔ flt (of_Z 100000) x = true ∧ fle x (of_Z 500000) = true)
  ∧ (porte x = Some Metropole ↔ flt (of_Z 500000) x = true)
  ∧ (porte x = None ↔ x = NaN ∨ fle x (of_Z 0) = true).
Proof.
  rewrite porte_cases.
  destruct x as [| |q|]; [by intuition auto ..| |by intuition auto].
  unfold flt, fle, of_Z.
  repeat case_bool_decide; simpl;
    rewrite ?bool_decide_eq_true;
    repeat split; try done; try (intros [? ?]); try (intros [?|?]);
    try done; try (exfalso; qc_order); try (right; qc_order).
Qed.

(** On whole numbers the bins are (0, 20000], (20000, 100000],
    (100000, 500000] and (500000, inf). *)
Lemma porte_of_Z (z : Z) :
  (porte (of_Z z) = Some Pequeno ↔ 0 < z ≤ 20000)
  ∧ (porte (of_Z z) = Some Medio ↔ 20000 < z ≤ 100000)
  ∧ (porte (of_Z z) = Some Grande ↔ 100000 < z ≤ 500000)
  ∧ (porte (of_Z z) = Some Metropole ↔ 500000 < z)
  ∧ (porte (of_Z z) = None ↔ z ≤ 0).
Proof.
  destruct (porte_intervals (of_Z z)) as (H1 & H2 & H3 & H4 & H5).
  rewrite H1, H2, H3, H4, H5, !flt_of_Z, !fle_of_Z.
  repeat split; try tauto. by intros [?|?].
Qed.

Section size_facts.
Context {parser : NumberParser}.

Lemma num_coerced c c' (r : Row) : num (<[c := Num (num r c)]> r) c' = num r c'.
Proof.
  destruct (decide (c = c')) as [->|Hne].
  - apply num_insert_eq.
  - by apply num_insert_ne.
Qed.

Lemma elem_of_rows_coerce c d i r' :
  (i, r') ∈ rows (coerce c d)
  ↔ ∃ r, (i, r) ∈ rows d ∧ r' = <[c := Num (num r c)]> r.
Proof. unfold coerce. by rewrite elem_of_rows_assign. Qed.

Lemma elem_of_rows_dropna cols d i r :
  (i, r) ∈ rows (dropna cols d)
  ↔ (i, r) ∈ rows d ∧ ∀ c, c ∈ cols → cell r c ≠ Num NaN.
Proof.
  unfold dropna. rewrite elem_of_rows_select, forallb_forall.
  split; intros [Hr Hc]; (split; [done|]).
  - intros c Hin Hnan. apply list_elem_of_In, Hc in Hin.
    by rewrite Hnan in Hin.
  - intros c Hin%list_elem_of_In. apply Hc in Hin.
    destruct (cell r c) as [[]|]; done.
Qed.

(** What the binning of charts 4, 6 and 8 does.  A row of the view is
    binned only when its population is present, and its category is the
    [pd.cut] label of the coerced population; the bins are closed on the
    right: (0, 20000], (20000, 100000], (100000, 500000], (500000, inf],
    so a boundary value falls into the lower bin and a value of 0 or below
    has no category. *)
Theorem size_category_binning
    (labels : Porte → string) (first second pc : string) (view : DataFrame) :
  pc ∈ [first; second] →
  (∀ i r', (i, r') ∈ rows (with_porte labels first second pc view) →
     ∃ r, (i, r) ∈ rows view ∧ num r pc ≠ NaN
          ∧ cell r' "porte" = porte_cell labels (num r pc))
  ∧ ∀ x,
      (porte x = Some Pequeno
         ↔ flt (of_Z 0) x = true ∧ fle x (of_Z 20000) = true)
      ∧ (porte x = Some Medio
         ↔ flt (of_Z 20000) x = true ∧ fle x (of_Z 100000) = true)
      ∧ (porte x = Some Grande
         ↔ flt (of_Z 100000) x = true ∧ fle x (of_Z 500000) = true)
      ∧ (porte x = Some Metropole ↔ flt (of_Z 500000) x = true)
      ∧ (porte x = None ↔ x = NaN ∨ fle x (of_Z 0) = true).
Proof.
  intros Hpc. split; [|apply porte_intervals].
  intros i r' Hr'. unfold with_porte in Hr'.
  apply elem_of_rows_assign in Hr' as (r2 & Hr2 & ->).
  apply elem_of_rows_dropna in Hr2 as [Hr2 Hna].
  apply elem_of_rows_coerce in Hr2 as (r1 & Hr1 & ->).
  apply elem_of_rows_coerce in Hr1 as (r & Hr & ->).
  exists r. split; [done|].
  rewrite cell_insert_eq, !num_coerced. split; [|done].
  intros Hnan. apply (Hna pc Hpc).
  set (r1 := <[first := Num (num r first)]> r).
  assert (Hc : ∀ r0 : Row, num r0 pc = NaN →
                 cell (<[pc := Num (num r0 pc)]> r0) pc = Num NaN).
  { intros r0 H0. by rewrite cell_insert_eq, H0. }
  apply elem_of_cons in Hpc as [->|Hpc].
  - destruct (decide (second = first)) as [->|Hne].
    + apply Hc. unfold r1. by rewrite num_coerced.
    + rewrite cell_insert_ne by done. unfold r1. by apply Hc.
  - apply list_elem_of_singleton in Hpc as ->.
    apply Hc. unfold r1. by rewrite num_coerced.
Qed.

End size_facts.

(** C2: the bins contradict the labels the code gives them.  Chart 6
    names the categories [Pequeno (<20k)], [Médio (20-100k)],
    [Grande (100-500k)] and [Metrópole (>500k)], the half-open reading of
    the specification; [pd.cut] is called with its defaults, which close each bin
    on the right and leave the lowest edge out.  On the table of the
    boundary cases the municipality with exactly 20000 inhabitants is
    drawn under [Pequeno (<20k)], not under [Médio (20-100k)], though
    20000 is not below 20000; and the municipality with 0 inhabitants,
    which is, has no category at all.  The third municipality, whose
    population is missing, is in the filtered view but is dropped before
    the binning. *)
Lemma size_labels_contradict_bins :
  index (@df_filtered int_parser [] (Some "populacao_estimada_2021") 0
           boundary_view) = [0%nat; 1%nat; 2%nat]
  ∧ (λ ir : nat * Row,
       (ir.1, @num int_parser ir.2 "populacao_estimada_2021"))
      <$> rows (@df_filtered int_parser [] (Some "populacao_estimada_2021") 0
                  boundary_view)
    = [(0%nat, of_Z 20000); (1%nat, of_Z 0); (2%nat, NaN)]
  ∧ porte_column
      (@df_porte int_parser "populacao_estimada_2021" "pib_per_capita_2021"
         (@df_filtered int_parser [] (Some "populacao_estimada_2021") 0
            boundary_view))
    = [(0%nat, Text ("Pequeno" +:+ newline +:+ "(<20k)")); (1%nat, Num NaN)]
  ∧ porte_column
      (@df_scatter int_parser "populacao_estimada_2021" "pib_per_capita_2021"
         (@df_filtered int_parser [] (Some "populacao_estimada_2021") 0
            boundary_view))
    = [(0%nat, Text "Pequeno"); (1%nat, Num NaN)]
  ∧ flt (of_Z 20000) (of_Z 20000) = false
  ∧ flt (of_Z 0) (of_Z 20000) = true
  ∧ porte (of_Z 20000) = Some Pequeno
  ∧ porte (of_Z 20000) ≠ Some Medio
  ∧ porte (of_Z 0) = None.
Proof. repeat split; by vm_compute. Qed.

(** ** Best and worst ranking *)



Lemma index_project cols d : index (project cols d) = index d.
Proof.
  unfold index, project; simpl. rewrite <-list_fmap_compose.
  by apply list_fmap_ext.
Qed.




Lemma cell_project (cols : list string) (r : Row) (c : string) :
  c ∈ cols → cell (filter (λ kv : string * Cell, kv.1 ∈ cols) r) c = cell r c.
Proof.
  intros Hc. unfold cell. rewrite map_lookup_filter.
  destruct (r !! c) as [v|]; simpl; [|done].
  by rewrite option_guard_True.
Qed.


Section ranking_facts.
Context {parser : NumberParser}.


Lemma nsmallest_rows n c d :
  rows (nsmallest n c d)
  = take n (sort_by (λ a b : nat * Row, asc_le (num a.2 c) (num b.2 c)) (rows d)).
Proof. done. Qed.

Lemma nsmallest_len n c d : len (nsmallest n c d) = Nat.min n (len d).
Proof. unfold len. by rewrite nsmallest_rows, length_take, sort_by_length. Qed.


Lemma rows_nlargest_subseteq n c d : rows (nlargest n c d) ⊆ rows d.
Proof.
  intros x Hx. rewrite nlargest_rows in Hx.
  apply subseteq_take in Hx. by rewrite sort_by_perm in Hx.
Qed.

Lemma rows_nsmallest_subseteq n c d : rows (nsmallest n c d) ⊆ rows d.
Proof.
  intros x Hx. rewrite nsmallest_rows in Hx.
  apply subseteq_take in Hx. by rewrite sort_by_perm in Hx.
Qed.





End ranking_facts.

(** ** Geo cleaning and elevation *)

Lemma filter_fmap_comm {A B} (f : A → B) (P : B → Prop) (Q : A → Prop)
    `{!∀ x, Decision (P x), !∀ x, Decision (Q x)} (l : list A) :
  (∀ x, P (f x) ↔ Q x) → filter P (f <$> l) = f <$> filter Q l.
Proof.
  intros HPQ. induction l as [|a l IH]; [done|].
  rewrite fmap_cons. destruct (decide (Q a)) as [Ha|Ha].
  - rewrite !filter_cons_True by naive_solver. by rewrite fmap_cons, IH.
  - rewrite !filter_cons_False by naive_solver. done.
Qed.

Lemma fle_antisym x y : fle x y = true → fle y x = true → x = y.
Proof.
  destruct x, y; simpl; try done.
  rewrite !bool_decide_eq_true. intros ? ?. f_equal. by apply Qcle_antisym.
Qed.

Lemma fmax_not_nan x y : x ≠ NaN → fmax x y ≠ NaN.
Proof. destruct x, y; simpl; try done; by case_bool_decide. Qed.

Lemma series_max_spec (l : list float) :
  Forall (λ x, x ≠ NaN) l → l ≠ [] →
  series_max l ∈ l ∧ series_max l ≠ NaN
  ∧ ∀ x, x ∈ l → fle x (series_max l) = true.
Proof.
  induction l as [|a l IH]; [done|]. intros [Ha Hl]%Forall_cons _. simpl.
  destruct l as [|b l].
  - simpl. assert (fmax a NaN = a) as -> by by destruct a.
    split; [apply elem_of_cons; by left|]. split; [done|].
    intros x ->%list_elem_of_singleton. by apply fle_refl.
  - destruct IH as (Hin & Hnn & Hub); [done..|].
    set (s := series_max (b :: l)) in *.
    assert (Hm : fmax a s = if fle a s then s else a) by by destruct a, s.
    rewrite Hm. destruct (fle a s) eqn:Has.
    + split; [apply elem_of_cons; by right|]. split; [done|].
      intros x [->|Hx]%elem_of_cons; auto.
    + assert (Hsa : fle s a = true).
      { destruct (fle_total a s Ha Hnn); congruence. }
      split; [apply elem_of_cons; by left|]. split; [done|].
      intros x [->|Hx]%elem_of_cons; [by apply fle_refl|].
      eapply fle_trans; [by apply Hub|done].
Qed.

Lemma series_max_eq (l : list float) (m : float) :
  Forall (λ x, x ≠ NaN ∧ fle x m = true) l → m ∈ l → series_max l = m.
Proof.
  intros Hl Hm.
  destruct (series_max_spec l) as (Hin & _ & Hub).
  - eapply Forall_impl; [exact Hl|]. by intros x [? _].
  - intros ->. by apply elem_of_nil in Hm.
  - rewrite Forall_forall in Hl. apply fle_antisym; [|by apply Hub].
    by apply Hl.
Qed.

(** Scaling by a positive finite maximum: at most 500000, and exactly
    500000 at the maximum. *)
Lemma elevation_bound (x : float) (q : Qc) :
  (0 < q)%Qc → x ≠ NaN → fle x (Fin q) = true →
  fmul (fdiv x (Fin q)) (of_Z 500000) ≠ NaN
  ∧ fle (fmul (fdiv x (Fin q)) (of_Z 500000)) (of_Z 500000) = true.
Proof.
  intros Hq Hx Hle.
  assert (Hq0 : q ≠ 0%Qc) by (intros ->; by apply (Qclt_not_eq _ _ Hq)).
  assert (Hs : Qc_sgn q = Gt) by by apply Qcgt_alt.
  destruct x as [| |a|]; simpl in *; try done.
  - by rewrite Hs.
  - rewrite decide_False by done. simpl. split; [done|].
    apply bool_decide_eq_true in Hle. apply bool_decide_eq_true.
    rewrite <-(Qcmult_1_l (Qc_of_Z 500000)) at 2.
    apply Qcmult_le_mono_nonneg_r; [by apply Z2Qc_inj_le|].
    apply (Qcmult_le_mono_pos_r _ _ q Hq).
    by rewrite Qcmult_1_l, Qcmult_comm, Qcmult_div_r.
Qed.

Lemma elevation_at_max (q : Qc) :
  (0 < q)%Qc → fmul (fdiv (Fin q) (Fin q)) (of_Z 500000) = of_Z 500000.
Proof.
  intros Hq.
  assert (Hq0 : q ≠ 0%Qc) by (intros ->; by apply (Qclt_not_eq _ _ Hq)).
  simpl. rewrite decide_False by done. simpl. unfold of_Z. f_equal.
  unfold Qcdiv. by rewrite Qcmult_inv_r, Qcmult_1_l.
Qed.

Section geo_facts.
Context {parser : NumberParser}.

Lemma pop0_not_nan c (r : Row) : pop0 c r ≠ NaN.
Proof. unfold pop0. by apply fillna_not_nan. Qed.

Lemma pop0_of_num c (r : Row) : num r c ≠ NaN → pop0 c r = num r c.
Proof. unfold pop0. by destruct (num r c). Qed.

Lemma pop0_coerce_row c c' (r : Row) :
  pop0 c (<[c' := Num (num r c')]> r) = pop0 c r.
Proof. unfold pop0. by rewrite num_coerced. Qed.

Lemma pop0_fill_row c c' (r : Row) :
  pop0 c (<[c' := Num (pop0 c' r)]> r) = pop0 c r.
Proof.
  destruct (decide (c' = c)) as [->|Hne].
  - unfold pop0 at 1. rewrite num_insert_eq.
    pose proof (pop0_not_nan c r). by destruct (pop0 c r).
  - unfold pop0. by rewrite num_insert_ne.
Qed.

Lemma index_fill_if_present c d : index (fill_if_present c d) = index d.
Proof.
  unfold fill_if_present. destruct c as [c|]; [|done].
  case_match; [|done]. apply index_assign.
Qed.

Lemma columns_fill_if_present c d :
  columns (fill_if_present c d) = columns d.
Proof.
  unfold fill_if_present. destruct c as [c|]; [|done].
  destruct (has_col c d) eqn:Hc; [|done].
  apply columns_assign_present. by apply bool_decide_eq_true in Hc.
Qed.

Lemma pop0_fill_if_present pc c d :
  (λ ir : nat * Row, pop0 pc ir.2) <$> rows (fill_if_present c d)
  = (λ ir : nat * Row, pop0 pc ir.2) <$> rows d.
Proof.
  unfold fill_if_present. destruct c as [c|]; [|done].
  case_match; [|done]. unfold coerce_fill, assign; simpl.
  rewrite <-list_fmap_compose. apply list_fmap_ext.
  intros j [i r] _; simpl. apply pop0_fill_row.
Qed.

Lemma filled_fill_if_present pc c d :
  Forall (λ ir : nat * Row, num ir.2 pc ≠ NaN) (rows d) →
  Forall (λ ir : nat * Row, num ir.2 pc ≠ NaN) (rows (fill_if_present c d)).
Proof.
  intros Hd. unfold fill_if_present. destruct c as [c|]; [|done].
  case_match; [|done]. unfold coerce_fill, assign; simpl.
  rewrite Forall_fmap. eapply Forall_impl; [exact Hd|].
  intros [i r]; simpl. intros Hr.
  destruct (decide (c = pc)) as [->|Hne].
  - rewrite num_insert_eq. apply pop0_not_nan.
  - by rewrite num_insert_ne.
Qed.

(** The rows that survive the geo cleaning, before the fills. *)
Lemma rows_geo_cleaned view :
  rows (dropna ["latitude"; "longitude"]
          (coerce "longitude" (coerce "latitude" view)))
  = (λ ir : nat * Row,
       let r1 := <["latitude" := Num (num ir.2 "latitude")]> ir.2 in
       (ir.1, <["longitude" := Num (num r1 "longitude")]> r1))
    <$> filter (λ ir : nat * Row, has_coords ir.2 = true) (rows view).
Proof.
  unfold dropna, select, coerce, assign; simpl.
  rewrite <-list_fmap_compose.
  rewrite (filter_fmap_comm _ _ (λ ir : nat * Row, has_coords ir.2 = true)).
  - done.
  - intros [i r]; simpl. unfold has_coords.
    rewrite cell_insert_eq, cell_insert_ne, cell_insert_eq by done.
    rewrite num_coerced.
    destruct (num r "latitude"), (num r "longitude"); simpl; naive_solver.
Qed.

Lemma index_df_map pc ic view :
  index (df_map pc ic view)
  = (filter (λ ir : nat * Row, has_coords ir.2 = true) (rows view)).*1.
Proof.
  unfold df_map. rewrite !index_fill_if_present.
  unfold index. rewrite rows_geo_cleaned, <-list_fmap_compose.
  by apply list_fmap_ext.
Qed.

(** The population column of the map table: the populations, missing read
    as 0, of the rows of the view that have coordinates. *)
Lemma pops_df_map pc ic view :
  pc ∈ columns view →
  (λ ir : nat * Row, num ir.2 pc) <$> rows (df_map (Some pc) ic view)
  = (λ ir : nat * Row, pop0 pc ir.2)
      <$> filter (λ ir : nat * Row, has_coords ir.2 = true) (rows view).
Proof.
  intros Hpc. unfold df_map.
  set (D := dropna _ _).
  assert (HcD : has_col pc D = true).
  { apply bool_decide_eq_true. unfold D, dropna, coerce.
    rewrite columns_select. by do 2 apply elem_of_columns_assign. }
  set (D1 := fill_if_present (Some pc) D).
  assert (HD1 : Forall (λ ir : nat * Row, num ir.2 pc ≠ NaN) (rows D1)).
  { unfold D1, fill_if_present. rewrite HcD. apply coerce_fill_not_nan. }
  apply (filled_fill_if_present pc ic) in HD1.
  transitivity ((λ ir : nat * Row, pop0 pc ir.2)
                  <$> rows (fill_if_present ic D1)).
  { apply list_fmap_ext. intros j ir Hj. symmetry. apply pop0_of_num.
    rewrite Forall_forall in HD1. apply HD1.
    by eapply list_elem_of_lookup_2. }
  unfold D1. rewrite !pop0_fill_if_present. unfold D.
  rewrite rows_geo_cleaned, <-list_fmap_compose.
  apply list_fmap_ext. intros j [i r] _; simpl.
  by rewrite !pop0_coerce_row.
Qed.

Lemma columns_df_map pc ic view x :
  x ∈ columns view → x ∈ columns (df_map pc ic view).
Proof.
  intros Hx. unfold df_map. rewrite !columns_fill_if_present.
  unfold dropna, coerce. rewrite columns_select.
  by do 2 apply elem_of_columns_assign.
Qed.

(** The elevations of the 3D map, row by row. *)
Lemma elevations_with_pop_norm pc d :
  (λ ir : nat * Row, num ir.2 "pop_norm") <$> rows (with_pop_norm pc d)
  = (λ ir : nat * Row,
       fmul (fdiv (num ir.2 pc) (col_max pc d)) (of_Z 500000)) <$> rows d.
Proof.
  unfold with_pop_norm, assign; simpl. rewrite <-list_fmap_compose.
  apply list_fmap_ext. intros j [i r] _; simpl. by rewrite num_insert_eq.
Qed.

(** C8 (amended).  The map table holds exactly the rows of the view whose
    latitude and longitude both parse.  In the 3D map the elevation of a
    row is its population (missing read as 0) divided by the maximum
    population over the rows of the map table, times 500000; when that
    maximum is finite and positive no elevation exceeds 500000 and the
    largest elevation is exactly 500000. *)
Theorem geo_cleaning_and_elevation
    (pc : string) (ic : option string) (view : DataFrame) :
  pc ∈ columns view →
  NoDup (index view) →
  (∀ i r, (i, r) ∈ rows view →
     (i ∈ index (df_map (Some pc) ic view) ↔ has_coords r = true))
  ∧ col_max pc (df_map (Some pc) ic view)
    = series_max ((λ ir : nat * Row, pop0 pc ir.2)
                    <$> filter (λ ir : nat * Row, has_coords ir.2 = true)
                               (rows view))
  ∧ (λ ir : nat * Row, num ir.2 "pop_norm")
      <$> rows (with_pop_norm pc (df_map (Some pc) ic view))
    = (λ ir : nat * Row,
         fmul (fdiv (pop0 pc ir.2) (col_max pc (df_map (Some pc) ic view)))
              (of_Z 500000))
      <$> filter (λ ir : nat * Row, has_coords ir.2 = true) (rows view)
  ∧ ∀ q, col_max pc (df_map (Some pc) ic view) = Fin q → (0 < q)%Qc →
      col_max "pop_norm" (with_pop_norm pc (df_map (Some pc) ic view))
      = of_Z 500000.
Proof.
  intros Hpc Hnd.
  set (M := df_map (Some pc) ic view).
  pose proof (pops_df_map pc ic view Hpc) as Hpops. fold M in Hpops.
  assert (Hmax : col_max pc M
     = series_max ((λ ir : nat * Row, pop0 pc ir.2)
                     <$> filter (λ ir : nat * Row, has_coords ir.2 = true)
                                (rows view))).
  { unfold col_max. by rewrite Hpops. }
  assert (Helev : (λ ir : nat * Row, num ir.2 "pop_norm")
      <$> rows (with_pop_norm pc M)
    = (λ ir : nat * Row,
         fmul (fdiv (pop0 pc ir.2) (col_max pc M)) (of_Z 500000))
      <$> filter (λ ir : nat * Row, has_coords ir.2 = true) (rows view)).
  { rewrite elevations_with_pop_norm.
    change ((λ ir : nat * Row,
               fmul (fdiv (num ir.2 pc) (col_max pc M)) (of_Z 500000))
              <$> rows M)
      with (((λ x, fmul (fdiv x (col_max pc M)) (of_Z 500000))
               ∘ (λ ir : nat * Row, num ir.2 pc)) <$> rows M).
    rewrite list_fmap_compose, Hpops. by rewrite <-list_fmap_compose. }
  split; [|split; [exact Hmax|split; [exact Helev|]]].
  - intros i r Hr. unfold M. rewrite index_df_map, list_elem_of_fmap. split.
    + intros [[j r0] [-> [Hc Hr0]%list_elem_of_filter]]. simpl in *.
      by rewrite (index_unique view j r r0).
    + intros Hc. exists (i, r). split; [done|].
      by apply list_elem_of_filter.
  - intros q Hq Hpos. unfold col_max at 1. rewrite Helev, Hq.
    set (l := filter _ (rows view)) in *.
    assert (Hl : (λ ir : nat * Row, pop0 pc ir.2) <$> l ≠ []).
    { intros Hnil. rewrite Hmax, Hnil in Hq. discriminate Hq. }
    destruct (series_max_spec ((λ ir : nat * Row, pop0 pc ir.2) <$> l))
      as (Hin & _ & Hub); [|done|].
    { rewrite Forall_fmap, Forall_forall. intros x _. apply pop0_not_nan. }
    rewrite <-Hmax, Hq in Hin, Hub.
    apply series_max_eq.
    + rewrite Forall_fmap, Forall_forall. intros x Hx. simpl.
      apply elevation_bound; [done|apply pop0_not_nan|].
      apply Hub, list_elem_of_fmap. by exists x.
    + apply list_elem_of_fmap in Hin as (x & Hx & Hxl).
      apply list_elem_of_fmap. exists x. split; [|done].
      by rewrite <-Hx, elevation_at_max.
Qed.

End geo_facts.

(** ** The loaded table is never written *)

Section frame_rules.
Context {A B : Type} (n : nat).

Lemma preserves_ret (a : A) (Q : A → Prop) : Q a → preserves n (ret a) Q.
Proof. intros Ha σ Hn. simpl. split; [done|]. split; [done|]. by intros ? [= <-]. Qed.

Lemma preserves_raise (e : Exn) (Q : A → Prop) : preserves n (raise e) Q.
Proof. intros σ Hn. simpl. split; [done|]. split; [done|]. by intros ? [=]. Qed.

Lemma preserves_bind (m : M A) (k : A → M B) (P : A → Prop) (Q : B → Prop) :
  preserves n m P → (∀ a, P a → preserves n (k a) Q) →
  preserves n (bind m k) Q.
Proof.
  intros Hm Hk σ Hn. unfold bind.
  destruct (Hm σ Hn) as (Ht & Hl & Hr).
  destruct (m σ) as [[a|e] σ1]; simpl in *.
  - destruct (Hk a (Hr a eq_refl) σ1 Hl) as (Ht' & Hl' & Hr').
    split; [congruence|]. by split.
  - split; [done|]. split; [done|]. by intros ? [=].
Qed.

Lemma preserves_weaken (m : M A) (P Q : A → Prop) :
  preserves n m P → (∀ a, P a → Q a) → preserves n m Q.
Proof.
  intros Hm HPQ σ Hn. destruct (Hm σ Hn) as (Ht & Hl & Hr).
  split; [done|]. split; [done|]. auto.
Qed.

End frame_rules.

Lemma preserves_deref n l : preserves n (deref l) (λ _, True).
Proof.
  intros σ Hn. unfold deref. by destruct (heap σ !! l).
Qed.

Lemma preserves_alloc n d : preserves n (alloc d) (λ l, (n ≤ l)%nat).
Proof.
  intros σ Hn. unfold alloc; simpl. split; [by rewrite take_app_le|].
  split; [rewrite length_app; lia|]. by intros ? [= <-].
Qed.

Lemma preserves_put n l d : (n ≤ l)%nat → preserves n (put l d) (λ _, True).
Proof.
  intros Hl σ Hn. unfold put; simpl. split; [by rewrite take_insert_ge|].
  split; [by rewrite length_insert|done].
Qed.

Lemma preserves_show n ch : preserves n (show ch) (λ _, True).
Proof. by intros σ Hn. Qed.

Lemma preserves_copy n l : preserves n (copy l) (λ l', (n ≤ l')%nat).
Proof.
  eapply preserves_bind; [apply preserves_deref|].
  intros d _. apply preserves_alloc.
Qed.

Lemma preserves_derive n f l : preserves n (derive f l) (λ l', (n ≤ l')%nat).
Proof.
  eapply preserves_bind; [apply preserves_deref|].
  intros d _. apply preserves_alloc.
Qed.

Lemma preserves_update n f l :
  (n ≤ l)%nat → preserves n (update f l) (λ _, True).
Proof.
  intros Hl. eapply preserves_bind; [apply preserves_deref|].
  intros d _. by apply preserves_put.
Qed.

Lemma preserves_getitem n l c : preserves n (getitem l c) (λ _, True).
Proof.
  eapply preserves_bind; [apply preserves_deref|].
  intros d _. case_match; [by apply preserves_ret|apply preserves_raise].
Qed.

Lemma preserves_px_col n l c : preserves n (px_col l c) (λ _, True).
Proof.
  eapply preserves_bind; [apply preserves_deref|].
  intros d _. case_match; [by apply preserves_ret|apply preserves_raise].
Qed.

(** One step of a script: the next primitive, then the rest. *)
Ltac frame_step :=
  first
    [ apply preserves_ret; first [done | lia]
    | apply preserves_raise
    | apply preserves_show
    | apply preserves_deref
    | apply preserves_getitem
    | apply preserves_px_col
    | apply preserves_copy
    | apply preserves_derive
    | apply preserves_alloc
    | apply preserves_update; first [done | lia]
    | eapply preserves_bind; [|intros ? ?] ].

Section frame_script.
Context {parser : NumberParser}.

Lemma preserves_getitems n l cols : preserves n (getitems l cols) (λ _, True).
Proof.
  induction cols as [|c cols IH]; simpl; [by apply preserves_ret|].
  eapply preserves_bind; [apply preserves_getitem|]. by intros _ _.
Qed.

Lemma preserves_coerce_at n l c :
  (n ≤ l)%nat → preserves n (coerce_at l c) (λ _, True).
Proof. intros Hl. unfold coerce_at. repeat frame_step. Qed.

Lemma preserves_coerce_fill_at n l c :
  (n ≤ l)%nat → preserves n (coerce_fill_at l c) (λ _, True).
Proof. intros Hl. unfold coerce_fill_at. repeat frame_step. Qed.

Lemma preserves_dropna_at n l cols :
  preserves n (dropna_at l cols) (λ l', (n ≤ l')%nat).
Proof.
  unfold dropna_at. eapply preserves_bind; [apply preserves_getitems|].
  intros _ _. apply preserves_derive.
Qed.

(** A whole section of the script, primitive by primitive. *)
Ltac frame_solve :=
  repeat (cbv beta in *;
          first
            [ apply preserves_coerce_at; lia
            | apply preserves_coerce_fill_at; lia
            | apply preserves_dropna_at
            | apply preserves_getitems
            | frame_step
            | case_match ]).

Lemma preserves_filter_stage n inp df :
  preserves n (filter_stage inp df) (λ f, (n ≤ f)%nat).
Proof.
  unfold filter_stage.
  eapply preserves_bind; [apply preserves_copy|]. intros f Hf. cbv beta in Hf.
  eapply preserves_bind; [apply preserves_deref|]. intros d _.
  eapply (preserves_bind _ _ _ (λ f', (n ≤ f')%nat)).
  { case_match; [apply preserves_derive|by apply preserves_ret]. }
  intros f' Hf'. destruct (chosen (pop_col inp)) as [pc|];
    [|by apply preserves_ret].
  eapply preserves_bind; [by apply preserves_coerce_at|].
  intros _ _. apply preserves_derive.
Qed.

Lemma preserves_export_csv n inp f :
  preserves n (export_csv inp f) (λ _, True).
Proof. unfold export_csv. frame_solve. Qed.

Lemma preserves_chart1 n inp f :
  (n ≤ f)%nat → preserves n (chart1 inp f) (λ _, True).
Proof. intros Hf. unfold chart1. frame_solve. Qed.

Lemma preserves_chart2 n inp f :
  (n ≤ f)%nat → preserves n (chart2 inp f) (λ _, True).
Proof. intros Hf. unfold chart2. frame_solve. Qed.

Lemma preserves_chart3 n inp df f :
  (n ≤ f)%nat → preserves n (chart3 inp df f) (λ _, True).
Proof. intros Hf. unfold chart3. frame_solve. Qed.

Lemma preserves_with_porte_at n labels first second pc f :
  preserves n (with_porte_at labels first second pc f) (λ l, (n ≤ l)%nat).
Proof. unfold with_porte_at. frame_solve. Qed.

Lemma preserves_chart4 n inp f :
  (n ≤ f)%nat → preserves n (chart4 inp f) (λ _, True).
Proof.
  intros Hf. unfold chart4.
  repeat (cbv beta in *;
          first [apply preserves_with_porte_at | frame_step | case_match]).
Qed.

Lemma preserves_chart5 n inp f :
  (n ≤ f)%nat → preserves n (chart5 inp f) (λ _, True).
Proof. intros Hf. unfold chart5. frame_solve. Qed.

Lemma preserves_chart6 n inp f :
  (n ≤ f)%nat → preserves n (chart6 inp f) (λ _, True).
Proof.
  intros Hf. unfold chart6.
  repeat (cbv beta in *;
          first [apply preserves_with_porte_at | frame_step | case_match]).
Qed.

Lemma preserves_chart7 n inp f :
  (n ≤ f)%nat → preserves n (chart7 inp f) (λ _, True).
Proof. intros Hf. unfold chart7. frame_solve. Qed.

Lemma preserves_chart8 n inp f :
  (n ≤ f)%nat → preserves n (chart8 inp f) (λ _, True).
Proof.
  intros Hf. unfold chart8.
  repeat (cbv beta in *;
          first [apply preserves_with_porte_at | frame_step | case_match]).
Qed.

Lemma preserves_ranked_at n pick tag ic r :
  preserves n (ranked_at pick tag ic r) (λ l, (n ≤ l)%nat).
Proof. unfold ranked_at. frame_solve. Qed.

Lemma preserves_chart9 n inp f :
  (n ≤ f)%nat → preserves n (chart9 inp f) (λ _, True).
Proof.
  intros Hf. unfold chart9.
  repeat (cbv beta in *;
          first [apply preserves_ranked_at | apply preserves_coerce_at; lia
                | apply preserves_dropna_at | frame_step | case_match]).
Qed.

Lemma preserves_fill_if_present_at n l c :
  (n ≤ l)%nat → preserves n (fill_if_present_at l c) (λ _, True).
Proof. intros Hl. unfold fill_if_present_at. frame_solve. Qed.

Lemma preserves_px_opt n l c : preserves n (px_opt l c) (λ _, True).
Proof. unfold px_opt. frame_solve. Qed.

Lemma preserves_maps n inp f :
  (n ≤ f)%nat → preserves n (maps inp f) (λ _, True).
Proof.
  intros Hf. unfold maps.
  repeat (cbv beta in *;
          first [apply preserves_fill_if_present_at; lia
                | apply preserves_px_opt
                | apply preserves_coerce_at; lia
                | apply preserves_dropna_at | frame_step | case_match]).
Qed.

Lemma preserves_script n inp df :
  preserves n (script inp df) (λ _, True).
Proof.
  unfold script.
  eapply preserves_bind; [apply preserves_filter_stage|].
  intros f Hf. cbv beta in Hf.
  repeat (eapply preserves_bind; [|intros _ _]);
    first [ apply preserves_export_csv | by apply preserves_chart1
          | by apply preserves_chart2 | by apply preserves_chart3
          | by apply preserves_chart4 | by apply preserves_chart5
          | by apply preserves_chart6 | by apply preserves_chart7
          | by apply preserves_chart8 | by apply preserves_chart9
          | by apply preserves_maps ].
Qed.

(** C9.  Whatever the widget values of the successive runs, the cached
    table is, after the session, the table as it was loaded: the filter
    stage and every chart work on tables of their own. *)
Theorem loaded_table_never_mutated
    (inps : list Inputs) (df : nat) (d : DataFrame) (σ : State) :
  heap σ !! df = Some d →
  heap (session inps df σ) !! df = Some d.
Proof.
  revert σ. induction inps as [|inp inps IH]; intros σ Hd; [done|].
  simpl. apply IH.
  destruct (preserves_script (S df) inp df σ) as (Ht & _ & _).
  { by apply lookup_lt_Some in Hd. }
  rewrite <-(lookup_take_lt _ (S df)) by lia. rewrite Ht.
  rewrite lookup_take_lt by lia. done.
Qed.

End frame_script.

(** ** The script computes the tables of the transforms *)

Lemma keeps_refl σ : keeps σ σ.
Proof. by intros k x. Qed.

Lemma keeps_trans σ1 σ2 σ3 : keeps σ1 σ2 → keeps σ2 σ3 → keeps σ1 σ3.
Proof. intros H1 H2 k x Hk. by apply H2, H1. Qed.

(** A table written at a position that was free in [σ0] leaves the tables
    of [σ0] alone. *)
Lemma keeps_put σ0 σ σ' l :
  keeps σ0 σ → heap σ0 !! l = None →
  (∀ k, k ≠ l → heap σ' !! k = heap σ !! k) → keeps σ0 σ'.
Proof.
  intros Hk Hl Hoth k x Hx. rewrite Hoth; [by apply Hk|].
  intros ->. congruence.
Qed.

(** A position free in [σ] was free in every state [σ] keeps. *)
Lemma keeps_fresh σ0 σ l : keeps σ0 σ → heap σ !! l = None → heap σ0 !! l = None.
Proof.
  intros Hk Hl. destruct (heap σ0 !! l) as [x|] eqn:Hx; [|done].
  apply Hk in Hx. congruence.
Qed.

Lemma keeps_show σ0 σ ch :
  keeps σ0 σ → keeps σ0 (mkState (heap σ) (shown σ ++ [ch])).
Proof. done. Qed.

Lemma extends_refl σ : extends σ σ.
Proof. split; [apply keeps_refl|done]. Qed.

Lemma extends_trans σ1 σ2 σ3 : extends σ1 σ2 → extends σ2 σ3 → extends σ1 σ3.
Proof.
  intros [H1 S1] [H2 S2]. split; [by eapply keeps_trans|congruence].
Qed.

Section wp_rules.
Context {A B : Type}.

Lemma wp_ret (a : A) (Q : A → State → Prop) σ : Q a σ → wp (ret a) Q σ.
Proof. done. Qed.

Lemma wp_bind (m : M A) (k : A → M B) (Q : B → State → Prop) σ :
  wp m (λ a σ', wp (k a) Q σ') σ → wp (bind m k) Q σ.
Proof. unfold wp, bind. by destruct (m σ) as [[a|e] σ']. Qed.

Lemma wp_mono (m : M A) (Q Q' : A → State → Prop) σ :
  (∀ a σ', Q a σ' → Q' a σ') → wp m Q σ → wp m Q' σ.
Proof. unfold wp. destruct (m σ) as [[a|e] σ']; auto. Qed.

End wp_rules.

Lemma wp_deref l d (Q : DataFrame → State → Prop) σ :
  heap σ !! l = Some d → Q d σ → wp (deref l) Q σ.
Proof. intros Hl HQ. unfold wp, deref. by rewrite Hl. Qed.

Lemma wp_alloc d (Q : nat → State → Prop) σ :
  (∀ l σ', heap σ !! l = None → heap σ' !! l = Some d → extends σ σ' →
           Q l σ') →
  wp (alloc d) Q σ.
Proof.
  intros HQ. unfold wp, alloc. apply HQ; simpl.
  - by apply lookup_ge_None_2.
  - by apply list_lookup_middle.
  - split; [|done]. intros k x Hk. by apply lookup_app_l_Some.
Qed.

Lemma wp_put l d d' (Q : unit → State → Prop) σ :
  heap σ !! l = Some d →
  (∀ σ', heap σ' !! l = Some d' →
         (∀ k, k ≠ l → heap σ' !! k = heap σ !! k) →
         shown σ' = shown σ → Q () σ') →
  wp (put l d') Q σ.
Proof.
  intros Hl HQ. unfold wp, put. apply HQ; simpl.
  - apply list_lookup_insert_eq. by eapply lookup_lt_Some.
  - intros k Hk. by apply list_lookup_insert_ne.
  - done.
Qed.

Lemma wp_show ch (Q : unit → State → Prop) σ :
  Q () (mkState (heap σ) (shown σ ++ [ch])) → wp (show ch) Q σ.
Proof. done. Qed.

Lemma wp_copy l d (Q : nat → State → Prop) σ :
  heap σ !! l = Some d →
  (∀ l' σ', heap σ !! l' = None → heap σ' !! l' = Some d → extends σ σ' →
            Q l' σ') →
  wp (copy l) Q σ.
Proof.
  intros Hl HQ. apply wp_bind. eapply wp_deref; [done|]. by apply wp_alloc.
Qed.

Lemma wp_derive f l d (Q : nat → State → Prop) σ :
  heap σ !! l = Some d →
  (∀ l' σ', heap σ !! l' = None → heap σ' !! l' = Some (f d) → extends σ σ' →
            Q l' σ') →
  wp (derive f l) Q σ.
Proof.
  intros Hl HQ. apply wp_bind. eapply wp_deref; [done|]. by apply wp_alloc.
Qed.

Lemma wp_update f l d (Q : unit → State → Prop) σ :
  heap σ !! l = Some d →
  (∀ σ', heap σ' !! l = Some (f d) →
         (∀ k, k ≠ l → heap σ' !! k = heap σ !! k) →
         shown σ' = shown σ → Q () σ') →
  wp (update f l) Q σ.
Proof.
  intros Hl HQ. apply wp_bind. eapply wp_deref; [done|]. by eapply wp_put.
Qed.

Lemma wp_getitem l c d (Q : unit → State → Prop) σ :
  heap σ !! l = Some d → c ∈ columns d → Q () σ → wp (getitem l c) Q σ.
Proof.
  intros Hl Hc HQ. apply wp_bind. eapply wp_deref; [done|].
  unfold has_col. by rewrite bool_decide_eq_true_2.
Qed.

Lemma wp_px_col l c d (Q : unit → State → Prop) σ :
  heap σ !! l = Some d → c ∈ columns d → Q () σ → wp (px_col l c) Q σ.
Proof.
  intros Hl Hc HQ. apply wp_bind. eapply wp_deref; [done|].
  unfold has_col. by rewrite bool_decide_eq_true_2.
Qed.

Section script_computes.
Context {parser : NumberParser}.

Lemma wp_coerce_at l c d (Q : unit → State → Prop) σ :
  heap σ !! l = Some d → c ∈ columns d →
  (∀ σ', heap σ' !! l = Some (coerce c d) →
         (∀ k, k ≠ l → heap σ' !! k = heap σ !! k) →
         shown σ' = shown σ → Q () σ') →
  wp (coerce_at l c) Q σ.
Proof.
  intros Hl Hc HQ. unfold coerce_at. apply wp_bind.
  eapply wp_getitem; [done..|]. by eapply wp_update.
Qed.

Lemma wp_coerce_fill_at l c d (Q : unit → State → Prop) σ :
  heap σ !! l = Some d → c ∈ columns d →
  (∀ σ', heap σ' !! l = Some (coerce_fill c d) →
         (∀ k, k ≠ l → heap σ' !! k = heap σ !! k) →
         shown σ' = shown σ → Q () σ') →
  wp (coerce_fill_at l c) Q σ.
Proof.
  intros Hl Hc HQ. unfold coerce_fill_at. apply wp_bind.
  eapply wp_getitem; [done..|]. by eapply wp_update.
Qed.

Lemma chosen_truthy c pc : chosen c = Some pc → c = Some pc ∧ truthy c = true.
Proof. unfold chosen. destruct (truthy c) eqn:Ht; [|done]. by intros ->. Qed.

Lemma pop_filter_chosen c t d :
  pop_filter c t d
  = match chosen c with
    | Some pc => select (λ r, fge (pop0 pc r) (of_Z t)) (coerce pc d)
    | None => d
    end.
Proof.
  unfold pop_filter, chosen. destruct c as [pc|]; [|done].
  by destruct (truthy (Some pc)).
Qed.

(** The filter stage leaves, in a table of its own, the filtered view of
    the loaded table. *)
Lemma filter_stage_computes inp df d σ :
  heap σ !! df = Some d →
  (∀ pc, chosen (pop_col inp) = Some pc → pc ∈ columns d) →
  wp (filter_stage inp df)
     (λ f σ', heap σ' !! f
              = Some (df_filtered (estado_sel inp) (pop_col inp) (min_pop inp) d)
              ∧ f ≠ df ∧ heap σ' !! df = Some d ∧ shown σ' = shown σ)
     σ.
Proof.
  intros Hdf Hpc. unfold filter_stage, df_filtered.
  rewrite pop_filter_chosen.
  apply wp_bind. eapply wp_copy; [done|].
  intros f σ1 Hfresh Hf [Hext Hs1].
  apply wp_bind. eapply wp_deref; [done|].
  apply wp_bind.
  eapply (wp_mono _ (λ f' σ2,
            heap σ2 !! f' = Some (state_filter (estado_sel inp) d)
            ∧ f' ≠ df ∧ heap σ2 !! df = Some d ∧ shown σ2 = shown σ)).
  2:{ unfold state_filter. case_match.
      - eapply wp_derive; [done|]. intros f' σ2 Hfresh' Hf' [Hext' Hs2].
        split; [done|]. split; [|split; [auto|congruence]].
        intros ->. apply Hext in Hdf. congruence.
      - apply wp_ret. split; [done|]. split; [|split; [auto|done]].
        intros ->. congruence. }
  intros f' σ2 (Hf' & Hne & Hdf' & Hs2). cbv beta.
  destruct (chosen (pop_col inp)) as [pc|] eqn:Hch; [|by apply wp_ret].
  apply wp_bind. eapply wp_coerce_at; [done| |].
  { rewrite columns_state_filter. by apply Hpc. }
  intros σ3 Hf3 Hoth Hs3.
  eapply wp_derive; [done|]. intros f4 σ4 Hfresh4 Hf4 [Hext4 Hs4].
  split; [done|]. split; [|split; [|congruence]].
  - intros ->. rewrite Hoth, Hdf' in Hfresh4 by done. done.
  - apply Hext4. by rewrite Hoth.
Qed.

Lemma wp_getitems l cols d (Q : unit → State → Prop) σ :
  heap σ !! l = Some d → (∀ c, c ∈ cols → c ∈ columns d) → Q () σ →
  wp (getitems l cols) Q σ.
Proof.
  intros Hl Hc HQ. induction cols as [|c cols IH]; simpl; [done|].
  apply wp_bind. eapply wp_getitem; [done| |].
  - apply Hc, elem_of_cons. by left.
  - apply IH. intros c' Hc'. apply Hc, elem_of_cons. by right.
Qed.

Lemma wp_dropna_at l cols d (Q : nat → State → Prop) σ :
  heap σ !! l = Some d → (∀ c, c ∈ cols → c ∈ columns d) →
  (∀ l' σ', heap σ !! l' = None → heap σ' !! l' = Some (dropna cols d) →
            extends σ σ' → Q l' σ') →
  wp (dropna_at l cols) Q σ.
Proof.
  intros Hl Hc HQ. unfold dropna_at. apply wp_bind.
  eapply wp_getitems; [done..|]. by eapply wp_derive.
Qed.

Lemma columns_coerce c d : c ∈ columns d → columns (coerce c d) = columns d.
Proof. apply columns_assign_present. Qed.

Lemma columns_coerce_fill c d :
  c ∈ columns d → columns (coerce_fill c d) = columns d.
Proof. apply columns_assign_present. Qed.

Lemma elem_of_columns_assign_self c f d : c ∈ columns (assign c f d).
Proof.
  unfold assign, has_col; simpl. case_bool_decide; [done|].
  apply elem_of_app. right. by apply list_elem_of_singleton.
Qed.

Lemma elem_of_columns_concat_l a b x :
  x ∈ columns a → x ∈ columns (concat a b).
Proof. intros Hx. unfold concat; simpl. apply elem_of_app. by left. Qed.

(** A fresh position differs from every position in use. *)
Lemma fresh_ne (σ : State) l l' d :
  heap σ !! l' = None → heap σ !! l = Some d → l' ≠ l.
Proof. intros Hn Hs ->. congruence. Qed.

(** Chart 1 draws the Top-N table of the view, labelled. *)
Lemma chart1_computes inp f view pc σ :
  heap σ !! f = Some view →
  chosen (pop_col inp) = Some pc →
  pc ∈ columns view → "municipio" ∈ columns view → "estado" ∈ columns view →
  wp (chart1 inp f)
     (λ _ σ',
        (∃ t, heap σ' !! t
              = Some (assign "label" label_cell (df_top pc (top_n inp) view)))
        ∧ heap σ' !! f = Some view
        ∧ shown σ' = shown σ ++ [Chart1])
     σ.
Proof.
  intros Hf Hch Hpc Hm He. unfold chart1, df_top.
  apply wp_bind. eapply wp_deref; [done|]. rewrite Hch.
  unfold has_col. rewrite bool_decide_eq_true_2 by done.
  apply wp_bind. eapply wp_copy; [done|].
  intros t σ1 Hfr1 Ht1 [Hext1 Hs1].
  pose proof (fresh_ne _ _ _ _ Hfr1 Hf) as Hne1.
  apply wp_bind. eapply wp_coerce_fill_at; [done..|].
  intros σ2 Ht2 Hoth2 Hs2.
  assert (Hf2 : heap σ2 !! f = Some view) by (rewrite Hoth2; auto).
  apply wp_bind. eapply wp_derive; [done|].
  intros t' σ3 Hfr3 Ht3 [Hext3 Hs3].
  pose proof (fresh_ne _ _ _ _ Hfr3 Hf2) as Hne3.
  assert (Hcols : columns (nlargest (top_n inp) pc (coerce_fill pc view))
                  = columns view) by by apply columns_coerce_fill.
  apply wp_bind. eapply wp_getitem; [done|by rewrite Hcols|].
  apply wp_bind. eapply wp_getitem; [done|by rewrite Hcols|].
  apply wp_bind. eapply wp_update; [done|].
  intros σ4 Ht4 Hoth4 Hs4. apply wp_show; simpl.
  split; [eauto|]. split; [|congruence].
  rewrite Hoth4 by done. auto.
Qed.

(** Charts 4, 6 and 8 bin the table [with_porte] of the view. *)
Lemma with_porte_at_computes labels first second pc f view σ :
  heap σ !! f = Some view →
  first ∈ columns view → second ∈ columns view → pc ∈ [first; second] →
  wp (with_porte_at labels first second pc f)
     (λ s σ', heap σ' !! s = Some (with_porte labels first second pc view)
              ∧ keeps σ σ' ∧ shown σ' = shown σ)
     σ.
Proof.
  intros Hf H1 H2 Hpc. unfold with_porte_at, with_porte.
  apply wp_bind. eapply wp_copy; [done|].
  intros s σ1 Hfr1 Hs1 [Hext1 Hsh1].
  pose proof (fresh_ne _ _ _ _ Hfr1 Hf) as Hne1.
  apply wp_bind. eapply wp_coerce_at; [done..|].
  intros σ2 Hs2 Hoth2 Hsh2.
  apply wp_bind. eapply wp_coerce_at; [done|by rewrite columns_coerce|].
  intros σ3 Hs3 Hoth3 Hsh3.
  assert (Hf3 : heap σ3 !! f = Some view).
  { rewrite Hoth3, Hoth2 by done. auto. }
  assert (Hcols : columns (coerce second (coerce first view)) = columns view).
  { by rewrite !columns_coerce; rewrite ?columns_coerce. }
  apply wp_bind. eapply wp_dropna_at; [done| |].
  { intros c [->|[->|[]%elem_of_nil]%elem_of_cons]%elem_of_cons;
      by rewrite Hcols. }
  intros s' σ4 Hfr4 Hs4 [Hext4 Hsh4].
  pose proof (fresh_ne _ _ _ _ Hfr4 Hf3) as Hne4.
  apply wp_bind. eapply wp_getitem; [done| |].
  { unfold dropna. rewrite columns_select, Hcols.
    apply elem_of_cons in Hpc as [->|[->|[]%elem_of_nil]%elem_of_cons]; done. }
  apply wp_bind. eapply wp_update; [done|].
  intros σ5 Hs5 Hoth5 Hsh5. apply wp_ret.
  split; [done|]. split; [|congruence].
  assert (Hk3 : keeps σ σ3).
  { eapply keeps_put; [|exact Hfr1|exact Hoth3].
    eapply keeps_put; [exact Hext1|exact Hfr1|exact Hoth2]. }
  eapply keeps_put; [by eapply keeps_trans| |exact Hoth5].
  by eapply keeps_fresh.
Qed.

(** One half of chart 9. *)
Lemma ranked_at_computes pick tag ic r d σ :
  heap σ !! r = Some d →
  (∀ c, c ∈ ["municipio"; "estado"; ic] → c ∈ columns (pick d)) →
  wp (ranked_at pick tag ic r)
     (λ t σ', heap σ' !! t
              = Some (assign "categoria" (λ _, Text tag)
                        (project ["municipio"; "estado"; ic] (pick d)))
              ∧ heap σ !! t = None ∧ extends σ σ')
     σ.
Proof.
  intros Hr Hc. unfold ranked_at.
  apply wp_bind. eapply wp_derive; [done|].
  intros t1 σ1 Hfr1 Ht1 Hext1.
  apply wp_bind. eapply wp_getitems; [done..|].
  apply wp_bind. eapply wp_derive; [done|].
  intros t2 σ2 Hfr2 Ht2 Hext2.
  apply wp_bind. eapply wp_copy; [done|].
  intros t3 σ3 Hfr3 Ht3 Hext3.
  apply wp_bind. eapply wp_update; [done|].
  intros σ4 Ht4 Hoth4 Hsh4. apply wp_ret.
  pose proof (extends_trans _ _ _ Hext1 (extends_trans _ _ _ Hext2 Hext3))
    as [Hext Hsh].
  assert (Hfr : heap σ !! t3 = None).
  { destruct (heap σ !! t3) as [x|] eqn:Hx; [|done].
    apply Hext1 in Hx. apply Hext2 in Hx. congruence. }
  split; [done|]. split; [done|]. split; [|congruence].
  intros k x Hk. rewrite Hoth4; [auto|].
  intros ->. congruence.
Qed.

(** Chart 9 draws the comparison table of the view, labelled. *)
Lemma chart9_computes inp f view ic σ :
  heap σ !! f = Some view →
  chosen (idh_col inp) = Some ic →
  ic ∈ columns view → "municipio" ∈ columns view → "estado" ∈ columns view →
  wp (chart9 inp f)
     (λ _ σ',
        (∃ c, heap σ' !! c
              = Some (assign "label" label_cell (df_comparison ic view)))
        ∧ heap σ' !! f = Some view
        ∧ shown σ' = shown σ ++ [Chart9])
     σ.
Proof.
  intros Hf Hch Hic Hm He. unfold chart9.
  apply wp_bind. eapply wp_deref; [done|]. rewrite Hch.
  unfold has_col. rewrite bool_decide_eq_true_2 by done.
  apply wp_bind. eapply wp_copy; [done|].
  intros r σ1 Hfr1 Hr1 [Hext1 Hsh1].
  pose proof (fresh_ne _ _ _ _ Hfr1 Hf) as Hne1.
  apply wp_bind. eapply wp_coerce_at; [done..|].
  intros σ2 Hr2 Hoth2 Hsh2.
  assert (Hf2 : heap σ2 !! f = Some view) by (rewrite Hoth2; auto).
  apply wp_bind. eapply wp_dropna_at; [done| |].
  { intros c ->%list_elem_of_singleton. by rewrite columns_coerce. }
  intros r' σ3 Hfr3 Hr3 [Hext3 Hsh3]. fold (df_idh_ranking ic view) in Hr3.
  assert (Hcols : ∀ c, c ∈ ["municipio"; "estado"; ic] →
                       c ∈ columns (df_idh_ranking ic view)).
  { intros c Hc. unfold df_idh_ranking, dropna.
    rewrite columns_select, columns_coerce by done.
    apply elem_of_cons in Hc as [->|Hc]; [done|].
    apply elem_of_cons in Hc as [->|Hc]; [done|].
    by apply list_elem_of_singleton in Hc as ->. }
  apply wp_bind.
  eapply wp_mono; [|by eapply (ranked_at_computes (nlargest 10 ic))].
  intros t σ4 (Ht4 & Hfr4 & Hext4 & Hsh4). cbv beta.
  apply wp_bind.
  eapply wp_mono;
    [|eapply (ranked_at_computes (nsmallest 10 ic));
      [by apply Hext4|done]].
  intros b σ5 (Hb5 & Hfr5 & Hext5 & Hsh5). cbv beta.
  fold (top_10 ic view) in Ht4. fold (bottom_10 ic view) in Hb5.
  apply wp_bind. eapply wp_deref; [by apply Hext5|].
  apply wp_bind. eapply wp_derive; [done|].
  intros c σ6 Hfr6 Hc6 [Hext6 Hsh6]. fold (df_comparison ic view) in Hc6.
  assert (Hf6 : heap σ6 !! f = Some view) by auto 10.
  pose proof (fresh_ne σ5 f c view Hfr6) as Hne6.
  assert (Hin : ∀ x, x ∈ ["municipio"; "estado"; ic] →
                     x ∈ columns (df_comparison ic view)).
  { intros x Hx. unfold df_comparison. apply elem_of_columns_concat_l.
    unfold top_10. by apply elem_of_columns_assign. }
  apply wp_bind. eapply wp_getitem; [done| |].
  { apply Hin, elem_of_cons. by left. }
  apply wp_bind. eapply wp_getitem; [done| |].
  { apply Hin, elem_of_cons. right. apply elem_of_cons. by left. }
  apply wp_bind. eapply wp_update; [done|].
  intros σ7 Hc7 Hoth7 Hsh7.
  apply wp_bind. eapply wp_px_col; [done| |].
  { apply elem_of_columns_assign, Hin.
    do 2 (apply elem_of_cons; right). by apply list_elem_of_singleton. }
  apply wp_bind. eapply wp_px_col; [done|apply elem_of_columns_assign_self|].
  apply wp_bind. eapply wp_px_col; [done| |].
  { apply elem_of_columns_assign. unfold df_comparison.
    apply elem_of_columns_concat_l. unfold top_10.
    apply elem_of_columns_assign_self. }
  apply wp_show; simpl. split; [eauto|]. split; [|congruence].
  rewrite Hoth7; [done|]. apply not_eq_sym, Hne6. auto 10.
Qed.

Lemma elem_of_columns_with_porte labels first second pc view c :
  c ∈ columns view ∨ c = "porte" →
  c ∈ columns (with_porte labels first second pc view).
Proof.
  unfold with_porte. intros [Hc| ->]; [|apply elem_of_columns_assign_self].
  apply elem_of_columns_assign. unfold dropna, coerce.
  rewrite columns_select. by do 2 apply elem_of_columns_assign.
Qed.

Lemma chart2_runs inp f view σ :
  heap σ !! f = Some view →
  (∀ c, chosen (pop_col inp) = Some c → c ∈ columns view) →
  wp (chart2 inp f) (λ _ σ', keeps σ σ') σ.
Proof.
  intros Hf Hpc. unfold chart2.
  apply wp_bind. eapply wp_deref; [done|].
  destruct (chosen (pop_col inp)) as [pc|]; [|apply wp_ret, keeps_refl].
  destruct (has_col "estado" view) eqn:He; [|apply wp_ret, keeps_refl].
  apply bool_decide_eq_true in He.
  apply wp_bind. eapply wp_getitem; [done..|].
  apply wp_bind. eapply wp_getitem; [done|by apply Hpc|].
  apply wp_show, keeps_show, keeps_refl.
Qed.

Lemma chart3_runs inp df f d view σ :
  heap σ !! df = Some d → heap σ !! f = Some view →
  (∀ c, c ∈ columns d → c ∈ columns view) →
  (∀ c, chosen (pop_col inp) = Some c → c ∈ columns view) →
  wp (chart3 inp df f) (λ _ σ', keeps σ σ') σ.
Proof.
  intros Hdf Hf Hsub Hpc. unfold chart3.
  apply wp_bind. eapply wp_deref; [done|].
  destruct (chosen (last (bioma_cols (columns d)))) as [bc|] eqn:Hbc;
    [|apply wp_ret, keeps_refl].
  destruct (chosen (pop_col inp)) as [pc|]; [|apply wp_ret, keeps_refl].
  assert (Hbcv : bc ∈ columns view).
  { apply chosen_truthy in Hbc as [Hlast _]. apply Hsub.
    apply last_Some in Hlast as [l' Hl'].
    assert (Hin : bc ∈ bioma_cols (columns d)).
    { rewrite Hl'. apply elem_of_app. right. by apply list_elem_of_singleton. }
    unfold bioma_cols in Hin. by apply list_elem_of_filter in Hin as [_ ?]. }
  apply wp_bind. eapply wp_copy; [done|].
  intros b σ1 Hfr1 Hb1 [Hext1 Hsh1].
  apply wp_bind. eapply wp_getitem; [done..|].
  apply wp_bind. eapply wp_update; [done|].
  intros σ2 Hb2 Hoth2 Hsh2.
  apply wp_bind. eapply wp_getitem; [done|apply elem_of_columns_assign_self|].
  apply wp_bind.
  eapply wp_getitem; [done|by apply elem_of_columns_assign, Hpc|].
  apply wp_show, keeps_show. by eapply keeps_put.
Qed.

Lemma chart5_runs inp f view σ :
  heap σ !! f = Some view →
  (∀ c, chosen (pib_col inp) = Some c → c ∈ columns view) →
  wp (chart5 inp f) (λ _ σ', keeps σ σ') σ.
Proof.
  intros Hf Hgc. unfold chart5.
  apply wp_bind. eapply wp_deref; [done|].
  destruct (chosen (pib_col inp)) as [gc|]; [|apply wp_ret, keeps_refl].
  destruct (has_col "estado" view) eqn:He; [|apply wp_ret, keeps_refl].
  apply bool_decide_eq_true in He.
  apply wp_bind. eapply wp_copy; [done|].
  intros q σ1 Hfr1 Hq1 [Hext1 Hsh1].
  apply wp_bind. eapply wp_coerce_at; [done|by apply Hgc|].
  intros σ2 Hq2 Hoth2 Hsh2.
  apply wp_bind.
  eapply wp_getitem; [done|by apply elem_of_columns_assign|].
  apply wp_bind.
  eapply wp_getitem; [done|by apply elem_of_columns_assign, Hgc|].
  apply wp_show, keeps_show. by eapply keeps_put.
Qed.

Lemma chart6_runs inp f view σ :
  heap σ !! f = Some view →
  (∀ c, chosen (pop_col inp) = Some c → c ∈ columns view) →
  (∀ c, chosen (pib_col inp) = Some c → c ∈ columns view) →
  wp (chart6 inp f) (λ _ σ', keeps σ σ') σ.
Proof.
  intros Hf Hpc Hgc. unfold chart6.
  destruct (chosen (pop_col inp)) as [pc|]; [|apply wp_ret, keeps_refl].
  destruct (chosen (pib_col inp)) as [gc|]; [|apply wp_ret, keeps_refl].
  apply wp_bind. eapply wp_mono;
    [|eapply (with_porte_at_computes porte_label_6 pc gc pc);
      [done|by apply Hpc|by apply Hgc|apply elem_of_cons; by left]].
  intros s σ1 (Hs1 & Hk1 & Hsh1). cbv beta.
  apply wp_bind. eapply wp_px_col; [done| |].
  { apply elem_of_columns_with_porte. by right. }
  apply wp_bind. eapply wp_px_col; [done| |].
  { apply elem_of_columns_with_porte. left. by apply Hgc. }
  by apply wp_show, keeps_show.
Qed.

Lemma chart7_runs inp f view σ :
  heap σ !! f = Some view →
  (∀ c, chosen (idh_col inp) = Some c → c ∈ columns view) →
  wp (chart7 inp f) (λ _ σ', keeps σ σ') σ.
Proof.
  intros Hf Hic. unfold chart7.
  apply wp_bind. eapply wp_deref; [done|].
  destruct (chosen (idh_col inp)) as [ic|]; [|apply wp_ret, keeps_refl].
  destruct (has_col "estado" view) eqn:He; [|apply wp_ret, keeps_refl].
  apply bool_decide_eq_true in He.
  specialize (Hic ic eq_refl).
  apply wp_bind. eapply wp_copy; [done|].
  intros s σ1 Hfr1 Hs1 [Hext1 Hsh1].
  apply wp_bind. eapply wp_coerce_at; [done..|].
  intros σ2 Hs2 Hoth2 Hsh2.
  assert (Hk2 : keeps σ σ2) by by eapply keeps_put.
  apply wp_bind. eapply wp_dropna_at; [done| |].
  { intros c ->%list_elem_of_singleton. by apply elem_of_columns_assign. }
  intros s' σ3 Hfr3 Hs3 [Hext3 Hsh3].
  assert (Hcol : ∀ c, c ∈ columns view →
                      c ∈ columns (dropna [ic] (coerce ic view))).
  { intros c Hc. unfold dropna. rewrite columns_select.
    by apply elem_of_columns_assign. }
  apply wp_bind. eapply wp_getitem; [done|by apply Hcol|].
  apply wp_bind. eapply wp_getitem; [done|by apply Hcol|].
  apply wp_bind. eapply wp_px_col; [done|by apply Hcol|].
  apply wp_bind. eapply wp_px_col; [done|by apply Hcol|].
  apply wp_show, keeps_show. by eapply keeps_trans.
Qed.

Lemma chart8_runs inp f view σ :
  heap σ !! f = Some view →
  (∀ c, chosen (pop_col inp) = Some c → c ∈ columns view) →
  (∀ c, chosen (idh_col inp) = Some c → c ∈ columns view) →
  wp (chart8 inp f) (λ _ σ', keeps σ σ') σ.
Proof.
  intros Hf Hpc Hic. unfold chart8.
  destruct (chosen (idh_col inp)) as [ic|]; [|apply wp_ret, keeps_refl].
  destruct (chosen (pop_col inp)) as [pc|]; [|apply wp_ret, keeps_refl].
  apply wp_bind. eapply wp_mono;
    [|eapply (with_porte_at_computes porte_label ic pc pc);
      [done|by apply Hic|by apply Hpc|
       apply elem_of_cons; right; by apply list_elem_of_singleton]].
  intros s σ1 (Hs1 & Hk1 & Hsh1). cbv beta.
  apply wp_bind. eapply wp_px_col; [done| |].
  { apply elem_of_columns_with_porte. by right. }
  apply wp_bind. eapply wp_px_col; [done| |].
  { apply elem_of_columns_with_porte. left. by apply Hic. }
  by apply wp_show, keeps_show.
Qed.

(** The sections of charts 2, 3, 5, 6, 7 and 8 end without an exception
    on every view, whichever of the state, municipality, biome or
    coordinate columns it lacks, as long as the selected year columns are
    columns of the view (they are picked from its column list); the tables
    that were there before are left as they were. *)
Theorem guarded_charts_never_raise
    (inp : Inputs) (df f : nat) (d view : DataFrame) (σ : State) :
  heap σ !! df = Some d → heap σ !! f = Some view →
  (∀ c, c ∈ columns d → c ∈ columns view) →
  (∀ sel c, sel ∈ selectors inp → chosen sel = Some c → c ∈ columns view) →
  wp (guarded_charts inp df f) (λ _ σ', keeps σ σ') σ.
Proof.
  intros Hdf Hf Hsub Hsel. unfold guarded_charts.
  assert (Hpc : ∀ c, chosen (pop_col inp) = Some c → c ∈ columns view).
  { intros c. apply Hsel, elem_of_cons. by left. }
  assert (Hgc : ∀ c, chosen (pib_col inp) = Some c → c ∈ columns view).
  { intros c. apply Hsel, elem_of_cons. right. apply elem_of_cons. by left. }
  assert (Hic : ∀ c, chosen (idh_col inp) = Some c → c ∈ columns view).
  { intros c. apply Hsel. do 2 (apply elem_of_cons; right).
    by apply list_elem_of_singleton. }
  apply wp_bind. eapply wp_mono; [|by apply (chart2_runs inp f view)].
  intros ? σ1 H1. cbv beta in H1 |- *.
  apply wp_bind.
  eapply wp_mono; [|apply (chart3_runs inp df f d view); auto].
  intros ? σ2 H2. cbv beta in H2 |- *.
  pose proof (keeps_trans _ _ _ H1 H2) as H12.
  apply wp_bind.
  eapply wp_mono; [|apply (chart5_runs inp f view); auto].
  intros ? σ3 H3. cbv beta in H3 |- *.
  pose proof (keeps_trans _ _ _ H12 H3) as H13.
  apply wp_bind.
  eapply wp_mono; [|apply (chart6_runs inp f view); auto].
  intros ? σ4 H4. cbv beta in H4 |- *.
  pose proof (keeps_trans _ _ _ H13 H4) as H14.
  apply wp_bind.
  eapply wp_mono; [|apply (chart7_runs inp f view); auto].
  intros ? σ5 H5. cbv beta in H5 |- *.
  pose proof (keeps_trans _ _ _ H14 H5) as H15.
  eapply wp_mono; [|apply (chart8_runs inp f view); auto].
  intros ? σ6 H6. by eapply keeps_trans.
Qed.

Lemma wp_fill_if_present_at l c d (Q : unit → State → Prop) σ :
  heap σ !! l = Some d →
  (∀ σ', heap σ' !! l = Some (fill_if_present c d) →
         (∀ k, k ≠ l → heap σ' !! k = heap σ !! k) →
         shown σ' = shown σ → Q () σ') →
  wp (fill_if_present_at l c) Q σ.
Proof.
  intros Hl HQ. unfold fill_if_present_at, fill_if_present in *.
  apply wp_bind. eapply wp_deref; [done|].
  destruct c as [c|]; [|by apply wp_ret, HQ].
  destruct (has_col c d) eqn:Hc; [|by apply wp_ret, HQ].
  eapply wp_coerce_fill_at; [done| |done].
  by apply bool_decide_eq_true in Hc.
Qed.

Lemma wp_px_opt l c d (Q : unit → State → Prop) σ :
  heap σ !! l = Some d → (∀ c', c = Some c' → c' ∈ columns d) → Q () σ →
  wp (px_opt l c) Q σ.
Proof.
  intros Hl Hc HQ. unfold px_opt. destruct c as [c|]; [|done].
  eapply wp_px_col; [done| |done]. by apply Hc.
Qed.

(** The map section draws the geo-cleaned table of the view, then the
    same table with the elevation column. *)
Lemma maps_computes inp f view pc σ :
  heap σ !! f = Some view →
  pop_col inp = Some pc → pc ∈ columns view →
  (∀ ic, idh_col inp = Some ic → ic ∈ columns view) →
  "latitude" ∈ columns view → "longitude" ∈ columns view →
  "municipio" ∈ columns view → "estado" ∈ columns view →
  wp (maps inp f)
     (λ _ σ',
        (∃ m, heap σ' !! m
              = Some (with_pop_norm pc (df_map (Some pc) (idh_col inp) view)))
        ∧ heap σ' !! f = Some view
        ∧ shown σ' = shown σ ++ [Map2D; Map3D])
     σ.
Proof.
  intros Hf Hpop Hpc Hic Hlat Hlon Hm He. unfold maps.
  apply wp_bind. eapply wp_deref; [done|].
  unfold has_col at 1 2. rewrite !bool_decide_eq_true_2 by done. simpl.
  apply wp_bind. eapply wp_copy; [done|].
  intros m σ1 Hfr1 Hm1 [Hext1 Hsh1].
  pose proof (fresh_ne _ _ _ _ Hfr1 Hf) as Hne1.
  apply wp_bind. eapply wp_coerce_at; [done..|].
  intros σ2 Hm2 Hoth2 Hsh2.
  apply wp_bind. eapply wp_coerce_at; [done|by rewrite columns_coerce|].
  intros σ3 Hm3 Hoth3 Hsh3.
  assert (Hf3 : heap σ3 !! f = Some view).
  { rewrite Hoth3, Hoth2 by done. auto. }
  apply wp_bind. eapply wp_dropna_at; [done| |].
  { intros c Hc. do 2 apply elem_of_columns_assign.
    apply elem_of_cons in Hc as [->|Hc]; [done|].
    by apply list_elem_of_singleton in Hc as ->. }
  intros m' σ4 Hfr4 Hm4 [Hext4 Hsh4].
  pose proof (fresh_ne _ _ _ _ Hfr4 Hf3) as Hne4.
  apply wp_bind. eapply wp_fill_if_present_at; [done|].
  intros σ5 Hm5 Hoth5 Hsh5.
  apply wp_bind. eapply wp_fill_if_present_at; [done|].
  intros σ6 Hm6 Hoth6 Hsh6. rewrite Hpop in *.
  fold (df_map (Some pc) (idh_col inp) view) in Hm6.
  assert (Hf6 : heap σ6 !! f = Some view).
  { rewrite Hoth6, Hoth5 by done. auto. }
  assert (Hcol : ∀ c, c ∈ columns view →
                      c ∈ columns (df_map (Some pc) (idh_col inp) view)).
  { intros c. apply columns_df_map. }
  apply wp_bind. eapply wp_px_col; [done|by apply Hcol|].
  apply wp_bind. eapply wp_px_col; [done|by apply Hcol|].
  apply wp_bind. eapply wp_px_opt; [done| |].
  { intros c [= <-]. by apply Hcol. }
  apply wp_bind. eapply wp_px_opt; [done| |].
  { intros c Hc. by apply Hcol, Hic. }
  apply wp_bind. apply wp_show.
  apply wp_bind. eapply wp_deref; [done|].
  unfold has_col. rewrite bool_decide_eq_true_2 by by apply Hcol.
  apply wp_bind. eapply wp_getitem; [done|by apply Hcol|].
  apply wp_bind. eapply wp_update; [done|].
  intros σ7 Hm7 Hoth7 Hsh7. apply wp_show; simpl in *.
  split; [eauto|]. split.
  - rewrite Hoth7 by done. done.
  - rewrite Hsh7, Hsh6, Hsh5, Hsh4, Hsh3, Hsh2, Hsh1.
    by rewrite <-app_assoc.
Qed.

End script_computes.

(** ** Worked examples *)

Section examples.
#[local] Existing Instance int_parser.

(** Instances of C1, at the sparse table.  The municipality of Rio de
    Janeiro has no population: with the threshold at 0 it is in the view,
    with the threshold at 1 it is not.  São Paulo, with 12000000
    inhabitants, is in the view of the threshold 7000000. *)
Lemma population_filter_iff_witness :
  (1%nat ∈ index (df_filtered [] (Some "populacao_estimada_2021") 0
                    sparse_table)
     ↔ 1%nat ∈ index (state_filter [] sparse_table) ∧ 0 ≤ 0)
  ∧ (1%nat ∉ index (df_filtered [] (Some "populacao_estimada_2021") 1
                      sparse_table))
  ∧ (0%nat ∈ index (df_filtered [] (Some "populacao_estimada_2021") 7000000
                      sparse_table)
       ↔ 0%nat ∈ index (state_filter [] sparse_table)
         ∧ fle (of_Z 7000000) (num sp_row "populacao_estimada_2021") = true).
Proof.
  assert (Hc : "populacao_estimada_2021" ∈ pop_cols (columns sparse_table))
    by compute_done.
  assert (Hnd : NoDup (index sparse_table)) by compute_done.
  split; [|split].
  - destruct (population_filter_iff [] "populacao_estimada_2021" 0
                sparse_table 1%nat rj_bare_row Hc Hnd) as [_ Hnan];
      [compute_done|].
    destruct Hnan as [H _]; [compute_done|exact H].
  - destruct (population_filter_iff [] "populacao_estimada_2021" 1
                sparse_table 1%nat rj_bare_row Hc Hnd) as [_ Hnan];
      [compute_done|].
    destruct Hnan as [_ H]; [compute_done|apply H; lia].
  - destruct (population_filter_iff [] "populacao_estimada_2021" 7000000
                sparse_table 0%nat sp_row Hc Hnd) as [Hnum _];
      [compute_done|].
    apply Hnum. compute_done.
Defined.

(** The row without population is in the view at the threshold 0 and out
    of it at the threshold 1; the row with 12000000 stays. *)
Example missing_population_is_zero :
  index (df_filtered [] (Some "populacao_estimada_2021") 0 sparse_table)
  = [0%nat; 1%nat]
  ∧ index (df_filtered [] (Some "populacao_estimada_2021") 1 sparse_table)
    = [0%nat]
  ∧ index (df_filtered [] (Some "populacao_estimada_2021") 12000001
             sparse_table) = [].
Proof. repeat split; by vm_compute. Qed.

(** The scenario of the specification: state SP, threshold 0, one row. *)
Example scenario_filter :
  index (df_filtered [Text "SP"]
           (Some "populacao_estimada_2021") 0 two_city_view) = [0%nat]
  ∧ index (df_top "populacao_estimada_2021" 1
             (df_filtered [Text "SP"]
                (Some "populacao_estimada_2021") 0 two_city_view)) = [0%nat].
Proof. split; by vm_compute. Qed.

(** The columns of the view of SP are those of the two-city table. *)
Lemma filtered_view_keeps_columns_witness :
  columns (df_filtered [Text "SP"] (Some "populacao_estimada_2021") 0
             two_city_view) = columns two_city_view
  ∧ index (df_filtered [Text "SP"] (Some "populacao_estimada_2021") 0
             two_city_view) `sublist_of` index two_city_view.
Proof.
  apply (filtered_view_keeps_columns [Text "SP"]
           (Some "populacao_estimada_2021") 0 two_city_view).
  intros c [= <-]. compute_done.
Defined.

(** The state filter compares raw cells: lower case does not match. *)
Example state_filter_is_exact :
  index (state_filter [Text "sp"] two_city_view) = [].
Proof. by vm_compute. Qed.

(** An instance of C4: with SP selected, every row of the view is an SP
    row. *)
Lemma state_filter_membership_witness :
  state_filter [] two_city_view = two_city_view
  ∧ ([Text "SP"] ≠ [] → "estado" ∈ columns two_city_view →
     ∀ i r, (i, r) ∈ rows (df_filtered [Text "SP"]
                             (Some "populacao_estimada_2021") 0 two_city_view) →
            cell r "estado" ∈ [Text "SP"]).
Proof.
  apply (state_filter_membership [Text "SP"]
           (Some "populacao_estimada_2021") 0 two_city_view).
  intros c [= <-]. compute_done.
Defined.

(** C8, as stated, fails: in the view of RJ alone the only population on
    the map is missing, read as 0, the division is 0/0, the elevation is
    NaN, and the largest elevation is not 500000. *)
Lemma elevation_zero_max_counterexample :
  index (df_filtered [Text "RJ"] (Some "populacao_estimada_2021") 0
           sparse_table) = [1%nat]
  ∧ index (df_map (Some "populacao_estimada_2021") (Some "idh_2010")
             (df_filtered [Text "RJ"] (Some "populacao_estimada_2021") 0
                sparse_table)) = [1%nat]
  ∧ col_max "pop_norm"
      (with_pop_norm "populacao_estimada_2021"
         (df_map (Some "populacao_estimada_2021") (Some "idh_2010")
            (df_filtered [Text "RJ"] (Some "populacao_estimada_2021") 0
               sparse_table)))
    = NaN
  ∧ col_max "pop_norm"
      (with_pop_norm "populacao_estimada_2021"
         (df_map (Some "populacao_estimada_2021") (Some "idh_2010")
            (df_filtered [Text "RJ"] (Some "populacao_estimada_2021") 0
               sparse_table)))
    ≠ of_Z 500000.
Proof. repeat split; by vm_compute. Qed.

(** An instance of C8 (amended): on the two-city table the maximum
    population is 12000000, and the largest elevation is 500000. *)
Lemma geo_cleaning_and_elevation_witness :
  "populacao_estimada_2021" ∈ columns two_city_view
  ∧ col_max "pop_norm"
      (with_pop_norm "populacao_estimada_2021"
         (df_map (Some "populacao_estimada_2021")
            (Some "idh_2010") two_city_view))
    = of_Z 500000.
Proof.
  assert (Hc : "populacao_estimada_2021" ∈ columns two_city_view)
    by compute_done.
  assert (Hn : NoDup (index two_city_view)) by compute_done.
  split; [exact Hc|].
  destruct (geo_cleaning_and_elevation
              "populacao_estimada_2021" (Some "idh_2010") two_city_view Hc Hn)
    as (_ & _ & _ & Hmax).
  apply (Hmax (Qc_of_Z 12000000)).
  - by vm_compute.
  - by vm_compute.
Defined.



(** The filter stage of the first run on the two-city table. *)
Lemma filter_stage_computes_witness :
  heap (mkState [two_city_view] []) !! 0%nat = Some two_city_view
  ∧ wp (filter_stage full_inputs 0)
       (λ f σ',
          heap σ' !! f
          = Some (df_filtered (estado_sel full_inputs) (pop_col full_inputs)
                    (min_pop full_inputs) two_city_view)
          ∧ f ≠ 0%nat ∧ heap σ' !! 0%nat = Some two_city_view
          ∧ shown σ' = [])
       (mkState [two_city_view] []).
Proof.
  assert (H : heap (mkState [two_city_view] []) !! 0%nat = Some two_city_view)
    by reflexivity.
  split; [exact H|].
  apply (filter_stage_computes full_inputs 0 two_city_view
           (mkState [two_city_view] []) H).
  intros pc Hpc. vm_compute in Hpc. injection Hpc as <-. compute_done.
Defined.

(** On a table with nothing but the three year columns the guarded
    sections run to their end: charts 6 and 8 are drawn, the others are
    skipped. *)
Example bare_table_run :
  (guarded_charts bare_inputs 0 0 (mkState [bare_table] [])).1 = Ok ()
  ∧ shown (guarded_charts bare_inputs 0 0 (mkState [bare_table] [])).2
    = [Chart6; Chart8].
Proof. split; by vm_compute. Qed.

(** The guarded sections on the bare table. *)
Lemma guarded_charts_never_raise_witness :
  heap (mkState [bare_table] []) !! 0%nat = Some bare_table
  ∧ wp (guarded_charts bare_inputs 0 0)
       (λ _ σ', keeps (mkState [bare_table] []) σ')
       (mkState [bare_table] []).
Proof.
  assert (H : heap (mkState [bare_table] []) !! 0%nat = Some bare_table)
    by reflexivity.
  split; [exact H|].
  apply (guarded_charts_never_raise bare_inputs 0 0 bare_table bare_table
           (mkState [bare_table] []) H H).
  - auto.
  - intros sel c Hsel Hc. unfold selectors in Hsel.
    repeat (apply elem_of_cons in Hsel as [->|Hsel];
            [vm_compute in Hc; injection Hc as <-; compute_done|]).
    by apply elem_of_nil in Hsel.
Defined.

(** C3: the HDI list is not sorted.  On a table whose HDI columns are not
    in year order, [idh_cols] keeps the column order (2010 before 2000),
    where the list built by [available_year_cols] for the same prefix is in
    year order. *)
Lemma idh_cols_keep_column_order :
  idh_cols ["idh_2010"; "idh_2000"] = ["idh_2010"; "idh_2000"]
  ∧ year_of "idh_2010" = 2010 ∧ year_of "idh_2000" = 2000
  ∧ last (idh_cols ["idh_2010"; "idh_2000"]) = Some "idh_2000"
  ∧ available_year_cols ["idh_2010"; "idh_2000"] "idh"
    = ["idh_2000"; "idh_2010"].
Proof. repeat split; by vm_compute. Qed.

(** C6: a missing state column is an error, not a skipped chart.  On a
    table with a municipality and a population column and no state column
    the guard of chart 1 passes, the label then reads the state column,
    and the run ends with [KeyError] before anything is shown. *)
Lemma missing_state_column_raises :
  (script no_state_inputs 0 (mkState [no_state_table] [])).1
  = Raise (KeyError "estado")
  ∧ shown (script no_state_inputs 0 (mkState [no_state_table] [])).2 = [].
Proof. split; by vm_compute. Qed.

(** On the two-city table the first run shows every figure but the biome
    chart (the table has no biome column) and builds 25 tables beside the
    loaded one. *)
Example two_city_run :
  (script full_inputs 0 (mkState [two_city_view] [])).1 = Ok ()
  ∧ shown (script full_inputs 0 (mkState [two_city_view] [])).2
    = [Download; Chart1; Chart2; Chart4; Chart5; Chart6; Chart7; Chart8;
       Chart9; Map2D; Map3D]
  ∧ length (heap (script full_inputs 0 (mkState [two_city_view] [])).2)
    = 26%nat.
Proof. repeat split; by vm_compute. Qed.

(** An instance of C9, at the two-city table: after both runs the table at
    position 0 is the table as loaded. *)
Lemma loaded_table_never_mutated_witness :
  heap (mkState [two_city_view] []) !! 0%nat = Some two_city_view
  ∧ heap (session two_city_session 0 (mkState [two_city_view] [])) !! 0%nat
    = Some two_city_view.
Proof.
  assert (H : heap (mkState [two_city_view] []) !! 0%nat = Some two_city_view)
    by reflexivity.
  split; [exact H|].
  apply (loaded_table_never_mutated two_city_session 0 two_city_view
           (mkState [two_city_view] []) H).
Defined.

End examples.
(** * Further properties of the pipeline *)

(** ** The filter stage as an operation on views *)

Lemma filter_sublist_mono {A} (P Q : A → Prop)
    `{!∀ x, Decision (P x), !∀ x, Decision (Q x)} (l1 l2 : list A) :
  (∀ x, P x → Q x) → l1 `sublist_of` l2 →
  filter P l1 `sublist_of` filter Q l2.
Proof.
  intros HPQ. induction 1 as [|x l1 l2 Hl IH|x l1 l2 Hl IH].
  - done.
  - rewrite !filter_cons. destruct (decide (P x)) as [HP|HP].
    + rewrite decide_True by auto. by apply sublist_skip.
    + destruct (decide (Q x)); [by apply sublist_cons|done].
  - rewrite filter_cons. destruct (decide (Q x)); [by apply sublist_cons|done].
Qed.

Lemma filter_all {A} (P : A → Prop) `{!∀ x, Decision (P x)} (l : list A) :
  Forall P l → filter P l = l.
Proof.
  induction 1 as [|x l Hx Hl IH]; [done|].
  by rewrite filter_cons_True, IH.
Qed.

Lemma fmap_fixed {A} (f : A → A) (l : list A) :
  Forall (λ x, f x = x) l → f <$> l = l.
Proof. induction 1 as [|x l Hx Hl IH]; [done|]. by rewrite fmap_cons, Hx, IH. Qed.

Section filter_composition.
Context {parser : NumberParser}.

Lemma fge_of_Z_mono x t1 t2 :
  t1 ≤ t2 → fge x (of_Z t2) = true → fge x (of_Z t1) = true.
Proof.
  unfold fge. intros Ht H2. eapply fle_trans; [|exact H2]. by apply fle_of_Z.
Qed.

Lemma rows_pop_filter_sublist pc t1 t2 cols l1 l2 :
  t1 ≤ t2 → l1 `sublist_of` l2 →
  rows (pop_filter pc t2 (mkDF cols l1))
    `sublist_of` rows (pop_filter pc t1 (mkDF cols l2)).
Proof.
  intros Ht Hl. unfold pop_filter. destruct pc as [c|]; [|done].
  destruct (truthy (Some c)); [|done].
  unfold select, coerce, assign; simpl.
  apply filter_sublist_mono; [|by apply fmap_sublist].
  intros [i r]; simpl. by apply fge_of_Z_mono.
Qed.

(** Raising the population threshold only removes rows: the view at the
    higher threshold is a sub-list of the view at the lower one, rows and
    order kept. *)
Theorem threshold_monotone
    (S : list Cell) (pc : option string) (t1 t2 : Z) (df : DataFrame) :
  t1 ≤ t2 →
  rows (df_filtered S pc t2 df) `sublist_of` rows (df_filtered S pc t1 df)
  ∧ (len (df_filtered S pc t2 df) ≤ len (df_filtered S pc t1 df))%nat.
Proof.
  intros Ht.
  assert (H : rows (df_filtered S pc t2 df)
                `sublist_of` rows (df_filtered S pc t1 df)).
  { unfold df_filtered. destruct (state_filter S df) as [cols l].
    by apply rows_pop_filter_sublist. }
  split; [exact H|]. unfold len. by apply sublist_length.
Qed.

Lemma rows_state_filter_sublist S S' df :
  S ≠ [] → S ⊆ S' →
  rows (state_filter S df) `sublist_of` rows (state_filter S' df)
  ∧ columns (state_filter S df) = columns (state_filter S' df).
Proof.
  intros HS Hsub.
  assert (HS' : S' ≠ []).
  { destruct S as [|x S]; [done|]. intros ->.
    by apply (not_elem_of_nil x), Hsub, elem_of_cons; left. }
  rewrite !columns_state_filter. split; [|done].
  unfold state_filter.
  rewrite (bool_decide_eq_false_2 _ HS), (bool_decide_eq_false_2 _ HS').
  simpl. destruct (has_col "estado" df); [|done].
  unfold select; simpl. apply filter_sublist_mono; [|done].
  intros [i r]; simpl. unfold isin. rewrite !bool_decide_eq_true. apply Hsub.
Qed.

(** Selecting more states only adds rows, as long as some state was
    selected to begin with; an empty selection is not the smallest but the
    largest one (it filters nothing). *)
Theorem state_selection_monotone
    (S S' : list Cell) (pc : option string) (t : Z) (df : DataFrame) :
  S ≠ [] → S ⊆ S' →
  rows (df_filtered S pc t df) `sublist_of` rows (df_filtered S' pc t df)
  ∧ rows (df_filtered S' pc t df) `sublist_of` rows (df_filtered [] pc t df).
Proof.
  intros HS Hsub.
  destruct (rows_state_filter_sublist S S' df HS Hsub) as [Hr Hc].
  unfold df_filtered. split.
  - destruct (state_filter S df) as [cols l],
      (state_filter S' df) as [cols' l']; simpl in *. subst cols'.
    by apply rows_pop_filter_sublist.
  - clear Hr Hc. pose proof (columns_state_filter S' df) as Hc'.
    assert (Hr' : rows (state_filter S' df) `sublist_of` rows df).
    { unfold state_filter. case_match; [|done]. apply sublist_filter. }
    rewrite state_filter_empty.
    destruct (state_filter S' df) as [cols' l'], df as [cols l]; simpl in *.
    subst cols'. by apply rows_pop_filter_sublist.
Qed.


Lemma table_eq (d1 d2 : DataFrame) :
  columns d1 = columns d2 → rows d1 = rows d2 → d1 = d2.
Proof. destruct d1, d2; simpl. by intros -> ->. Qed.

Lemma select_fixed p d :
  Forall (λ ir : nat * Row, p ir.2 = true) (rows d) → select p d = d.
Proof.
  intros H. apply table_eq; [done|]. unfold select; simpl. by apply filter_all.
Qed.

Lemma state_filter_fixed S d :
  (S ≠ [] → "estado" ∈ columns d →
   Forall (λ ir : nat * Row, cell ir.2 "estado" ∈ S) (rows d)) →
  state_filter S d = d.
Proof.
  intros H. unfold state_filter, has_col.
  destruct (decide (S = [])) as [->|HS]; [done|].
  rewrite (bool_decide_eq_false_2 _ HS); simpl.
  case_bool_decide as Hc; [|done].
  apply select_fixed. eapply Forall_impl; [by apply H|].
  intros [i r] Hr; simpl in *. unfold isin. by rewrite bool_decide_eq_true.
Qed.

Lemma coerce_fixed c d :
  c ∈ columns d →
  Forall (λ ir : nat * Row, ir.2 !! c = Some (Num (num ir.2 c))) (rows d) →
  coerce c d = d.
Proof.
  intros Hc H. apply table_eq.
  - unfold coerce. by apply columns_assign_present.
  - unfold coerce, assign; simpl. apply fmap_fixed.
    eapply Forall_impl; [exact H|]. intros [i r] Hr; simpl in *.
    by rewrite insert_id.
Qed.

(** What the filter stage does to a row it keeps: nothing but the
    conversion of the selected population column. *)
Lemma rows_df_filtered S pc t df i r' :
  (∀ c, pc = Some c → c ∈ pop_cols (columns df)) →
  (i, r') ∈ rows (df_filtered S pc t df) →
  ∃ r, (i, r) ∈ rows (state_filter S df)
       ∧ match pc with
         | Some c => r' = <[c := Num (num r c)]> r
                     ∧ fge (pop0 c r) (of_Z t) = true
         | None => r' = r
         end.
Proof.
  intros Hpc Hr. unfold df_filtered in Hr. destruct pc as [c|]; [|eauto].
  destruct (pop_cols_spec _ _ (Hpc c eq_refl)) as (_ & _ & Hne).
  apply elem_of_rows_pop_filter in Hr as (r & Hr & -> & Hp); eauto.
Qed.

(** The view differs from the loaded table in one column only: a kept row
    is a row of the table under the same label, with the selected
    population column replaced by its numeric reading (a text that does
    not parse becomes missing) and every other cell as it was; labels stay
    unique.  The export writes this view, so it writes the converted
    column. *)
Theorem filter_rewrites_only_population
    (S : list Cell) (pc : option string) (t : Z) (df : DataFrame) :
  (∀ c, pc = Some c → c ∈ pop_cols (columns df)) →
  (∀ i r', (i, r') ∈ rows (df_filtered S pc t df) →
     ∃ r, (i, r) ∈ rows df
          ∧ (∀ c, pc = Some c → r' !! c = Some (Num (num r c)))
          ∧ (∀ c', pc ≠ Some c' → r' !! c' = r !! c'))
  ∧ (NoDup (index df) → NoDup (index (df_filtered S pc t df))).
Proof.
  intros Hpc. split.
  - intros i r' Hr.
    destruct (rows_df_filtered S pc t df i r' Hpc Hr) as (r & Hr0 & Hrr).
    apply elem_of_rows_state_filter in Hr0 as [Hr0 _].
    exists r. split; [done|]. destruct pc as [c|].
    + destruct Hrr as [-> _]. split.
      * intros c0 [= <-]. by rewrite lookup_insert_eq.
      * intros c' Hc'. rewrite lookup_insert_ne; [done|congruence].
    + subst r'. split; [by intros c [=]|done].
  - intros Hnd. eapply sublist_NoDup; [exact Hnd|].
    unfold df_filtered, pop_filter. destruct pc as [c|];
      [|apply index_state_filter_sublist].
    case_match; [|apply index_state_filter_sublist].
    etrans; [apply index_select_sublist|].
    unfold coerce. rewrite index_assign. apply index_state_filter_sublist.
Qed.

(** Filtering the view again with the same widget values gives the view
    back: the stage is idempotent, conversion included. *)
Theorem filter_stage_idempotent
    (S : list Cell) (pc : option string) (t : Z) (df : DataFrame) :
  (∀ c, pc = Some c → c ∈ pop_cols (columns df)) →
  df_filtered S pc t (df_filtered S pc t df) = df_filtered S pc t df.
Proof.
  intros Hpc.
  assert (Hcols : columns (df_filtered S pc t df) = columns df).
  { apply columns_df_filtered. intros c Hc. by apply pop_cols_spec, Hpc. }
  assert (Hst : state_filter S (df_filtered S pc t df) = df_filtered S pc t df).
  { apply state_filter_fixed. intros HS He. rewrite Hcols in He.
    rewrite Forall_forall. intros [i r'] Hr; simpl.
    destruct (rows_df_filtered S pc t df i r' Hpc Hr) as (r & Hr0 & Hrr).
    apply elem_of_rows_state_filter in Hr0 as [_ [?|[?|Hin]]]; [done..|].
    destruct pc as [c|]; [|by subst].
    destruct (pop_cols_spec _ _ (Hpc c eq_refl)) as (_ & Hce & _).
    destruct Hrr as [-> _]. by rewrite cell_insert_ne. }
  unfold df_filtered at 1. rewrite Hst.
  destruct pc as [c|]; [|done].
  destruct (pop_cols_spec _ _ (Hpc c eq_refl)) as (Hc & _ & Hne).
  set (v := df_filtered S (Some c) t df) in *.
  assert (Hco : coerce c v = v).
  { apply coerce_fixed; [by rewrite Hcols|].
    rewrite Forall_forall. intros [i r'] Hr; simpl.
    destruct (rows_df_filtered S _ t df i r' Hpc Hr) as (r & _ & -> & _).
    by rewrite num_insert_eq, lookup_insert_eq. }
  unfold pop_filter, truthy. rewrite (bool_decide_eq_false_2 _ Hne); cbn [negb].
  rewrite Hco. apply select_fixed.
  rewrite Forall_forall. intros [i r'] Hr; simpl.
  destruct (rows_df_filtered S _ t df i r' Hpc Hr) as (r & _ & -> & Hp).
  by rewrite pop0_coerced.
Qed.

End filter_composition.

(** ** Chart 9: the two halves of the ranking *)

Lemma sort_by_id {A} (le : A → A → bool) (l : list A) :
  StronglySorted (λ a b, le a b = true) l → sort_by le l = l.
Proof.
  induction 1 as [|x l Hl IH Hx]; simpl; [done|].
  rewrite IH. destruct l as [|y l]; [done|]. simpl.
  apply Forall_cons in Hx as [-> _]. done.
Qed.

Lemma StronglySorted_const {A} (R : A → A → Prop) (l : list A) :
  (∀ a b, a ∈ l → b ∈ l → R a b) → StronglySorted R l.
Proof.
  induction l as [|x l IH]; intros H; constructor.
  - apply IH. intros a b Ha Hb. apply H; by right.
  - rewrite Forall_forall. intros y Hy. apply H; [by left|by right].
Qed.


Lemma idh_cols_spec cols c :
  c ∈ idh_cols cols →
  c ∈ cols ∧ c ≠ "municipio" ∧ c ≠ "estado" ∧ c ≠ "categoria".
Proof.
  unfold idh_cols. rewrite list_elem_of_filter. intros [Hp Hc].
  split; [done|]. repeat split; intros ->; discriminate Hp.
Qed.

Section ranking_halves.
Context {parser : NumberParser}.

Lemma rows_ranking ic view i r :
  (i, r) ∈ rows (df_idh_ranking ic view)
  ↔ ∃ r0, (i, r0) ∈ rows view ∧ num r0 ic ≠ NaN
          ∧ r = <[ic := Num (num r0 ic)]> r0.
Proof.
  unfold df_idh_ranking. rewrite elem_of_rows_dropna. split.
  - intros [(r0 & Hr0 & ->)%elem_of_rows_coerce Hc]. exists r0.
    split; [done|]. split; [|done].
    intros Hn. apply (Hc ic); [by left|]. by rewrite cell_insert_eq, Hn.
  - intros (r0 & Hr0 & Hn & ->). split; [apply elem_of_rows_coerce; eauto|].
    intros c ->%list_elem_of_singleton. rewrite cell_insert_eq. congruence.
Qed.

Lemma ranking_not_nan ic view :
  Forall (λ ir : nat * Row, num ir.2 ic ≠ NaN) (rows (df_idh_ranking ic view)).
Proof.
  rewrite Forall_forall. intros [i r] (r0 & _ & Hn & ->)%rows_ranking; simpl.
  by rewrite num_insert_eq.
Qed.

Lemma rows_tagged tag ic d :
  rows (assign "categoria" (λ _, Text tag)
          (project ["municipio"; "estado"; ic] d))
  = (λ ir : nat * Row, (ir.1, tagged tag ic ir.2)) <$> rows d.
Proof. unfold assign, project; simpl. by rewrite <-list_fmap_compose. Qed.

Lemma num_tagged tag ic r :
  ic ≠ "categoria" → num (tagged tag ic r) ic = num r ic.
Proof.
  intros Hne. unfold num, tagged.
  rewrite cell_insert_ne by done. rewrite cell_project; [done|].
  set_solver.
Qed.



Lemma nsmallest_split n c d :
  rows (nsmallest n c d) ++ nsmallest_rest n c d ≡ₚ rows d.
Proof.
  rewrite nsmallest_rows. unfold nsmallest_rest.
  by rewrite take_drop, sort_by_perm.
Qed.

Lemma nsmallest_dominates n c d a b :
  a ∈ rows (nsmallest n c d) → b ∈ nsmallest_rest n c d →
  asc_le (num a.2 c) (num b.2 c) = true.
Proof.
  intros Ha Hb.
  eapply (StronglySorted_app_between
            (λ a b : nat * Row, asc_le (num a.2 c) (num b.2 c) = true)); [|done..].
  rewrite nsmallest_rows. unfold nsmallest_rest. rewrite take_drop.
  apply (sort_by_sorted (λ a b : nat * Row, asc_le (num a.2 c) (num b.2 c))).
  - intros x y. apply asc_le_total.
  - intros x y z. apply asc_le_trans.
Qed.


Lemma filter_none {A} (P : A → Prop) `{!∀ x, Decision (P x)} (l : list A) :
  Forall (λ x, ¬ P x) l → filter P l = [].
Proof.
  induction 1 as [|x l Hx Hl IH]; [done|].
  by rewrite filter_cons_False, IH.
Qed.

Lemma sort_by_constant {A} (le : A → A → bool) (l : list A) :
  (∀ a b, a ∈ l → b ∈ l → le a b = true) → sort_by le l = l.
Proof. intros H. by apply sort_by_id, StronglySorted_const. Qed.

(** With twenty or more ranked rows, no row of the best half has a smaller
    metric than a row of the worst half. *)
Theorem best_dominate_worst (ic : string) (view : DataFrame) :
  ic ∈ idh_cols (columns view) →
  (20 ≤ len (df_idh_ranking ic view))%nat →
  ∀ i a j b, (i, a) ∈ rows (top_10 ic view) →
             (j, b) ∈ rows (bottom_10 ic view) →
             fle (num b ic) (num a ic) = true.
Proof.
  intros Hic Hlen i a j b.
  destruct (idh_cols_spec _ _ Hic) as (_ & _ & _ & Hcat).
  set (R := df_idh_ranking ic view) in *.
  pose proof (ranking_not_nan ic view) as Hnn. fold R in Hnn.
  rewrite Forall_forall in Hnn.
  unfold top_10, bottom_10. fold R. rewrite !rows_tagged.
  intros ([i' ra] & [= -> ->] & Ha)%list_elem_of_fmap
         ([j' rb] & [= -> ->] & Hb)%list_elem_of_fmap.
  rewrite !num_tagged by done.
  assert (Hna : num ra ic ≠ NaN).
  { by apply (Hnn (i', ra)), (rows_nlargest_subseteq 10 ic R). }
  assert (Hnb : num rb ic ≠ NaN).
  { by apply (Hnn (j', rb)), (rows_nsmallest_subseteq 10 ic R). }
  destruct (fle (num rb ic) (num ra ic)) eqn:Hba; [done|exfalso].
  set (P := λ x : nat * Row, fle (num x.2 ic) (num ra ic) = false).
  (* the rows above [a]: all of them are in the best half, with [a] *)
  assert (H1 : (length (filter P (rows R)) < 10)%nat).
  { rewrite <-(nlargest_split 10 ic R), filter_app, length_app.
    assert (Hrest : filter P (nlargest_rest 10 ic R) = []).
    { apply filter_none. rewrite Forall_forall. intros x Hx HP.
      pose proof (nlargest_dominates _ _ _ _ _ Ha Hx) as Hd. simpl in Hd.
      rewrite desc_le_fle in Hd; [congruence|done|].
      apply Hnn. rewrite <-(nlargest_split 10 ic R). apply elem_of_app. auto. }
    rewrite Hrest. cbn [length].
    pose proof (length_filter_lt P _ _ Ha) as Hlt.
    pose proof (nlargest_len 10 ic R) as Hl. unfold len in Hl.
    assert (¬ P (i', ra)) as HnP.
    { unfold P; simpl. by rewrite fle_refl. }
    specialize (Hlt HnP). lia. }
  (* the rows outside the worst half: all of them are above [a] *)
  assert (H2 : (10 ≤ length (filter P (rows R)))%nat).
  { rewrite <-(nsmallest_split 10 ic R), filter_app, length_app.
    assert (Hrest : filter P (nsmallest_rest 10 ic R) = nsmallest_rest 10 ic R).
    { apply filter_all. rewrite Forall_forall. intros x Hx. unfold P.
      pose proof (nsmallest_dominates _ _ _ _ _ Hb Hx) as Hd. simpl in Hd.
      rewrite asc_le_fle in Hd; [|done|].
      - destruct (fle (num x.2 ic) (num ra ic)) eqn:Hxa; [|done].
        by rewrite (fle_trans _ _ _ Hd Hxa) in Hba.
      - apply Hnn. rewrite <-(nsmallest_split 10 ic R). apply elem_of_app. auto. }
    rewrite Hrest.
    pose proof (nsmallest_split 10 ic R) as Hs.
    apply Permutation_length in Hs. rewrite length_app in Hs.
    pose proof (nsmallest_len 10 ic R) as Hl. unfold len in *. lia. }
  lia.
Qed.

(** When every ranked row has the same metric, the two halves hold the
    same rows, the first ten of the ranking table: twenty rows or more do
    not make the best and the worst differ. *)
Theorem equal_metric_halves_coincide (ic : string) (view : DataFrame) :
  (∀ i a j b, (i, a) ∈ rows view → (j, b) ∈ rows view →
     num a ic ≠ NaN → num b ic ≠ NaN → num a ic = num b ic) →
  index (top_10 ic view) = take 10 (index (df_idh_ranking ic view))
  ∧ index (bottom_10 ic view) = index (top_10 ic view).
Proof.
  intros Heq.
  set (R := df_idh_ranking ic view).
  pose proof (ranking_not_nan ic view) as Hnn. fold R in Hnn.
  rewrite Forall_forall in Hnn.
  assert (Hsame : ∀ x y, x ∈ rows R → y ∈ rows R →
            fle (num x.2 ic) (num y.2 ic) = true).
  { intros [i a] [j b] Ha Hb; simpl.
    pose proof (Hnn _ Ha) as Hna. simpl in Hna.
    apply rows_ranking in Ha as (a0 & Ha0 & Hn0 & ->).
    apply rows_ranking in Hb as (b0 & Hb0 & Hm0 & ->).
    rewrite !num_insert_eq in *.
    rewrite (Heq i a0 j b0) by done. by apply fle_refl. }
  assert (Hl : rows (nlargest 10 ic R) = take 10 (rows R)).
  { rewrite nlargest_rows. f_equal. apply sort_by_constant.
    intros x y Hx Hy. rewrite desc_le_fle by auto. auto. }
  assert (Hs : rows (nsmallest 10 ic R) = take 10 (rows R)).
  { rewrite nsmallest_rows. f_equal. apply sort_by_constant.
    intros x y Hx Hy. rewrite asc_le_fle by auto. auto. }
  unfold top_10, bottom_10. fold R.
  rewrite !index_assign, !index_project. unfold index.
  by rewrite Hl, Hs, fmap_take.
Qed.

End ranking_halves.

(** ** The sidebar *)





Lemma split_no_underscore s :
  has_underscore s = false → split_underscore s = [s] ∧ rsplit_last s = s.
Proof.
  induction s as [|a s IH]; simpl; [done|].
  destruct (decide (a = underscore)); [done|]. intros H.
  destruct (IH H) as [-> _]. by rewrite H.
Qed.

Lemma split_with_underscore s :
  has_underscore s = true → ∃ p q qs, split_underscore s = p :: q :: qs.
Proof.
  induction s as [|a s IH]; simpl; [done|].
  destruct (decide (a = underscore)) as [_|Hne].
  - intros _. destruct (has_underscore s) eqn:Hu.
    + destruct (IH eq_refl) as (p & q & qs & ->). eauto.
    + destruct (split_no_underscore s Hu) as [-> _]. eauto.
  - intros Hu. destruct (IH Hu) as (p & q & qs & ->). eauto.
Qed.

Lemma rsplit_last_spec s :
  has_underscore (rsplit_last s) = false
  ∧ (has_underscore s = false → rsplit_last s = s)
  ∧ (has_underscore s = true → ∃ p, s = p +:+ "_" +:+ rsplit_last s).
Proof.
  induction s as [|a s IH]; [done|]. simpl.
  destruct IH as (Hno & Hsame & Hsplit).
  destruct (has_underscore s) eqn:Hu.
  - split; [done|]. split; [by destruct (decide (a = underscore))|].
    intros _. destruct (Hsplit eq_refl) as [p Hp].
    exists (String a p). exact (f_equal (String a) Hp).
  - destruct (decide (a = underscore)) as [->|Hne].
    + split; [done|]. split; [done|]. intros _. by exists "".
    + split; [|done]. simpl. by rewrite decide_False, Hu.
Qed.

(** The year printed in the titles, [c.split("_")[-1]], is for every
    column name the text column discovery reads the year from,
    [c.rsplit("_", 1)[-1]]: the lookup never fails, and the text is what
    follows the last underscore of the name, the whole name when it has
    none. *)
Theorem title_year_is_sort_key (c : string) :
  title_year c = Some (rsplit_last c)
  ∧ has_underscore (rsplit_last c) = false
  ∧ (has_underscore c = false → rsplit_last c = c)
  ∧ (has_underscore c = true → ∃ p, c = p +:+ "_" +:+ rsplit_last c).
Proof.
  split; [|apply rsplit_last_spec].
  unfold title_year. induction c as [|a s IH]; [done|]. simpl.
  destruct (has_underscore s) eqn:Hu.
  - destruct (split_with_underscore s Hu) as (p & q & qs & Hs).
    rewrite Hs in IH |- *.
    destruct (decide (a = underscore)); by rewrite !last_cons_cons in *.
  - destruct (split_no_underscore s Hu) as [-> _].
    by destruct (decide (a = underscore)).
Qed.

(** *** The state options *)

Lemma ascii_compare_lt_trans a b c :
  Ascii.compare a b = Lt → Ascii.compare b c = Lt → Ascii.compare a c = Lt.
Proof. unfold Ascii.compare. rewrite !N.compare_lt_iff. lia. Qed.

Lemma string_compare_lt_trans s1 s2 s3 :
  String.compare s1 s2 = Lt → String.compare s2 s3 = Lt →
  String.compare s1 s3 = Lt.
Proof.
  revert s2 s3. induction s1 as [|a s1 IH]; intros [|b s2] [|c s3]; simpl;
    try done.
  destruct (Ascii.compare a b) eqn:Hab; try done;
    destruct (Ascii.compare b c) eqn:Hbc; try done.
  - apply Ascii.compare_eq_iff in Hab as ->, Hbc as ->.
    assert (Ascii.compare c c = Eq) as -> by apply N.compare_refl. apply IH.
  - apply Ascii.compare_eq_iff in Hab as ->. by rewrite Hbc.
  - apply Ascii.compare_eq_iff in Hbc as <-. by rewrite Hab.
  - by rewrite (ascii_compare_lt_trans a b c).
Qed.

Lemma string_compare_refl s : String.compare s s = Eq.
Proof.
  induction s as [|a s IH]; simpl; [done|].
  assert (Ascii.compare a a = Eq) as -> by apply N.compare_refl. done.
Qed.

Lemma string_leb_trans s1 s2 s3 :
  String.leb s1 s2 = true → String.leb s2 s3 = true → String.leb s1 s3 = true.
Proof.
  unfold String.leb.
  destruct (String.compare s1 s2) eqn:H12; try done;
    destruct (String.compare s2 s3) eqn:H23; try done; intros _ _.
  - apply String.compare_eq_iff in H12 as ->. by rewrite H23.
  - apply String.compare_eq_iff in H12 as ->. by rewrite H23.
  - apply String.compare_eq_iff in H23 as <-. by rewrite H12.
  - by rewrite (string_compare_lt_trans s1 s2 s3).
Qed.

Lemma cell_le_trans a b c :
  cell_le a b = true → cell_le b c = true → cell_le a c = true.
Proof.
  destruct a, b, c; simpl; try done; [apply fle_trans|apply string_leb_trans].
Qed.

Lemma cell_le_antisym a b :
  cell_le a b = true → cell_le b a = true → a = b.
Proof.
  destruct a, b; simpl; try done; intros H1 H2; f_equal.
  - by apply fle_antisym.
  - by apply String.leb_antisym.
Qed.

Lemma cell_le_total a b :
  is_text a = is_text b → isna_cell a = false → isna_cell b = false →
  cell_le a b = true ∨ cell_le b a = true.
Proof.
  destruct a as [x|s], b as [y|t]; intros Hk Ha Hb; simpl in *; try done.
  - apply fle_total; by destruct x, y.
  - apply String.leb_total.
Qed.

Section sort_on.
Context {A : Type} (le : A → A → bool).
Hypothesis le_trans : ∀ a b c, le a b = true → le b c = true → le a c = true.

Lemma insert_by_sorted_on x l :
  (∀ y, y ∈ l → le x y = true ∨ le y x = true) →
  StronglySorted (λ a b, le a b = true) l →
  StronglySorted (λ a b, le a b = true) (insert_by le x l).
Proof.
  intros Htot. induction 1 as [|y l Hl IH Hy]; simpl.
  - repeat constructor.
  - destruct (le x y) eqn:Hxy.
    + constructor; [by constructor|].
      constructor; [done|].
      eapply Forall_impl; [exact Hy|].
      intros z Hz. by eapply le_trans.
    + constructor; [apply IH; intros z Hz; apply Htot; by right|].
      rewrite insert_by_perm. constructor; [|done].
      destruct (Htot y) as [H|H]; [by left|congruence|done].
Qed.

Lemma sort_by_sorted_on l :
  (∀ a b, a ∈ l → b ∈ l → le a b = true ∨ le b a = true) →
  StronglySorted (λ a b, le a b = true) (sort_by le l).
Proof.
  induction l as [|x l IH]; intros Htot; simpl; [constructor|].
  apply insert_by_sorted_on.
  - intros y Hy. rewrite sort_by_perm in Hy. apply Htot; [by left|by right].
  - apply IH. intros a b Ha Hb. apply Htot; by right.
Qed.
End sort_on.

Lemma unique_from_spec seen l :
  NoDup (unique_from seen l)
  ∧ ∀ x, x ∈ unique_from seen l ↔ x ∈ l ∧ x ∉ seen.
Proof.
  revert seen. induction l as [|y l IH]; intros seen; simpl.
  - split; [constructor|]. intros x. rewrite elem_of_nil. naive_solver.
  - case_bool_decide as Hy.
    + destruct (IH seen) as [Hnd Hin]. split; [done|].
      intros x. rewrite Hin, elem_of_cons. naive_solver.
    + destruct (IH (y :: seen)) as [Hnd Hin]. split.
      * constructor; [|done]. rewrite Hin, elem_of_cons. naive_solver.
      * intros x. rewrite !elem_of_cons, Hin, elem_of_cons.
        destruct (decide (x = y)); naive_solver.
Qed.

Lemma unique_spec l : NoDup (unique l) ∧ ∀ x, x ∈ unique l ↔ x ∈ l.
Proof.
  destruct (unique_from_spec [] l) as [Hnd Hin]. split; [done|].
  intros x. unfold unique. rewrite Hin, elem_of_nil. naive_solver.
Qed.

Lemma elem_of_column c d v :
  v ∈ column c d ↔ ∃ i r, (i, r) ∈ rows d ∧ cell r c = v.
Proof.
  unfold column. rewrite list_elem_of_fmap. split.
  - intros ([i r] & -> & H). eauto.
  - intros (i & r & H & <-). by exists (i, r).
Qed.

Lemma elem_of_dropna_cells l v :
  v ∈ dropna_cells l ↔ v ∈ l ∧ v ≠ Num NaN.
Proof.
  unfold dropna_cells. rewrite list_elem_of_filter.
  destruct v as [[]|]; simpl; naive_solver.
Qed.

Lemma forallb_Forall {A} (f : A → bool) (l : list A) :
  forallb f l = true ↔ Forall (λ x, f x = true) l.
Proof.
  rewrite forallb_forall, Forall_forall.
  split; intros H x Hx; apply H; by apply list_elem_of_In.
Qed.

Lemma py_sorted_Some l E :
  py_sorted l = Some E ↔
  E = sort_by cell_le l
  ∧ (Forall (λ c, is_text c = true) l ∨ Forall (λ c, is_text c = false) l).
Proof.
  assert (Hneg : forallb (λ c, negb (is_text c)) l = true
                 ↔ Forall (λ c, is_text c = false) l).
  { rewrite forallb_Forall. apply Forall_iff. intros c. by destruct (is_text c). }
  unfold py_sorted.
  destruct (forallb is_text l) eqn:H1; simpl.
  - apply forallb_Forall in H1. naive_solver.
  - destruct (forallb (λ c, negb (is_text c)) l) eqn:H2.
    + destruct Hneg as [Hn _]. specialize (Hn eq_refl). naive_solver.
    + split; [done|]. intros [_ [H|H]].
      * apply forallb_Forall in H. congruence.
      * by apply Hneg in H.
Qed.

Lemma estados_Some d E :
  estados d = Some E →
  NoDup E
  ∧ StronglySorted (λ a b, cell_le a b = true ∧ a ≠ b) E
  ∧ (∀ v, v ∈ E ↔ v ≠ Num NaN
                   ∧ ∃ i r, (i, r) ∈ rows d ∧ cell r "estado" = v).
Proof.
  unfold estados.
  set (l := unique (dropna_cells (column "estado" d))).
  destruct (unique_spec (dropna_cells (column "estado" d))) as [Hnd Hin].
  fold l in Hnd, Hin.
  assert (Hl : ∀ v, v ∈ l ↔ v ≠ Num NaN
                    ∧ ∃ i r, (i, r) ∈ rows d ∧ cell r "estado" = v).
  { intros v. rewrite Hin, elem_of_dropna_cells, elem_of_column. naive_solver. }
  intros [-> Hkind]%py_sorted_Some.
  assert (Hna : ∀ v, v ∈ l → isna_cell v = false).
  { intros v [Hv _]%Hl. by destruct v as [[]|]. }
  assert (Hs : StronglySorted (λ a b, cell_le a b = true) (sort_by cell_le l)).
  { apply sort_by_sorted_on; [apply cell_le_trans|].
    intros a b Ha Hb. apply cell_le_total; [|by auto..].
    destruct Hkind as [H|H]; rewrite Forall_forall in H;
      by rewrite (H a Ha), (H b Hb). }
  assert (Hnd' : NoDup (sort_by cell_le l)) by by rewrite sort_by_perm.
  split; [done|]. split.
  - clear -Hs Hnd'. induction Hs as [|x E Hs IH Hx]; constructor.
    + apply IH. by apply NoDup_cons in Hnd' as [_ ?].
    + apply NoDup_cons in Hnd' as [Hx' _]. rewrite Forall_forall in Hx |- *.
      intros y Hy. split; [by apply Hx|]. by intros ->.
  - intros v. by rewrite sort_by_perm.
Qed.

Lemma default_states_take E : default_states E = take 5 E.
Proof.
  unfold default_states. case_match eqn:H5; [done|].
  apply Nat.ltb_ge in H5. by rewrite take_ge.
Qed.

(** The options of the state selector.  They exist unless the column
    mixes texts and numbers, which [sorted] refuses; they are the distinct
    non-missing cells of the column, each once, in ascending order; the
    selection the page opens with is the first five of them. *)
Theorem state_options (d : DataFrame) :
  (estados d = None
     ↔ ∃ s x, Text s ∈ column "estado" d
              ∧ Num x ∈ column "estado" d ∧ x ≠ NaN)
  ∧ ∀ E, estados d = Some E →
      NoDup E
      ∧ StronglySorted (λ a b, cell_le a b = true ∧ a ≠ b) E
      ∧ (∀ v, v ∈ E ↔ v ≠ Num NaN
                       ∧ ∃ i r, (i, r) ∈ rows d ∧ cell r "estado" = v)
      ∧ default_states E = take 5 E.
Proof.
  unfold estados.
  set (l := unique (dropna_cells (column "estado" d))).
  destruct (unique_spec (dropna_cells (column "estado" d))) as [Hnd Hin].
  fold l in Hnd, Hin.
  assert (Hl : ∀ v, v ∈ l ↔ v ≠ Num NaN
                    ∧ ∃ i r, (i, r) ∈ rows d ∧ cell r "estado" = v).
  { intros v. rewrite Hin, elem_of_dropna_cells, elem_of_column. naive_solver. }
  split.
  - split.
    + intros Hnone.
      destruct (decide (Forall (λ c, is_text c = true) l)) as [Ht|Ht].
      { assert (py_sorted l = Some (sort_by cell_le l)) by
          (apply py_sorted_Some; auto). congruence. }
      destruct (decide (Forall (λ c, is_text c = false) l)) as [Hn|Hn].
      { assert (py_sorted l = Some (sort_by cell_le l)) by
          (apply py_sorted_Some; auto). congruence. }
      apply not_Forall_Exists, Exists_exists in Ht as (a & Ha & Hta); [|apply _].
      apply not_Forall_Exists, Exists_exists in Hn as (b & Hb & Htb); [|apply _].
      destruct a as [x|?]; [|by destruct Hta]. destruct b as [?|s]; [by destruct Htb|].
      exists s, x. rewrite Hin, elem_of_dropna_cells in Ha, Hb.
      destruct Ha as [Ha Hx], Hb as [Hb _]. repeat split; [done..|congruence].
    + intros (s & x & Hs & Hx & Hnan).
      destruct (py_sorted l) as [E|] eqn:HE; [|done].
      apply py_sorted_Some in HE as [_ [H|H]]; rewrite Forall_forall in H.
      * specialize (H (Num x)). simpl in H. discriminate H.
        rewrite Hin, elem_of_dropna_cells. split; [done|congruence].
      * specialize (H (Text s)). simpl in H. discriminate H.
        rewrite Hin, elem_of_dropna_cells. done.
  - intros E HE. destruct (estados_Some d E HE) as (? & ? & ?).
    repeat split; try done; try by apply default_states_take.
    all: naive_solver.
Qed.

Lemma filter_ext_in {A} (P Q : A → Prop)
    `{!∀ x, Decision (P x), !∀ x, Decision (Q x)} (l : list A) :
  (∀ x, x ∈ l → P x ↔ Q x) → filter P l = filter Q l.
Proof.
  induction l as [|x l IH]; intros Hext; [done|].
  rewrite !filter_cons, IH by (intros y Hy; apply Hext; by right).
  destruct (decide (P x)) as [HP|HP].
  - rewrite decide_True; [done|]. apply Hext; [by left|done].
  - rewrite decide_False; [done|]. intros HQ. apply HP, Hext; [by left|done].
Qed.

Section state_selection.
Context {parser : NumberParser}.

(** Selecting every option is not the same as selecting none: with every
    state selected the view drops the rows without a state, with none
    selected it keeps them; on the page as it opens, the view holds the
    rows of the first five states.  When no row has a state there is no
    option, nothing can be selected and the table passes whole. *)
Theorem all_states_is_not_no_state (d : DataFrame) (E : list Cell) :
  "estado" ∈ columns d → estados d = Some E →
  (E ≠ [] →
     rows (state_filter E d)
     = filter (λ ir : nat * Row, cell ir.2 "estado" ≠ Num NaN) (rows d)
     ∧ rows (state_filter (default_states E) d)
       = filter (λ ir : nat * Row, cell ir.2 "estado" ∈ take 5 E) (rows d))
  ∧ (E = [] →
     state_filter (default_states E) d = d
     ∧ ∀ i r, (i, r) ∈ rows d → cell r "estado" = Num NaN)
  ∧ state_filter [] d = d.
Proof.
  intros Hc HE.
  destruct (estados_Some d E HE) as (_ & _ & Hin).
  pose proof (default_states_take E) as Hdef.
  split; [|split; [|done]].
  - intros Hne.
    assert (Hsel : ∀ S, S ≠ [] →
              rows (state_filter S d)
              = filter (λ ir : nat * Row, cell ir.2 "estado" ∈ S) (rows d)).
    { intros S HS. unfold state_filter, has_col.
      rewrite (bool_decide_eq_false_2 _ HS), (bool_decide_eq_true_2 _ Hc).
      simpl. apply list_filter_iff. intros [i r]; simpl. unfold isin.
      by rewrite bool_decide_eq_true. }
    split.
    + rewrite Hsel by done. apply filter_ext_in.
      intros [i r] Hr; simpl. rewrite Hin. naive_solver.
    + rewrite Hdef. apply Hsel. by destruct E.
  - intros ->. split; [done|]. intros i r Hr.
    destruct (decide (cell r "estado" = Num NaN)) as [|Hn]; [done|].
    assert (Hv : cell r "estado" ∈ []) by (apply Hin; eauto).
    by apply elem_of_nil in Hv.
Qed.

End state_selection.

(** *** The upper end of the population slider *)

Lemma quot_bounds (n d : Z) :
  0 < d →
  (0 ≤ n → d * (n ÷ d) ≤ n < d * (n ÷ d + 1))
  ∧ (n ≤ 0 → d * (n ÷ d - 1) < n ≤ d * (n ÷ d)).
Proof.
  intros Hd. pose proof (Z.quot_rem' n d) as Hq. split; intros Hn.
  - pose proof (Z.rem_bound_pos n d Hn Hd). lia.
  - assert (Hr : 0 ≤ Z.rem (- n) d < d) by (apply Z.rem_bound_pos; lia).
    rewrite Z.rem_opp_l' in Hr. lia.
Qed.

Lemma fle_of_Z_Fin (z : Z) (q : Qc) :
  fle (of_Z z) (Fin q) = true ↔ z * Zpos (Qden q) ≤ Qnum q.
Proof.
  unfold fle, of_Z. rewrite bool_decide_eq_true.
  unfold Qcle. destruct q as [[n d] Hc]. unfold Qle, inject_Z; simpl. lia.
Qed.

Lemma trunc_ge_pos (q : Qc) (z : Z) :
  0 < z → (z ≤ trunc q ↔ fle (of_Z z) (Fin q) = true).
Proof.
  intros Hz. rewrite fle_of_Z_Fin. unfold trunc.
  destruct (quot_bounds (Qnum q) (Zpos (Qden q))) as [Hpos Hneg]; [done|].
  destruct (Z.le_gt_cases 0 (Qnum q)) as [Hn|Hn].
  - specialize (Hpos Hn). nia.
  - assert (Hle : Qnum q ≤ 0) by lia. specialize (Hneg Hle). nia.
Qed.

Lemma trunc_lt (q : Qc) (z : Z) :
  trunc q < z → fle (of_Z z) (Fin q) = false.
Proof.
  intros Hz. apply not_true_is_false. rewrite fle_of_Z_Fin. unfold trunc in Hz.
  destruct (quot_bounds (Qnum q) (Zpos (Qden q))) as [Hpos Hneg]; [done|].
  destruct (Z.le_gt_cases 0 (Qnum q)) as [Hn|Hn].
  - specialize (Hpos Hn). nia.
  - assert (Hle : Qnum q ≤ 0) by lia. specialize (Hneg Hle). nia.
Qed.

Section slider.
Context {parser : NumberParser}.

Lemma pops_spec c d :
  d.(rows) ≠ [] →
  let M := series_max ((λ ir : nat * Row, pop0 c ir.2) <$> rows d) in
  M ≠ NaN
  ∧ (∃ i r, (i, r) ∈ rows d ∧ pop0 c r = M)
  ∧ ∀ i r, (i, r) ∈ rows d → fle (pop0 c r) M = true.
Proof.
  intros Hne M.
  destruct (series_max_spec ((λ ir : nat * Row, pop0 c ir.2) <$> rows d))
    as (Hin & Hnan & Hub).
  - rewrite Forall_fmap, Forall_forall. intros [i r] _; simpl.
    apply pop0_not_nan.
  - by destruct (rows d).
  - split; [done|]. split.
    + apply list_elem_of_fmap in Hin as ([i r] & HM & Hr). exists i, r. by split.
    + intros i r Hr. apply Hub, list_elem_of_fmap. by exists (i, r).
Qed.

Lemma max_pop_unfold c d :
  d.(rows) ≠ [] →
  max_pop c d
  = int_of_float (series_max ((λ ir : nat * Row, pop0 c ir.2) <$> rows d)).
Proof. unfold max_pop, nanmax. by destruct (rows d). Qed.

(** The slider offers thresholds up to [max_pop].  When that bound is
    computed and no state is selected (the state filter is then skipped,
    so the rows without a state stay), a positive threshold leaves a row in
    the view exactly when it is at most the bound; any threshold above the
    bound empties the view, whatever states are selected.  With states
    selected a threshold below the bound can empty the view as well, see
    [stateless_maximum]. *)
Theorem slider_upper_end (c : string) (d : DataFrame) (m : Z) :
  c ∈ pop_cols (columns d) →
  max_pop c d = inr m →
  (∀ t, 0 < t → (0 < len (df_filtered [] (Some c) t d))%nat ↔ t ≤ m)
  ∧ (∀ S t, m < t → rows (df_filtered S (Some c) t d) = []).
Proof.
  intros Hc Hm. destruct (pop_cols_spec _ _ Hc) as (_ & _ & Hne).
  assert (Hrows : rows d ≠ []).
  { intros Hnil. unfold max_pop in Hm. by rewrite Hnil in Hm. }
  rewrite max_pop_unfold in Hm by done.
  destruct (pops_spec c d Hrows) as (Hnan & (i0 & r0 & Hr0 & HM) & Hub).
  destruct (series_max _) as [| |q|] eqn:EM; try done.
  injection Hm as <-.
  split.
  - intros t Ht. unfold df_filtered. rewrite state_filter_empty. split.
    + intros Hlen. unfold len in Hlen.
      destruct (rows (pop_filter (Some c) t d)) as [|[i r'] l] eqn:E;
        [simpl in Hlen; lia|].
      assert (Hin : (i, r') ∈ rows (pop_filter (Some c) t d))
        by (rewrite E; by left).
      apply elem_of_rows_pop_filter in Hin as (r & Hr & _ & Hp); [|done].
      apply trunc_ge_pos; [done|].
      eapply fle_trans; [exact Hp|]. by apply (Hub i r).
    + intros Htm. apply (trunc_ge_pos q) in Htm; [|done].
      assert (Hin : (i0, <[c := Num (num r0 c)]> r0)
                    ∈ rows (pop_filter (Some c) t d)).
      { apply elem_of_rows_pop_filter; [done|]. exists r0.
        split; [done|]. split; [done|]. unfold fge. by rewrite HM. }
      unfold len. destruct (rows (pop_filter (Some c) t d));
        [by apply elem_of_nil in Hin|simpl; lia].
  - intros S t Ht. apply trunc_lt in Ht.
    destruct (rows (df_filtered S (Some c) t d)) as [|[i r'] l] eqn:E; [done|].
    assert (Hin : (i, r') ∈ rows (df_filtered S (Some c) t d))
      by (rewrite E; by left).
    unfold df_filtered in Hin.
    apply elem_of_rows_pop_filter in Hin as (r & Hr & _ & Hp); [|done].
    apply elem_of_rows_state_filter in Hr as [Hr _].
    unfold fge in Hp. rewrite (fle_trans _ _ _ Hp (Hub i r Hr)) in Ht. done.
Qed.

(** When the bound cannot be computed the script stops in the sidebar: on a
    table without rows [np.nanmax] raises, and a population that reads as
    infinity makes [int] raise; with at least one row and no infinite
    population the bound exists. *)
Theorem slider_bound_errors (c : string) (d : DataFrame) :
  (max_pop c d = inl EmptyReduction ↔ rows d = [])
  ∧ max_pop c d ≠ inl IntOfNaN
  ∧ ((∃ i r, (i, r) ∈ rows d ∧ num r c = PInf) →
     max_pop c d = inl IntOfInfinity)
  ∧ (rows d ≠ [] →
     (∀ i r, (i, r) ∈ rows d → num r c ≠ PInf ∧ num r c ≠ NInf) →
     ∃ m, max_pop c d = inr m).
Proof.
  assert (Hcase : rows d = [] ∨ rows d ≠ []).
  { destruct (rows d); [by left|by right]. }
  assert (Hempty : rows d = [] → max_pop c d = inl EmptyReduction).
  { intros Hnil. unfold max_pop. by rewrite Hnil. }
  split; [|split; [|split]].
  - split; [|done]. intros Hm. destruct Hcase as [|Hne]; [done|].
    rewrite max_pop_unfold in Hm by done.
    by destruct (series_max _).
  - destruct Hcase as [Hnil|Hne]; [by rewrite Hempty|].
    rewrite max_pop_unfold by done.
    destruct (pops_spec c d Hne) as (Hnan & _).
    by destruct (series_max _).
  - intros (i & r & Hr & Hinf).
    assert (Hne : rows d ≠ []).
    { intros Hnil. rewrite Hnil in Hr. by apply elem_of_nil in Hr. }
    rewrite max_pop_unfold by done.
    destruct (pops_spec c d Hne) as (_ & _ & Hub).
    specialize (Hub i r Hr). unfold pop0 in Hub. rewrite Hinf in Hub.
    simpl in Hub. by destruct (series_max _).
  - intros Hne Hfin. rewrite max_pop_unfold by done.
    destruct (pops_spec c d Hne) as (Hnan & (i & r & Hr & HM) & _).
    destruct (Hfin i r Hr) as [Hp Hn]. rewrite <-HM in *.
    unfold pop0 in *. destruct (num r c); simpl in *; try done; eauto.
Qed.

End slider.

(** ** How a run can end *)

Section wpx_rules.
Context {A B : Type}.

Lemma wpx_ret (a : A) (Q : A → State → Prop) E σ : Q a σ → wpx (ret a) Q E σ.
Proof. done. Qed.

Lemma wpx_bind (m : M A) (k : A → M B) (Q : B → State → Prop) E σ :
  wpx m (λ a σ', wpx (k a) Q E σ') E σ → wpx (bind m k) Q E σ.
Proof. unfold wpx, bind. by destruct (m σ) as [[a|e] σ']. Qed.

Lemma wpx_mono (m : M A) (Q Q' : A → State → Prop) (E E' : Exn → Prop) σ :
  (∀ a σ', Q a σ' → Q' a σ') → (∀ e, E e → E' e) →
  wpx m Q E σ → wpx m Q' E' σ.
Proof. unfold wpx. destruct (m σ) as [[a|e] σ']; auto. Qed.

Lemma wp_wpx (m : M A) (Q : A → State → Prop) E σ : wp m Q σ → wpx m Q E σ.
Proof. unfold wp, wpx. by destruct (m σ) as [[a|e] σ']. Qed.

Lemma wpx_wp (m : M A) (Q : A → State → Prop) σ :
  wpx m Q (λ _, False) σ → wp m Q σ.
Proof. unfold wp, wpx. by destruct (m σ) as [[a|e] σ']. Qed.

End wpx_rules.

Lemma wpx_getitem l c d (Q : unit → State → Prop) E σ :
  heap σ !! l = Some d →
  (c ∈ columns d → Q () σ) → (c ∉ columns d → E (KeyError c)) →
  wpx (getitem l c) Q E σ.
Proof.
  intros Hl HQ HE. apply wpx_bind, wp_wpx. eapply wp_deref; [done|].
  unfold has_col. case_bool_decide; [by apply wpx_ret, HQ|by apply HE].
Qed.

Lemma wpx_px_col l c d (Q : unit → State → Prop) E σ :
  heap σ !! l = Some d →
  (c ∈ columns d → Q () σ) → (c ∉ columns d → E (ValueError c)) →
  wpx (px_col l c) Q E σ.
Proof.
  intros Hl HQ HE. apply wpx_bind, wp_wpx. eapply wp_deref; [done|].
  unfold has_col. case_bool_decide; [by apply wpx_ret, HQ|by apply HE].
Qed.

Lemma elem_of_columns_assign_inv c f d x :
  x ∈ columns (assign c f d) → x ∈ columns d ∨ x = c.
Proof.
  unfold assign; simpl. case_match; [by left|].
  intros [?|?%list_elem_of_singleton]%elem_of_app; auto.
Qed.

Section outcomes.
Context {parser : NumberParser}.

Lemma elem_of_columns_with_porte_inv labels first second pc view c :
  first ∈ columns view → second ∈ columns view →
  c ∈ columns (with_porte labels first second pc view) →
  c ∈ columns view ∨ c = "porte".
Proof.
  intros H1 H2. unfold with_porte.
  intros [Hc|Hc]%elem_of_columns_assign_inv; [left|by right].
  unfold dropna in Hc. rewrite columns_select in Hc.
  by rewrite !columns_coerce in Hc; rewrite ?columns_coerce.
Qed.

Lemma filter_stage_keeps inp df d σ :
  heap σ !! df = Some d →
  (∀ pc, chosen (pop_col inp) = Some pc → pc ∈ columns d) →
  wp (filter_stage inp df)
     (λ f σ', heap σ' !! f
              = Some (df_filtered (estado_sel inp) (pop_col inp) (min_pop inp) d)
              ∧ keeps σ σ')
     σ.
Proof.
  intros Hdf Hpc. unfold filter_stage, df_filtered.
  rewrite pop_filter_chosen.
  apply wp_bind. eapply wp_copy; [done|].
  intros f σ1 Hfresh Hf [Hext Hs1].
  apply wp_bind. eapply wp_deref; [done|].
  apply wp_bind.
  eapply (wp_mono _ (λ f' σ2,
            heap σ2 !! f' = Some (state_filter (estado_sel inp) d)
            ∧ heap σ !! f' = None ∧ keeps σ σ2)).
  2:{ unfold state_filter. case_match.
      - eapply wp_derive; [done|]. intros f' σ2 Hfresh' Hf' [Hext' Hs2].
        split; [done|]. split; [by eapply keeps_fresh|by eapply keeps_trans].
      - apply wp_ret. auto. }
  intros f' σ2 (Hf' & Hfr & Hk2). cbv beta.
  destruct (chosen (pop_col inp)) as [pc|] eqn:Hch; [|by apply wp_ret].
  apply wp_bind. eapply wp_coerce_at; [done| |].
  { rewrite columns_state_filter. by apply Hpc. }
  intros σ3 Hf3 Hoth Hs3.
  assert (Hk3 : keeps σ σ3) by by eapply keeps_put.
  eapply wp_derive; [done|]. intros f4 σ4 Hfresh4 Hf4 [Hext4 Hs4].
  split; [done|]. by eapply keeps_trans.
Qed.

Lemma export_csv_runs inp f view σ :
  heap σ !! f = Some view →
  wp (export_csv inp f) (λ _ σ', keeps σ σ') σ.
Proof.
  intros Hf. unfold export_csv. destruct (export inp); [|apply wp_ret, keeps_refl].
  apply wp_bind. eapply wp_deref; [done|]. apply wp_show, keeps_show, keeps_refl.
Qed.

Lemma chart1_outcome inp f view σ :
  heap σ !! f = Some view →
  (∀ c, chosen (pop_col inp) = Some c → c ∈ columns view) →
  wpx (chart1 inp f) (λ _ σ', keeps σ σ')
      (label_column_missing (columns view)) σ.
Proof.
  intros Hf Hpc. unfold chart1.
  apply wpx_bind, wp_wpx. eapply wp_deref; [done|].
  destruct (chosen (pop_col inp)) as [pc|]; [|apply wpx_ret, keeps_refl].
  destruct (has_col "municipio" view) eqn:Hm; [|apply wpx_ret, keeps_refl].
  apply bool_decide_eq_true in Hm. specialize (Hpc pc eq_refl).
  apply wpx_bind, wp_wpx. eapply wp_copy; [done|].
  intros t σ1 Hfr1 Ht1 [Hext1 Hs1].
  apply wpx_bind, wp_wpx. eapply wp_coerce_fill_at; [done..|].
  intros σ2 Ht2 Hoth2 Hs2.
  assert (Hk2 : keeps σ σ2) by by eapply keeps_put.
  apply wpx_bind, wp_wpx. eapply wp_derive; [done|].
  intros t' σ3 Hfr3 Ht3 [Hext3 Hs3].
  assert (Hk3 : keeps σ σ3) by by eapply keeps_trans.
  assert (Hcols : columns (nlargest (top_n inp) pc (coerce_fill pc view))
                  = columns view) by by apply columns_coerce_fill.
  apply wpx_bind.
  eapply wpx_getitem; [done| |intros H; exfalso; apply H; by rewrite Hcols].
  intros _.
  apply wpx_bind. eapply wpx_getitem; [done| |rewrite Hcols; intros He; left; auto].
  intros _.
  apply wpx_bind, wp_wpx. eapply wp_update; [done|].
  intros σ4 Ht4 Hoth4 Hs4. apply wp_wpx, wp_show, keeps_show.
  eapply keeps_put; [exact Hk3| |exact Hoth4].
  exact (keeps_fresh _ _ _ Hk2 Hfr3).
Qed.

Lemma chart4_outcome inp f view σ :
  heap σ !! f = Some view →
  (∀ c, chosen (pop_col inp) = Some c → c ∈ columns view) →
  (∀ c, chosen (pib_col inp) = Some c → c ∈ columns view) →
  wpx (chart4 inp f) (λ _ σ', keeps σ σ')
      (label_column_missing (columns view)) σ.
Proof.
  intros Hf Hpc Hgc. unfold chart4.
  apply wpx_bind, wp_wpx. eapply wp_deref; [done|].
  destruct (chosen (pop_col inp)) as [pc|]; [|apply wpx_ret, keeps_refl].
  destruct (chosen (pib_col inp)) as [gc|]; [|apply wpx_ret, keeps_refl].
  destruct (has_col "municipio" view) eqn:Hm; [|apply wpx_ret, keeps_refl].
  apply bool_decide_eq_true in Hm.
  specialize (Hpc pc eq_refl). specialize (Hgc gc eq_refl).
  apply wpx_bind, wp_wpx.
  eapply wp_mono; [|apply (with_porte_at_computes porte_label pc gc pc f view);
                     [done..|by left]].
  intros s σ1 (Hs & Hk & _). cbv beta.
  assert (Hin : ∀ c, c ∈ columns view ∨ c = "porte" →
                     c ∈ columns (with_porte porte_label pc gc pc view)).
  { intros c. apply elem_of_columns_with_porte. }
  apply wpx_bind, wp_wpx. eapply wp_px_col; [done|by auto|].
  apply wpx_bind, wp_wpx. eapply wp_px_col; [done|by auto|].
  apply wpx_bind. eapply wpx_px_col; [done| |].
  2:{ intros He. left. split; [|by right]. intros He'. apply He. auto. }
  intros _.
  apply wpx_bind, wp_wpx. eapply wp_px_col; [done|by auto|].
  apply wpx_bind, wp_wpx. eapply wp_px_col; [done|by auto|].
  by apply wp_wpx, wp_show, keeps_show.
Qed.

Lemma chart9_outcome inp f view σ :
  heap σ !! f = Some view →
  (∀ c, chosen (idh_col inp) = Some c → c ∈ columns view) →
  wpx (chart9 inp f) (λ _ σ', heap σ' !! f = Some view)
      (label_column_missing (columns view)) σ.
Proof.
  intros Hf Hic.
  destruct (chosen (idh_col inp)) as [ic|] eqn:Hch.
  2:{ unfold chart9. apply wpx_bind, wp_wpx. eapply wp_deref; [done|].
      rewrite Hch. by apply wpx_ret. }
  destruct (has_col "municipio" view) eqn:Hm.
  2:{ unfold chart9. apply wpx_bind, wp_wpx. eapply wp_deref; [done|].
      rewrite Hch, Hm. by apply wpx_ret. }
  apply bool_decide_eq_true in Hm. specialize (Hic ic eq_refl).
  destruct (decide ("estado" ∈ columns view)) as [He|He].
  { apply wp_wpx. eapply wp_mono; [|by apply (chart9_computes inp f view ic)].
    by intros _ σ' (_ & ? & _). }
  unfold chart9.
  apply wpx_bind, wp_wpx. eapply wp_deref; [done|].
  rewrite Hch. unfold has_col. rewrite bool_decide_eq_true_2 by done.
  apply wpx_bind, wp_wpx. eapply wp_copy; [done|].
  intros r σ1 Hfr1 Hr1 [Hext1 Hsh1].
  apply wpx_bind, wp_wpx. eapply wp_coerce_at; [done..|].
  intros σ2 Hr2 Hoth2 Hsh2.
  apply wpx_bind, wp_wpx. eapply wp_dropna_at; [done| |].
  { intros c ->%list_elem_of_singleton. by apply elem_of_columns_assign. }
  intros r' σ3 Hfr3 Hr3 [Hext3 Hsh3].
  apply wpx_bind. unfold ranked_at.
  apply wpx_bind, wp_wpx. eapply wp_derive; [done|].
  intros t σ4 Hfr4 Ht4 [Hext4 Hsh4].
  assert (Hcols : columns (nlargest 10 ic (dropna [ic] (coerce ic view)))
                  = columns view) by by apply columns_coerce.
  apply wpx_bind. simpl getitems.
  apply wpx_bind.
  eapply wpx_getitem; [done| |intros H; exfalso; apply H; by rewrite Hcols].
  intros _.
  apply wpx_bind. eapply wpx_getitem; [done| |].
  - rewrite Hcols. by intros H.
  - intros _. left. auto.
Qed.

Lemma maps_outcome inp f view σ :
  heap σ !! f = Some view →
  (∀ c, pop_col inp = Some c → c ∈ columns view) →
  (∀ c, idh_col inp = Some c → c ∈ columns view) →
  wpx (maps inp f) (λ _ _, True) (label_column_missing (columns view)) σ.
Proof.
  intros Hf Hpc Hic. unfold maps.
  apply wpx_bind, wp_wpx. eapply wp_deref; [done|].
  destruct (has_col "latitude" view && has_col "longitude" view) eqn:Hg;
    [|by apply wpx_ret].
  apply andb_true_iff in Hg as [Hlat Hlon].
  apply bool_decide_eq_true in Hlat, Hlon.
  apply wpx_bind, wp_wpx. eapply wp_copy; [done|].
  intros m σ1 Hfr1 Hm1 [Hext1 Hsh1].
  apply wpx_bind, wp_wpx. eapply wp_coerce_at; [done..|].
  intros σ2 Hm2 Hoth2 Hsh2.
  apply wpx_bind, wp_wpx. eapply wp_coerce_at; [done|by rewrite columns_coerce|].
  intros σ3 Hm3 Hoth3 Hsh3.
  assert (Hc3 : columns (coerce "longitude" (coerce "latitude" view))
                = columns view).
  { by rewrite !columns_coerce; rewrite ?columns_coerce. }
  apply wpx_bind, wp_wpx. eapply wp_dropna_at; [done| |].
  { intros c Hc. rewrite Hc3.
    apply elem_of_cons in Hc as [->|Hc]; [done|].
    by apply list_elem_of_singleton in Hc as ->. }
  intros m' σ4 Hfr4 Hm4 [Hext4 Hsh4].
  apply wpx_bind, wp_wpx. eapply wp_fill_if_present_at; [done|].
  intros σ5 Hm5 Hoth5 Hsh5.
  apply wpx_bind, wp_wpx. eapply wp_fill_if_present_at; [done|].
  intros σ6 Hm6 Hoth6 Hsh6.
  fold (df_map (pop_col inp) (idh_col inp) view) in Hm6.
  assert (Hcols : columns (df_map (pop_col inp) (idh_col inp) view)
                  = columns view).
  { unfold df_map. rewrite !columns_fill_if_present. unfold dropna.
    by rewrite columns_select. }
  apply wpx_bind. eapply wpx_px_col; [done| |].
  2:{ rewrite Hcols. intros H. right. auto. }
  intros _.
  apply wpx_bind. eapply wpx_px_col; [done| |].
  2:{ rewrite Hcols. intros H. left. auto. }
  intros _.
  apply wpx_bind, wp_wpx. eapply wp_px_opt; [done|by rewrite Hcols|].
  apply wpx_bind, wp_wpx. eapply wp_px_opt; [done|by rewrite Hcols|].
  apply wpx_bind, wp_wpx, wp_show.
  apply wpx_bind, wp_wpx. eapply wp_deref; [done|].
  destruct (pop_col inp) as [pc|]; [|by apply wpx_ret].
  destruct (has_col pc _) eqn:Hh; [|by apply wpx_ret].
  apply bool_decide_eq_true in Hh.
  apply wpx_bind, wp_wpx. eapply wp_getitem; [done..|].
  apply wpx_bind, wp_wpx. eapply wp_update; [done|].
  intros σ7 _ _ _. by apply wp_wpx, wp_show.
Qed.

(** How a run can end, from the filter stage on, on a table whose values
    raise nothing: every cell of the state and of the municipality column
    is a text, and every figure of the selected population, GDP and HDI
    columns is missing or between 0 and 2^53.  With the selected year columns
    among the columns of the loaded table, such a run either reaches its
    end or stops at the lookup of the state or the municipality column,
    which the table then lacks: [KeyError] or [ValueError] for [estado],
    [ValueError] for [municipio].  No lookup of another column fails; on a
    table that has both columns the run reaches its end. *)
Theorem run_stops_only_for_label_columns
    (inp : Inputs) (df : nat) (d : DataFrame) (σ : State) :
  heap σ !! df = Some d →
  (∀ sel c, sel ∈ selectors inp → sel = Some c → c ∈ columns d) →
  (∀ c i r, c ∈ ["municipio"; "estado"] → c ∈ columns d → (i, r) ∈ rows d →
            is_text (cell r c) = true) →
  (∀ sel c i r, sel ∈ selectors inp → sel = Some c →
                (i, r) ∈ rows d → moderate (num r c) = true) →
  wpx (script inp df) (λ _ _, True) (label_column_missing (columns d)) σ
  ∧ ("estado" ∈ columns d → "municipio" ∈ columns d →
     wp (script inp df) (λ _ _, True) σ).
Proof.
  intros Hdf Hsel _ _.
  assert (Hpc : ∀ c, pop_col inp = Some c → c ∈ columns d).
  { intros c. apply Hsel, elem_of_cons. by left. }
  assert (Hgc : ∀ c, pib_col inp = Some c → c ∈ columns d).
  { intros c. apply Hsel, elem_of_cons. right. apply elem_of_cons. by left. }
  assert (Hic : ∀ c, idh_col inp = Some c → c ∈ columns d).
  { intros c. apply Hsel. do 2 (apply elem_of_cons; right).
    by apply list_elem_of_singleton. }
  assert (Hmain : wpx (script inp df) (λ _ _, True)
                      (label_column_missing (columns d)) σ).
  { unfold script.
    apply wpx_bind, wp_wpx.
    eapply wp_mono; [|apply (filter_stage_keeps inp df d σ Hdf)].
    2:{ intros pc [Hc _]%chosen_truthy. by apply Hpc. }
    intros f σ0 (Hf & K0). cbv beta.
    assert (Hdf0 : heap σ0 !! df = Some d) by by apply K0.
    set (view := df_filtered (estado_sel inp) (pop_col inp) (min_pop inp) d) in *.
    assert (Hcols : columns view = columns d) by by apply columns_df_filtered.
    rewrite <-Hcols in *.
    assert (Hpc' : ∀ c, chosen (pop_col inp) = Some c → c ∈ columns view).
    { intros c [Hc _]%chosen_truthy. by apply Hpc. }
    assert (Hgc' : ∀ c, chosen (pib_col inp) = Some c → c ∈ columns view).
    { intros c [Hc _]%chosen_truthy. by apply Hgc. }
    assert (Hic' : ∀ c, chosen (idh_col inp) = Some c → c ∈ columns view).
    { intros c [Hc _]%chosen_truthy. by apply Hic. }
    apply wpx_bind, wp_wpx.
    eapply wp_mono; [|by apply (export_csv_runs inp f view)].
    intros ? σ1 K1. cbv beta in K1 |- *.
    apply wpx_bind.
    eapply wpx_mono; [|done|apply (chart1_outcome inp f view); auto].
    intros ? σ2 K2. cbv beta in K2 |- *.
    pose proof (keeps_trans _ _ _ K1 K2) as K02.
    apply wpx_bind, wp_wpx.
    eapply wp_mono; [|apply (chart2_runs inp f view); auto].
    intros ? σ3 K3. cbv beta in K3 |- *.
    pose proof (keeps_trans _ _ _ K02 K3) as K03.
    apply wpx_bind, wp_wpx.
    eapply wp_mono; [|apply (chart3_runs inp df f d view); auto].
    2:{ intros c. by rewrite Hcols. }
    intros ? σ4 K4. cbv beta in K4 |- *.
    pose proof (keeps_trans _ _ _ K03 K4) as K04.
    apply wpx_bind.
    eapply wpx_mono; [|done|apply (chart4_outcome inp f view); auto].
    intros ? σ5 K5. cbv beta in K5 |- *.
    pose proof (keeps_trans _ _ _ K04 K5) as K05.
    apply wpx_bind, wp_wpx.
    eapply wp_mono; [|apply (chart5_runs inp f view); auto].
    intros ? σ6 K6. cbv beta in K6 |- *.
    pose proof (keeps_trans _ _ _ K05 K6) as K06.
    apply wpx_bind, wp_wpx.
    eapply wp_mono; [|apply (chart6_runs inp f view); auto].
    intros ? σ7 K7. cbv beta in K7 |- *.
    pose proof (keeps_trans _ _ _ K06 K7) as K07.
    apply wpx_bind, wp_wpx.
    eapply wp_mono; [|apply (chart7_runs inp f view); auto].
    intros ? σ8 K8. cbv beta in K8 |- *.
    pose proof (keeps_trans _ _ _ K07 K8) as K08.
    apply wpx_bind, wp_wpx.
    eapply wp_mono; [|apply (chart8_runs inp f view); auto].
    intros ? σ9 K9. cbv beta in K9 |- *.
    pose proof (keeps_trans _ _ _ K08 K9) as K09.
    apply wpx_bind.
    eapply wpx_mono; [|done|apply (chart9_outcome inp f view); auto].
    intros ? σ10 Hf10. cbv beta in Hf10 |- *.
    apply (maps_outcome inp f view); auto. }
  split; [exact Hmain|]. intros He Hm. apply wpx_wp.
  eapply wpx_mono; [done| |exact Hmain].
  intros e [[H _]|[H _]]; done.
Qed.

End outcomes.

(** ** The filter stage under the charts *)

Lemma elevation_nonneg (x : float) (q : Qc) :
  (0 < q)%Qc → fle (of_Z 0) x = true → fle x (Fin q) = true →
  fle (of_Z 0) (fmul (fdiv x (Fin q)) (of_Z 500000)) = true.
Proof.
  intros Hq H0 Hle.
  assert (Hq0 : q ≠ 0%Qc) by (intros ->; by apply (Qclt_not_eq _ _ Hq)).
  destruct x as [| |a|]; simpl in *; try done.
  rewrite decide_False by done. simpl.
  apply bool_decide_eq_true in H0. apply bool_decide_eq_true.
  rewrite Z2Qc_inj_0 in *.
  apply Qcmult_nonneg_nonneg; [|by rewrite <-Z2Qc_inj_0; apply Z2Qc_inj_le].
  unfold Qcdiv. apply Qcmult_nonneg_nonneg; [done|].
  by apply Qclt_le_weak, Qcinv_pos.
Qed.

Section filter_under_charts.
Context {parser : NumberParser}.

Lemma with_porte_row labels first second pc view i r' :
  (i, r') ∈ rows (with_porte labels first second pc view) →
  ∃ r, (i, r) ∈ rows view
       ∧ cell r' "porte" = porte_cell labels (num r pc).
Proof.
  unfold with_porte. intros (r2 & Hr2 & ->)%elem_of_rows_assign.
  apply elem_of_rows_dropna in Hr2 as [Hr2 _].
  apply elem_of_rows_coerce in Hr2 as (r1 & Hr1 & ->).
  apply elem_of_rows_coerce in Hr1 as (r & Hr & ->).
  exists r. split; [done|]. by rewrite cell_insert_eq, !num_coerced.
Qed.

Lemma filtered_population S pc t df i r' :
  pc ∈ pop_cols (columns df) →
  (i, r') ∈ rows (df_filtered S (Some pc) t df) →
  pop0 pc r' = fillna (of_Z 0) (num r' pc)
  ∧ fle (of_Z t) (pop0 pc r') = true
  ∧ (0 < t → num r' pc ≠ NaN ∧ fle (of_Z t) (num r' pc) = true)
  ∧ ∃ r, (i, r) ∈ rows df ∧ num r' pc = num r pc.
Proof.
  intros Hpc Hr. destruct (pop_cols_spec _ _ Hpc) as (_ & _ & Hne).
  unfold df_filtered in Hr.
  apply elem_of_rows_pop_filter in Hr as (r & Hr & -> & Hp); [|done].
  apply elem_of_rows_state_filter in Hr as [Hr _].
  rewrite pop0_coerced, num_insert_eq. unfold fge in Hp.
  split; [done|]. split; [done|]. split; [|eauto].
  intros Ht. unfold pop0 in Hp.
  destruct (num r pc) eqn:E; simpl in Hp; try done.
  change (Fin (Qc_of_Z 0)) with (of_Z 0) in Hp. apply fle_of_Z in Hp. lia.
Qed.

(** With the threshold above 0, every row the size charts (4, 6 and 8)
    draw has a size category: the rows their bins leave out, those with a
    population of 0 or less, are not in the view. *)
Theorem positive_threshold_bins_every_row
    (labels : Porte → string) (first second pc : string)
    (S : list Cell) (t : Z) (df : DataFrame) :
  pc ∈ pop_cols (columns df) → 0 < t →
  ∀ i r', (i, r') ∈ rows (with_porte labels first second pc
                            (df_filtered S (Some pc) t df)) →
    ∃ p r, cell r' "porte" = Text (labels p)
           ∧ (i, r) ∈ rows df ∧ porte (num r pc) = Some p
           ∧ fle (of_Z t) (num r pc) = true.
Proof.
  intros Hpc Ht i r' Hr'.
  apply with_porte_row in Hr' as (rv & Hrv & Hcell).
  destruct (filtered_population S pc t df i rv Hpc Hrv)
    as (_ & _ & Hpos & r & Hr & Heq).
  destruct (Hpos Ht) as [Hnan Hle]. rewrite Heq in *.
  destruct (porte (num r pc)) as [p|] eqn:Hp.
  - exists p, r. unfold porte_cell in Hcell. rewrite Hp in Hcell. done.
  - exfalso. destruct (porte_intervals (num r pc)) as (_ & _ & _ & _ & Hnone).
    apply Hnone in Hp as [Hp|Hp]; [done|].
    pose proof (fle_trans _ _ _ Hle Hp) as H0. apply fle_of_Z in H0. lia.
Qed.

(** The elevations of the 3D map over a filtered view (the threshold of
    the slider is never negative).  When the largest mapped population is
    finite and positive every elevation lies between 0 and 500000; when it
    is 0 every elevation is NaN, so no column is drawn. *)
Theorem elevations_of_filtered_view
    (pc : string) (ic : option string) (S : list Cell) (t : Z) (df : DataFrame) :
  pc ∈ pop_cols (columns df) → 0 ≤ t →
  let M := df_map (Some pc) ic (df_filtered S (Some pc) t df) in
  let elevations :=
    (λ ir : nat * Row, num ir.2 "pop_norm") <$> rows (with_pop_norm pc M) in
  (∀ q, col_max pc M = Fin q → (0 < q)%Qc →
     Forall (λ e, fle (of_Z 0) e = true ∧ fle e (of_Z 500000) = true)
            elevations)
  ∧ (col_max pc M = of_Z 0 → Forall (λ e, e = NaN) elevations).
Proof.
  intros Hpc Ht M elevations.
  destruct (pop_cols_spec _ _ Hpc) as (Hc & _ & _).
  set (view := df_filtered S (Some pc) t df) in *.
  assert (Hcv : pc ∈ columns view).
  { unfold view. rewrite columns_df_filtered; [done|]. by intros c [= <-]. }
  set (l := filter (λ ir : nat * Row, has_coords ir.2 = true) (rows view)).
  assert (Hpops : (λ ir : nat * Row, num ir.2 pc) <$> rows M
                  = (λ ir : nat * Row, pop0 pc ir.2) <$> l).
  { by apply pops_df_map. }
  assert (Helev : elevations
    = (λ ir : nat * Row,
         fmul (fdiv (pop0 pc ir.2) (col_max pc M)) (of_Z 500000)) <$> l).
  { unfold elevations. rewrite elevations_with_pop_norm.
    change ((λ ir : nat * Row,
               fmul (fdiv (num ir.2 pc) (col_max pc M)) (of_Z 500000))
              <$> rows M)
      with (((λ x, fmul (fdiv x (col_max pc M)) (of_Z 500000))
               ∘ (λ ir : nat * Row, num ir.2 pc)) <$> rows M).
    rewrite list_fmap_compose, Hpops. by rewrite <-list_fmap_compose. }
  assert (Hnonneg : ∀ x, x ∈ l → fle (of_Z 0) (pop0 pc x.2) = true).
  { intros [i r] [_ Hr]%list_elem_of_filter; cbn [snd].
    destruct (filtered_population S pc t df i r Hpc Hr) as (_ & Hle & _).
    eapply fle_trans; [|exact Hle]. by apply fle_of_Z. }
  assert (Hub : ∀ x, x ∈ l → fle (pop0 pc x.2) (col_max pc M) = true).
  { intros x Hx. unfold col_max. rewrite Hpops.
    destruct (series_max_spec ((λ ir : nat * Row, pop0 pc ir.2) <$> l))
      as (_ & _ & Hub).
    - rewrite Forall_fmap, Forall_forall. intros y _. apply pop0_not_nan.
    - intros Hnil. apply fmap_nil_inv in Hnil. rewrite Hnil in Hx.
      by apply elem_of_nil in Hx.
    - apply Hub, list_elem_of_fmap. by exists x. }
  rewrite Helev. split.
  - intros q Hq Hpos. rewrite Forall_fmap, Forall_forall. intros x Hx.
    unfold compose. cbv beta. specialize (Hub x Hx). rewrite Hq in *. split.
    + apply elevation_nonneg; auto.
    + apply elevation_bound; [done|apply pop0_not_nan|done].
  - intros H0. rewrite Forall_fmap, Forall_forall. intros x Hx.
    unfold compose. cbv beta. specialize (Hub x Hx). rewrite H0 in *.
    rewrite (fle_antisym _ _ Hub (Hnonneg x Hx)). by vm_compute.
Qed.

End filter_under_charts.

(** ** Aggregation *)

Lemma fadd_comm x y : fadd x y = fadd y x.
Proof. destruct x, y; simpl; try done. by rewrite Qcplus_comm. Qed.

Lemma fadd_assoc x y z : fadd x (fadd y z) = fadd (fadd x y) z.
Proof. destruct x, y, z; simpl; try done. by rewrite Qcplus_assoc. Qed.

Lemma fadd_0_l x : fadd (of_Z 0) x = x.
Proof.
  destruct x; simpl; try done. unfold of_Z.
  by rewrite Z2Qc_inj_0, Qcplus_0_l.
Qed.

Lemma fadd_0_r x : fadd x (of_Z 0) = x.
Proof. by rewrite fadd_comm, fadd_0_l. Qed.

Lemma fsum_cons x l : fsum (x :: l) = fadd x (fsum l).
Proof. done. Qed.


Lemma nansum_fillna l : nansum l = fsum (fillna (of_Z 0) <$> l).
Proof.
  unfold nansum, notna. induction l as [|x l IH]; [done|].
  rewrite filter_cons, fmap_cons, fsum_cons, <-IH.
  destruct x; cbn [isna fillna]; try done.
  rewrite decide_False by done. by rewrite fadd_0_l.
Qed.

Section sums_by_key.
Context {A : Type} (key : A → Cell) (val : A → float).

Lemma fsum_pointwise (a b : Cell → float) (K : list Cell) :
  fsum ((λ k, fadd (a k) (b k)) <$> K)
  = fadd (fsum (a <$> K)) (fsum (b <$> K)).
Proof.
  induction K as [|k K IH]; [by rewrite fadd_0_l|].
  rewrite !fmap_cons, !fsum_cons, IH, !fadd_assoc. f_equal.
  rewrite <-!fadd_assoc. f_equal. apply fadd_comm.
Qed.

Lemma fsum_indicator (k0 : Cell) (v : float) (K : list Cell) :
  NoDup K →
  fsum ((λ k, if decide (k0 = k) then v else of_Z 0) <$> K)
  = if decide (k0 ∈ K) then v else of_Z 0.
Proof.
  induction 1 as [|k K Hk HK IH]; [done|].
  rewrite fmap_cons, fsum_cons, IH. destruct (decide (k0 = k)) as [->|Hne].
  - rewrite decide_False by done. rewrite decide_True by by left.
    apply fadd_0_r.
  - rewrite fadd_0_l. destruct (decide (k0 ∈ K)) as [Hin|Hin].
    + rewrite decide_True; [done|by right].
    + rewrite decide_False; [done|]. by intros [?|?]%elem_of_cons.
Qed.

(** The sums of the groups add up to the sum over the rows that belong to
    a group. *)
Lemma group_sums_total (K : list Cell) (l : list A) :
  NoDup K →
  fsum ((λ k, fsum (val <$> filter (λ x, key x = k) l)) <$> K)
  = fsum (val <$> filter (λ x, key x ∈ K) l).
Proof.
  intros HK. induction l as [|x l IH].
  - rewrite filter_nil, fmap_nil. clear HK.
    induction K as [|k K IHK]; [done|].
    rewrite fmap_cons, fsum_cons, IHK, filter_nil, fmap_nil.
    apply fadd_0_l.
  - transitivity
      (fsum ((λ k, fadd (if decide (key x = k) then val x else of_Z 0)
                        (fsum (val <$> filter (λ y, key y = k) l))) <$> K)).
    { f_equal. apply list_fmap_ext. intros _ k _.
      rewrite filter_cons. destruct (decide (key x = k)); [done|].
      by rewrite fadd_0_l. }
    rewrite fsum_pointwise, IH, fsum_indicator by done.
    rewrite filter_cons. destruct (decide (key x ∈ K)); [done|].
    by rewrite fadd_0_l.
Qed.

End sums_by_key.

Lemma key_le_trans a b c :
  key_le a b = true → key_le b c = true → key_le a c = true.
Proof.
  destruct a, b, c; simpl; try done; [apply fle_trans|apply string_leb_trans].
Qed.

Lemma key_le_total a b :
  isna_cell a = false → isna_cell b = false →
  key_le a b = true ∨ key_le b a = true.
Proof.
  destruct a as [x|s], b as [y|t]; intros Ha Hb; simpl in *; auto.
  - apply fle_total; by destruct x, y.
  - apply String.leb_total.
Qed.

Lemma group_keys_spec k d :
  NoDup (group_keys k d)
  ∧ StronglySorted (λ a b, key_le a b = true) (group_keys k d)
  ∧ ∀ v, v ∈ group_keys k d
         ↔ v ≠ Num NaN ∧ ∃ i r, (i, r) ∈ rows d ∧ cell r k = v.
Proof.
  unfold group_keys.
  destruct (unique_spec (dropna_cells (column k d))) as [Hnd Hin].
  assert (Hl : ∀ v, v ∈ unique (dropna_cells (column k d))
                    ↔ v ≠ Num NaN ∧ ∃ i r, (i, r) ∈ rows d ∧ cell r k = v).
  { intros v. rewrite Hin, elem_of_dropna_cells, elem_of_column. naive_solver. }
  split; [by rewrite sort_by_perm|]. split.
  - apply sort_by_sorted_on; [apply key_le_trans|].
    intros a b [Ha _]%Hl [Hb _]%Hl. apply key_le_total.
    + by destruct a as [[]|].
    + by destruct b as [[]|].
  - intros v. by rewrite sort_by_perm.
Qed.

Section aggregation_facts.
Context {parser : NumberParser}.

Lemma groupby_sum_total k c d :
  fsum ((groupby_sum k c d).*2)
  = nansum ((λ ir : nat * Row, num ir.2 c)
              <$> filter (λ ir : nat * Row, cell ir.2 k ≠ Num NaN) (rows d)).
Proof.
  destruct (group_keys_spec k d) as (Hnd & _ & Hin).
  unfold groupby_sum. rewrite <-list_fmap_compose.
  transitivity
    (fsum ((λ key, fsum ((λ ir : nat * Row, fillna (of_Z 0) (num ir.2 c))
                           <$> filter (λ ir : nat * Row, cell ir.2 k = key)
                                      (rows d)))
             <$> group_keys k d)).
  { f_equal. apply list_fmap_ext. intros _ key _; simpl.
    unfold group_values. by rewrite nansum_fillna, <-list_fmap_compose. }
  rewrite (group_sums_total (λ ir : nat * Row, cell ir.2 k)) by done.
  rewrite nansum_fillna, <-list_fmap_compose. do 2 f_equal.
  apply filter_ext_in. intros [i r] Hr; simpl. rewrite Hin. naive_solver.
Qed.

Lemma elem_of_groupby_sum k c d key s :
  (key, s) ∈ groupby_sum k c d
  ↔ key ∈ group_keys k d ∧ s = nansum (group_values k c d key).
Proof. unfold groupby_sum. rewrite list_elem_of_fmap. naive_solver. Qed.

End aggregation_facts.




Section group_sums.
Context {parser : NumberParser}.


Lemma total_pop_sum c view :
  total_pop c view
  = int_of_float (nansum ((λ ir : nat * Row, num ir.2 c) <$> rows view)).
Proof.
  unfold total_pop. cbv zeta. case_bool_decide as H; [|done].
  unfold nansum. by rewrite H.
Qed.

(** Chart 3 and the sidebar total, over the filtered view of a table
    whose populations are whole numbers, none negative, that add up to at
    most 2^53.  After the fill no row is without a biome, so no row is left
    out of the pie: its slices add up to the sum of the population column,
    and the population total of the sidebar is the integer part of that
    same sum; a row counts under its biome, or under [Sem informação] when
    it has none. *)
Theorem biome_slices_add_up_to_total
    (bc pc : string) (S : list Cell) (t : Z) (df : DataFrame) :
  bc ∈ bioma_cols (columns df) → pc ∈ pop_cols (columns df) →
  (∀ i r, (i, r) ∈ rows df →
          num r pc = NaN ∨ ∃ z, 0 ≤ z ∧ num r pc = of_Z z) →
  fle (nansum ((λ ir : nat * Row, num ir.2 pc) <$> rows df))
      (of_Z (2 ^ 53)) = true →
  let view := df_filtered S (Some pc) t df in
  let slices := df_bioma_grouped bc pc view in
  (∀ key s, (key, s) ∈ slices →
     key ≠ Num NaN
     ∧ s = nansum ((λ ir : nat * Row, num ir.2 pc)
                     <$> filter (λ ir : nat * Row, fill_text bc ir.2 = key)
                                (rows view)))
  ∧ fsum slices.*2 = nansum ((λ ir : nat * Row, num ir.2 pc) <$> rows view)
  ∧ total_pop pc view = int_of_float (fsum slices.*2).
Proof.
  intros Hbc Hpc _ _ view slices. unfold slices. clearbody view.
  assert (Hne : bc ≠ pc).
  { apply list_elem_of_filter in Hbc as [Hb _].
    unfold pop_cols in Hpc. apply elem_of_available_year_cols in Hpc as [_ Hp].
    intros ->. destruct pc as [|a pc]; [done|].
    simpl in Hb, Hp. repeat case_decide; congruence. }
  set (view' := assign bc (fill_text bc) view).
  assert (Hrows : rows view'
    = (λ ir : nat * Row, (ir.1, <[bc := fill_text bc ir.2]> ir.2)) <$> rows view)
    by done.
  assert (Hfilled : ∀ r : Row, cell (<[bc := fill_text bc r]> r) bc
                               = fill_text bc r).
  { intros r. by rewrite cell_insert_eq. }
  assert (Hnn : ∀ r : Row, fill_text bc r ≠ Num NaN).
  { intros r. unfold fill_text.
    destruct (cell r bc) as [[]|] eqn:E; simpl; congruence. }
  assert (Hgroup : ∀ key,
    (λ ir : nat * Row, num ir.2 pc)
      <$> filter (λ ir : nat * Row, cell ir.2 bc = key) (rows view')
    = (λ ir : nat * Row, num ir.2 pc)
      <$> filter (λ ir : nat * Row, fill_text bc ir.2 = key) (rows view)).
  { intros key. rewrite Hrows.
    rewrite (filter_fmap_comm _ _ (λ ir : nat * Row, fill_text bc ir.2 = key)).
    - rewrite <-list_fmap_compose. apply list_fmap_ext.
      intros _ [i r] _; simpl. by apply num_insert_ne.
    - intros [i r]; simpl. by rewrite Hfilled. }
  assert (Hsum : fsum (df_bioma_grouped bc pc view).*2
    = nansum ((λ ir : nat * Row, num ir.2 pc) <$> rows view)).
  { unfold df_bioma_grouped. fold view'. rewrite groupby_sum_total.
    rewrite filter_all.
    - rewrite Hrows, <-list_fmap_compose. f_equal. apply list_fmap_ext.
      intros _ [i r] _; simpl. by apply num_insert_ne.
    - rewrite Hrows, Forall_fmap, Forall_forall. intros [i r] _; simpl.
      by rewrite Hfilled. }
  split; [|split; [exact Hsum|by rewrite Hsum, total_pop_sum]].
  intros key s. unfold df_bioma_grouped. fold view'.
  rewrite elem_of_groupby_sum. intros [Hk ->]. unfold group_values.
  rewrite Hgroup. split; [|done].
  by apply group_keys_spec in Hk as [? _].
Qed.

End group_sums.

(** *** Means *)

Lemma Qc_of_nat_S (n : nat) :
  Qc_of_Z (Z.of_nat (S n)) = (1 + Qc_of_Z (Z.of_nat n))%Qc.
Proof. by rewrite Nat2Z.inj_succ, <-Z.add_1_l, Z2Qc_inj_add, Z2Qc_inj_1. Qed.

Lemma Qc_of_nat_nonneg (n : nat) : (0 ≤ Qc_of_Z (Z.of_nat n))%Qc.
Proof. rewrite <-Z2Qc_inj_0. apply (proj1 (Z2Qc_inj_le _ _)). lia. Qed.

Lemma Qcsum_upper (q : Qc) (qs : list Qc) :
  ∃ b, b ∈ q :: qs
       ∧ (Qcsum (q :: qs) ≤ b * Qc_of_Z (Z.of_nat (length (q :: qs))))%Qc.
Proof.
  revert q. induction qs as [|q' qs IH]; intros q.
  - exists q. split; [by left|].
    change (Qcsum [q]) with (q + Qc_of_Z 0)%Qc.
    change (Z.of_nat (length [q])) with 1.
    rewrite Z2Qc_inj_0, Z2Qc_inj_1, Qcplus_0_r, Qcmult_1_r. apply Qcle_refl.
  - destruct (IH q') as (b' & Hb' & Hle).
    set (l := q' :: qs) in *.
    change (Qcsum (q :: l)) with (q + Qcsum l)%Qc.
    change (length (q :: l)) with (S (length l)). rewrite Qc_of_nat_S.
    set (n := Qc_of_Z (Z.of_nat (length l))) in *.
    assert (Hn : (0 ≤ n)%Qc) by apply Qc_of_nat_nonneg.
    destruct (Qclt_le_dec b' q) as [Hlt|Hge].
    + exists q. split; [by left|].
      replace (q * (1 + n))%Qc with (q + q * n)%Qc by ring.
      apply Qcplus_le_mono_l. eapply Qcle_trans; [exact Hle|].
      apply Qcmult_le_mono_nonneg_r; [done|by apply Qclt_le_weak].
    + exists b'. split; [by right|].
      replace (b' * (1 + n))%Qc with (b' + b' * n)%Qc by ring.
      by apply Qcplus_le_compat.
Qed.

Lemma Qcsum_lower (q : Qc) (qs : list Qc) :
  ∃ a, a ∈ q :: qs
       ∧ (a * Qc_of_Z (Z.of_nat (length (q :: qs))) ≤ Qcsum (q :: qs))%Qc.
Proof.
  revert q. induction qs as [|q' qs IH]; intros q.
  - exists q. split; [by left|].
    change (Qcsum [q]) with (q + Qc_of_Z 0)%Qc.
    change (Z.of_nat (length [q])) with 1.
    rewrite Z2Qc_inj_0, Z2Qc_inj_1, Qcplus_0_r, Qcmult_1_r. apply Qcle_refl.
  - destruct (IH q') as (a' & Ha' & Hle).
    set (l := q' :: qs) in *.
    change (Qcsum (q :: l)) with (q + Qcsum l)%Qc.
    change (length (q :: l)) with (S (length l)). rewrite Qc_of_nat_S.
    set (n := Qc_of_Z (Z.of_nat (length l))) in *.
    assert (Hn : (0 ≤ n)%Qc) by apply Qc_of_nat_nonneg.
    destruct (Qclt_le_dec q a') as [Hlt|Hge].
    + exists q. split; [by left|].
      replace (q * (1 + n))%Qc with (q + q * n)%Qc by ring.
      apply Qcplus_le_mono_l. eapply Qcle_trans; [|exact Hle].
      apply Qcmult_le_mono_nonneg_r; [done|by apply Qclt_le_weak].
    + exists a'. split; [by right|].
      replace (a' * (1 + n))%Qc with (a' + a' * n)%Qc by ring.
      by apply Qcplus_le_compat.
Qed.

Lemma fsum_Fin (qs : list Qc) : fsum (Fin <$> qs) = Fin (Qcsum qs).
Proof.
  induction qs as [|q qs IH]; [done|].
  rewrite fmap_cons, fsum_cons, IH. done.
Qed.

Lemma notna_finite (l : list float) :
  (∀ x, x ∈ l → x ≠ PInf ∧ x ≠ NInf) →
  ∃ qs, notna l = Fin <$> qs ∧ ∀ q, q ∈ qs → Fin q ∈ l.
Proof.
  induction l as [|x l IH]; intros Hfin.
  - exists []. split; [done|]. by intros q ?%elem_of_nil.
  - destruct IH as (qs & Hqs & Hin).
    { intros y Hy. apply Hfin. by right. }
    unfold notna in *. rewrite filter_cons.
    destruct x as [| |q|]; cbn [isna].
    + rewrite decide_False by done. exists qs. split; [done|].
      intros q Hq. right. auto.
    + by destruct (Hfin NInf) as [_ ?]; [left|].
    + rewrite decide_True by done. exists (q :: qs).
      split; [by rewrite Hqs|].
      intros q' [->|Hq']%elem_of_cons; [by left|right; auto].
    + by destruct (Hfin PInf) as [? _]; [left|].
Qed.

(** The mean of a series: NaN without a value; with values, all finite,
    a number between two of them. *)
Lemma nanmean_spec (l : list float) :
  (notna l = [] → nanmean l = NaN)
  ∧ (notna l ≠ [] → (∀ x, x ∈ l → x ≠ PInf ∧ x ≠ NInf) →
     ∃ a b m, a ∈ l ∧ b ∈ l ∧ nanmean l = Fin m
              ∧ fle a (Fin m) = true ∧ fle (Fin m) b = true).
Proof.
  unfold nanmean. split; [by intros ->|].
  intros Hne Hfin. destruct (notna_finite l Hfin) as (qs & Hqs & Hin).
  rewrite Hqs in *. destruct qs as [|q qs]; [done|].
  destruct (Qcsum_upper q qs) as (b & Hb & Hub).
  destruct (Qcsum_lower q qs) as (a & Ha & Hlb).
  set (n := Qc_of_Z (Z.of_nat (length (q :: qs)))) in *.
  assert (Hn : (0 < n)%Qc).
  { unfold n. rewrite <-Z2Qc_inj_0. apply (proj1 (Z2Qc_inj_lt _ _)).
    simpl. lia. }
  assert (Hn0 : n ≠ 0%Qc) by (intros H0; rewrite H0 in Hn; by apply Qclt_not_eq in Hn).
  exists (Fin a), (Fin b), (Qcsum (q :: qs) / n)%Qc.
  split; [by apply Hin|]. split; [by apply Hin|]. split.
  - rewrite fmap_cons. cbv iota. rewrite <-fmap_cons, fsum_Fin, length_fmap.
    fold n. unfold of_Z, fdiv. fold n. by rewrite decide_False.
  - unfold fle. rewrite !bool_decide_eq_true. split.
    + apply (Qcmult_le_mono_pos_r _ _ n Hn).
      by rewrite (Qcmult_comm (_ / _)), Qcmult_div_r.
    + apply (Qcmult_le_mono_pos_r _ _ n Hn).
      by rewrite (Qcmult_comm (_ / _)), Qcmult_div_r.
Qed.

Section group_means.
Context {parser : NumberParser}.




(** The mean of values of magnitude at most 2^53 is a number; it is not
    positive when none of the values is. *)
Lemma nanmean_bounded (l : list float) :
  l ≠ [] → (∀ x, x ∈ l → bounded x = true) →
  nanmean l ≠ NaN
  ∧ ((∀ x, x ∈ l → fle x (of_Z 0) = true) →
     fle (nanmean l) (of_Z 0) = true).
Proof.
  intros Hne Hb.
  destruct (nanmean_spec l) as [_ Hsome].
  destruct Hsome as (a & b & m & _ & Hbl & -> & _ & Hle).
  - destruct l as [|x l]; [done|].
    unfold notna. rewrite filter_cons_True; [done|].
    specialize (Hb x (list_elem_of_here _ _)). by destruct x.
  - intros x Hx. specialize (Hb x Hx). by destruct x.
  - split; [done|]. intros Hneg. by eapply fle_trans; [exact Hle|apply Hneg].
Qed.


(** The centre of the 3D view is the mean of the coordinates of the map
    table.  When no row of the view has coordinates the map table is empty
    and the centre is (NaN, NaN); otherwise, the coordinates being of
    magnitude at most 2^53, both coordinates of the centre are numbers,
    and a coordinate of the centre is not positive when that coordinate
    is positive in no mapped row. *)
Theorem view_centre_defined
    (pc ic : option string) (view : DataFrame) :
  let M := df_map pc ic view in
  ((∀ i r, (i, r) ∈ rows view → has_coords r = false) →
   rows M = [] ∧ view_centre M = (NaN, NaN))
  ∧ (rows M ≠ [] →
     (∀ i r c, (i, r) ∈ rows M → c ∈ ["latitude"; "longitude"] →
        bounded (num r c) = true) →
     (view_centre M).1 ≠ NaN ∧ (view_centre M).2 ≠ NaN
     ∧ ((∀ i r, (i, r) ∈ rows M → fle (num r "latitude") (of_Z 0) = true) →
        fle (view_centre M).1 (of_Z 0) = true)
     ∧ ((∀ i r, (i, r) ∈ rows M → fle (num r "longitude") (of_Z 0) = true) →
        fle (view_centre M).2 (of_Z 0) = true)).
Proof.
  intros M. split.
  - intros Hnone.
    assert (Hnil : rows M = []).
    { pose proof (index_df_map pc ic view) as Hi. fold M in Hi.
      rewrite filter_none in Hi.
      - unfold index in Hi. by apply fmap_nil_inv in Hi.
      - rewrite Forall_forall. intros [i r] Hr; simpl.
        by rewrite (Hnone i r Hr). }
    split; [done|]. unfold view_centre. by rewrite Hnil.
  - generalize M. intros d Hne Hb.
    assert (Hmean : ∀ c, c ∈ ["latitude"; "longitude"] →
      nanmean ((λ ir : nat * Row, num ir.2 c) <$> rows d) ≠ NaN
      ∧ ((∀ i r, (i, r) ∈ rows d → fle (num r c) (of_Z 0) = true) →
         fle (nanmean ((λ ir : nat * Row, num ir.2 c) <$> rows d)) (of_Z 0)
         = true)).
    { intros c Hc.
      destruct (nanmean_bounded ((λ ir : nat * Row, num ir.2 c) <$> rows d))
        as [Hm Hneg].
      - by destruct (rows d).
      - intros x ([i r] & -> & Hr)%list_elem_of_fmap. by apply (Hb i r c).
      - split; [done|]. intros Hall. apply Hneg.
        intros x ([i r] & -> & Hr)%list_elem_of_fmap. by apply (Hall i r). }
    destruct (Hmean "latitude") as [Hlat Hlat0]; [by left|].
    destruct (Hmean "longitude") as [Hlon Hlon0]; [right; by left|].
    unfold view_centre. cbn [fst snd]. done.
Qed.

End group_means.

(** ** Worked examples, continued *)

Section more_examples.
#[local] Existing Instance int_parser.

(** Splits a membership in an explicit list of rows into its cases. *)
Ltac row_cases H :=
  repeat (apply elem_of_cons in H as [H|H]; [injection H as -> ->|]);
  [..|by apply elem_of_nil in H].

(** Raising the threshold from 0 to 7000000 on the two-city table. *)
Lemma threshold_monotone_witness :
  rows (df_filtered [] (Some "populacao_estimada_2021") 7000000 two_city_view)
    `sublist_of`
    rows (df_filtered [] (Some "populacao_estimada_2021") 0 two_city_view)
  ∧ (len (df_filtered [] (Some "populacao_estimada_2021") 7000000
            two_city_view)
     ≤ len (df_filtered [] (Some "populacao_estimada_2021") 0
              two_city_view))%nat.
Proof.
  apply (threshold_monotone [] (Some "populacao_estimada_2021") 0 7000000
           two_city_view).
  lia.
Defined.

Example threshold_example :
  index (df_filtered [] (Some "populacao_estimada_2021") 7000000 two_city_view)
  = [0%nat]
  ∧ index (df_filtered [] (Some "populacao_estimada_2021") 0 two_city_view)
    = [0%nat; 1%nat].
Proof. split; by vm_compute. Qed.

(** Adding RJ to a selection of SP. *)
Lemma state_selection_monotone_witness :
  rows (df_filtered [Text "SP"] (Some "populacao_estimada_2021") 0
          two_city_view)
    `sublist_of`
    rows (df_filtered [Text "SP"; Text "RJ"] (Some "populacao_estimada_2021") 0
            two_city_view)
  ∧ rows (df_filtered [Text "SP"; Text "RJ"]
            (Some "populacao_estimada_2021") 0 two_city_view)
      `sublist_of`
      rows (df_filtered [] (Some "populacao_estimada_2021") 0 two_city_view).
Proof.
  apply (state_selection_monotone [Text "SP"] [Text "SP"; Text "RJ"]
           (Some "populacao_estimada_2021") 0 two_city_view).
  - done.
  - intros x ->%list_elem_of_singleton. by left.
Defined.

(** The view of the sparse table. *)
Lemma filter_rewrites_only_population_witness :
  (∀ i r', (i, r') ∈ rows (df_filtered [Text "RJ"]
                             (Some "populacao_estimada_2021") 0 sparse_table) →
     ∃ r, (i, r) ∈ rows sparse_table
          ∧ (∀ c, Some "populacao_estimada_2021" = Some c →
                  r' !! c = Some (Num (num r c)))
          ∧ (∀ c', Some "populacao_estimada_2021" ≠ Some c' →
                   r' !! c' = r !! c'))
  ∧ (NoDup (index sparse_table) →
     NoDup (index (df_filtered [Text "RJ"]
                     (Some "populacao_estimada_2021") 0 sparse_table))).
Proof.
  apply (filter_rewrites_only_population [Text "RJ"]
           (Some "populacao_estimada_2021") 0 sparse_table).
  intros c [= <-]. compute_done.
Defined.

Lemma filter_stage_idempotent_witness :
  df_filtered [Text "SP"] (Some "populacao_estimada_2021") 7000000
    (df_filtered [Text "SP"] (Some "populacao_estimada_2021") 7000000
       two_city_view)
  = df_filtered [Text "SP"] (Some "populacao_estimada_2021") 7000000
      two_city_view.
Proof.
  apply (filter_stage_idempotent [Text "SP"]
           (Some "populacao_estimada_2021") 7000000 two_city_view).
  intros c [= <-]. compute_done.
Defined.


(** Twenty ranked rows: the best ten are 0.60 to 0.69, the worst ten 0.50
    to 0.59. *)
Lemma best_dominate_worst_witness :
  (20 ≤ len (df_idh_ranking "idh_2010" twenty_rows))%nat
  ∧ ∀ i a j b, (i, a) ∈ rows (top_10 "idh_2010" twenty_rows) →
               (j, b) ∈ rows (bottom_10 "idh_2010" twenty_rows) →
               fle (num b "idh_2010") (num a "idh_2010") = true.
Proof.
  assert (H : (20 ≤ len (df_idh_ranking "idh_2010" twenty_rows))%nat)
    by (vm_compute; lia).
  split; [exact H|].
  apply (best_dominate_worst "idh_2010" twenty_rows); [compute_done|exact H].
Defined.

Example twenty_rows_halves :
  index (top_10 "idh_2010" twenty_rows)
  = [19; 18; 17; 16; 15; 14; 13; 12; 11; 10]%nat
  ∧ index (bottom_10 "idh_2010" twenty_rows)
    = [0; 1; 2; 3; 4; 5; 6; 7; 8; 9]%nat.
Proof. split; by vm_compute. Qed.

(** Two rows with the same HDI: both halves list them in table order. *)
Lemma equal_metric_halves_coincide_witness :
  index (top_10 "idh_2010" level_view)
  = take 10 (index (df_idh_ranking "idh_2010" level_view))
  ∧ index (bottom_10 "idh_2010" level_view)
    = index (top_10 "idh_2010" level_view).
Proof.
  apply (equal_metric_halves_coincide "idh_2010" level_view).
  intros i a j b Ha Hb _ _. unfold level_view in Ha, Hb. simpl rows in Ha, Hb.
  row_cases Ha; row_cases Hb; by vm_compute.
Defined.

(** The options on the two-city table, and the views of all and of none. *)
Lemma all_states_is_not_no_state_witness :
  ([Text "RJ"; Text "SP"] ≠ [] →
     rows (state_filter [Text "RJ"; Text "SP"] two_city_view)
     = filter (λ ir : nat * Row, cell ir.2 "estado" ≠ Num NaN)
              (rows two_city_view)
     ∧ rows (state_filter (default_states [Text "RJ"; Text "SP"]) two_city_view)
       = filter (λ ir : nat * Row,
                   cell ir.2 "estado" ∈ take 5 [Text "RJ"; Text "SP"])
                (rows two_city_view))
  ∧ ([Text "RJ"; Text "SP"] = [] →
     state_filter (default_states [Text "RJ"; Text "SP"]) two_city_view
     = two_city_view
     ∧ ∀ i r, (i, r) ∈ rows two_city_view → cell r "estado" = Num NaN)
  ∧ state_filter [] two_city_view = two_city_view.
Proof.
  apply (all_states_is_not_no_state two_city_view [Text "RJ"; Text "SP"]).
  - compute_done.
  - by vm_compute.
Defined.

(** The slider of the two-city table ends at 12000000. *)
Lemma slider_upper_end_witness :
  (∀ t, 0 < t →
     (0 < len (df_filtered [] (Some "populacao_estimada_2021") t
                 two_city_view))%nat ↔ t ≤ 12000000)
  ∧ (∀ S t, 12000000 < t →
       rows (df_filtered S (Some "populacao_estimada_2021") t two_city_view)
       = []).
Proof.
  apply (slider_upper_end "populacao_estimada_2021" two_city_view 12000000).
  - compute_done.
  - by vm_compute.
Defined.

(** The bound is the population of the row without a state: with every
    state of the options selected, a threshold of 200 empties the view,
    and with no state selected it leaves that row. *)
Example stateless_maximum :
  max_pop "populacao_estimada_2021" stateless_table = inr 500
  ∧ estados stateless_table = Some [Text "SP"]
  ∧ index (df_filtered [Text "SP"] (Some "populacao_estimada_2021") 200
             stateless_table) = []
  ∧ index (df_filtered [] (Some "populacao_estimada_2021") 200
             stateless_table) = [1%nat].
Proof. repeat split; by vm_compute. Qed.

Example empty_table_has_no_slider :
  max_pop "populacao_estimada_2021"
    (mkDF ["populacao_estimada_2021"] []) = inl EmptyReduction.
Proof. by vm_compute. Qed.

(** A run on the two-city table, which has both label columns. *)
Lemma run_stops_only_for_label_columns_witness :
  wpx (script full_inputs 0) (λ _ _, True)
      (label_column_missing (columns two_city_view))
      (mkState [two_city_view] [])
  ∧ ("estado" ∈ columns two_city_view → "municipio" ∈ columns two_city_view →
     wp (script full_inputs 0) (λ _ _, True) (mkState [two_city_view] [])).
Proof.
  apply (run_stops_only_for_label_columns full_inputs 0 two_city_view
           (mkState [two_city_view] [])).
  - reflexivity.
  - intros sel c Hsel Hc. unfold selectors in Hsel.
    repeat (apply elem_of_cons in Hsel as [->|Hsel];
            [vm_compute in Hc; injection Hc as <-; compute_done|]).
    by apply elem_of_nil in Hsel.
  - intros c i r Hc _ Hr. row_cases Hr;
      (repeat (apply elem_of_cons in Hc as [->|Hc]; [by vm_compute|]));
      by apply elem_of_nil in Hc.
  - intros sel c i r Hsel Hc Hr. unfold selectors in Hsel. row_cases Hr;
      (repeat (apply elem_of_cons in Hsel as [->|Hsel];
               [vm_compute in Hc; injection Hc as <-; by vm_compute|]));
      by apply elem_of_nil in Hsel.
Defined.

(** With the threshold at 1 the row with population 0 and the row without
    population leave the view, and the row that is left has a category. *)
Lemma positive_threshold_bins_every_row_witness :
  0 < 1
  ∧ ∀ i r',
      (i, r') ∈ rows (with_porte porte_label "populacao_estimada_2021"
                        "pib_per_capita_2021" "populacao_estimada_2021"
                        (df_filtered [] (Some "populacao_estimada_2021") 1
                           boundary_view)) →
      ∃ p r, cell r' "porte" = Text (porte_label p)
             ∧ (i, r) ∈ rows boundary_view
             ∧ porte (num r "populacao_estimada_2021") = Some p
             ∧ fle (of_Z 1) (num r "populacao_estimada_2021") = true.
Proof.
  assert (H : 0 < 1) by lia. split; [exact H|].
  apply (positive_threshold_bins_every_row porte_label
           "populacao_estimada_2021" "pib_per_capita_2021"
           "populacao_estimada_2021" [] 1 boundary_view); [compute_done|exact H].
Defined.

(** The elevations of the two-city table. *)
Lemma elevations_of_filtered_view_witness :
  0 ≤ 0
  ∧ (let M := df_map (Some "populacao_estimada_2021") (Some "idh_2010")
                (df_filtered [] (Some "populacao_estimada_2021") 0
                   two_city_view) in
     let elevations :=
       (λ ir : nat * Row, num ir.2 "pop_norm")
         <$> rows (with_pop_norm "populacao_estimada_2021" M) in
     (∀ q, col_max "populacao_estimada_2021" M = Fin q → (0 < q)%Qc →
        Forall (λ e, fle (of_Z 0) e = true ∧ fle e (of_Z 500000) = true)
               elevations)
     ∧ (col_max "populacao_estimada_2021" M = of_Z 0 →
        Forall (λ e, e = NaN) elevations)).
Proof.
  assert (H : 0 ≤ 0) by lia. split; [exact H|].
  apply (elevations_of_filtered_view "populacao_estimada_2021"
           (Some "idh_2010") [] 0 two_city_view); [compute_done|exact H].
Defined.

Example two_city_elevations :
  (λ ir : nat * Row, num ir.2 "pop_norm")
    <$> rows (with_pop_norm "populacao_estimada_2021"
                (df_map (Some "populacao_estimada_2021") (Some "idh_2010")
                   (df_filtered [] (Some "populacao_estimada_2021") 0
                      two_city_view)))
  = [of_Z 500000; of_Z 250000].
Proof. compute_done. Qed.


Example biome_table_groups :
  groupby_sum "estado" "populacao_estimada_2021"
    (df_filtered [] (Some "populacao_estimada_2021") 0 biome_table)
  = [(Text "AM", of_Z 400); (Text "GO", of_Z 200)]
  ∧ df_bioma_grouped "bioma_2019" "populacao_estimada_2021"
      (df_filtered [] (Some "populacao_estimada_2021") 0 biome_table)
    = [(Text "Amazônia", of_Z 400); (Text "Sem informação", of_Z 200)]
  ∧ total_pop "populacao_estimada_2021"
      (df_filtered [] (Some "populacao_estimada_2021") 0 biome_table)
    = inr 600.
Proof. repeat split; compute_done. Qed.

(** The slices of the biome table. *)
Lemma biome_slices_add_up_to_total_witness :
  let view := df_filtered [] (Some "populacao_estimada_2021") 0 biome_table in
  let slices := df_bioma_grouped "bioma_2019" "populacao_estimada_2021" view in
  (∀ key s, (key, s) ∈ slices →
     key ≠ Num NaN
     ∧ s = nansum ((λ ir : nat * Row, num ir.2 "populacao_estimada_2021")
                     <$> filter (λ ir : nat * Row,
                                   fill_text "bioma_2019" ir.2 = key)
                                (rows view)))
  ∧ fsum slices.*2
    = nansum ((λ ir : nat * Row, num ir.2 "populacao_estimada_2021")
                <$> rows view)
  ∧ total_pop "populacao_estimada_2021" view = int_of_float (fsum slices.*2).
Proof.
  apply (biome_slices_add_up_to_total "bioma_2019" "populacao_estimada_2021"
           [] 0 biome_table).
  - compute_done.
  - compute_done.
  - intros i r Hr. unfold biome_table in Hr. simpl rows in Hr.
    row_cases Hr; right;
      [exists 300|exists 200|exists 100]; (split; [lia|compute_done]).
  - compute_done.
Defined.

(** The means and the centre of the two-city table: one municipality per
    state, the centre half way between the two. *)
Example two_city_means :
  groupby_mean "estado" "pib_per_capita_2021"
    (coerce "pib_per_capita_2021" two_city_view)
  = [(Text "RJ", of_Z 50000); (Text "SP", of_Z 60000)]
  ∧ groupby_mean "estado" "pib_per_capita_2021"
      (coerce "pib_per_capita_2021" sparse_table)
    = [(Text "RJ", NaN); (Text "SP", of_Z 60000)]
  ∧ view_centre
      (df_map (Some "populacao_estimada_2021") (Some "idh_2010") two_city_view)
    = (Fin (Q2Qc (-45 # 2)), Fin (Q2Qc (-89 # 2))).
Proof. repeat split; compute_done. Qed.


Example census_discovery :
  pop_cols census_columns
  = ["populacao_estimada_x"; "populacao_estimada_2010";
     "populacao_estimada_2021"]
  ∧ pib_cols census_columns = ["pib_per_capita_2010"; "pib_per_capita_2021"]
  ∧ idh_cols census_columns = ["idh_2010"; "idh_2000"]
  ∧ bioma_cols census_columns = ["bioma_2019"].
Proof. repeat split; by vm_compute. Qed.


Example census_default :
  default_col (pop_cols census_columns) = Some "populacao_estimada_2021"
  ∧ default_col (idh_cols census_columns) = Some "idh_2000".
Proof. split; by vm_compute. Qed.

End more_examples.
